(** * wfmash: the minmer sketch index and the alignment driver

    A shallow embedding of [src/map/include/winSketch.hpp] (class
    [skch::Sketch]) and [src/align/include/computeAlignments.hpp] (class
    [align::Aligner]), with the properties of the index construction, the
    frequency pruning, the binary index format, the mapping-row parser, the
    reference padding and the reader/worker/writer pipeline.

    Conventions.  Machine integers are [Z] with the wrap-around written out
    where the code computes with them.  The hash maps of the source
    ([ankerl::unordered_dense::map] and [set]) are stdpp's [gmap] and [gset];
    the source iterates over them in insertion order, the model in the
    order of [map_to_list] and [elements], and no property below depends on
    the order.  The ordered [std::map] of the frequency histogram is a
    key-sorted association list, so that the reverse iteration of the source
    is the reversed list.  Vectors are lists. *)

From Stdlib Require Import ZArith Lia QArith Ascii.
From stdpp Require Import gmap strings list fin_maps sorting.

Open Scope Z_scope.

(** ** Machine integers *)

Definition two64 : Z := 2 ^ 64.
Definition two63 : Z := 2 ^ 63.

(** Conversion to [uint64_t]. *)
Definition to_u64 (z : Z) : Z := z mod two64.

(** Conversion to [int64_t] (two's complement). *)
Definition to_i64 (z : Z) : Z := (z + two63) mod two64 - two63.

(** [std::numeric_limits<uint64_t>::max()]. *)
Definition uint64_max : Z := two64 - 1.

(** ** Vectors: [back()] and the in-place update of the last element *)

Definition back {A} (l : list A) : option A := last l.

Definition update_back {A} (f : A → A) (l : list A) : list A :=
  alter f (Nat.pred (length l)) l.

(** ** Object representations

    [outStream.write] of the address and [sizeof] of an object [x] stores
    the object representation of [x], and [inStream.read] to the address of
    [x] restores an object from one.  The representation of a type is a
    parameter of the model: [raw_size] is [sizeof], [to_raw] the bytes of an
    object, [of_raw] the object with given bytes, and [raw_ok] holds of the
    values the type can hold (a decidable range check), which are the ones
    the bytes determine. *)
Class Raw (A : Type) : Type := mkRaw {
  raw_size : nat;
  to_raw : A → list Z;
  of_raw : list Z → A;
  raw_ok : A → Prop;
  raw_ok_dec :: ∀ x, Decision (raw_ok x);
  to_raw_length : ∀ x, length (to_raw x) = raw_size;
  of_to_raw : ∀ x, raw_ok x → of_raw (to_raw x) = x
}.

(** The bytes of an array of objects, and the array with given bytes. *)
Definition to_raw_array {A} (R : Raw A) (l : list A) : list Z :=
  concat (to_raw <$> l).

Fixpoint of_raw_array {A} (R : Raw A) (n : nat) (bytes : list Z) : list A :=
  match n with
  | O => []
  | S n' =>
      of_raw (take raw_size bytes) :: of_raw_array R n' (drop raw_size bytes)
  end.

(** Little-endian bytes of an unsigned number, used for the examples. *)
Fixpoint le_bytes (n : nat) (z : Z) : list Z :=
  match n with
  | O => []
  | S n' => z mod 256 :: le_bytes n' (z / 256)
  end.

Fixpoint le_value (bytes : list Z) : Z :=
  match bytes with
  | [] => 0
  | b :: bytes' => b + 256 * le_value bytes'
  end.


(** Conversion to [int] (32 bits, two's complement). *)
Definition to_i32 (z : Z) : Z := (z + 2 ^ 31) mod 2 ^ 32 - 2 ^ 31.

Module skch.

(** ** Base types ([map/include/base_types.hpp])

    The header is not among the sources; the field lists are the ones the
    aggregate initialisers of winSketch.hpp use
    ([MinmerInfo {hash, start, end, seqId, strand}] and
    [IntervalPoint {pos, hash, seqId, side}]). *)

Inductive side : Set := OPEN | CLOSE.

#[global] Instance side_eq_dec : EqDecision side.
Proof. solve_decision. Defined.

Record MinmerInfo : Set := mkMinmerInfo {
  hash : Z;       (* hash_t *)
  wpos : Z;       (* offset_t *)
  wpos_end : Z;   (* offset_t *)
  seqId : Z;      (* seqno_t *)
  strand : Z      (* strand_t *)
}.

Record IntervalPoint : Set := mkIntervalPoint {
  pos : Z;
  ip_hash : Z;
  ip_seqId : Z;
  ip_side : side
}.

#[global] Instance MinmerInfo_eq_dec : EqDecision MinmerInfo.
Proof. solve_decision. Defined.

#[global] Instance IntervalPoint_eq_dec : EqDecision IntervalPoint.
Proof. solve_decision. Defined.

Definition set_pos (p : Z) (ip : IntervalPoint) : IntervalPoint :=
  mkIntervalPoint p (ip_hash ip) (ip_seqId ip) (ip_side ip).

Record ContigInfo : Set := mkContigInfo {
  name : string;
  len : Z
}.

(** [skch::Parameters] ([map/include/map_parameters.hpp], not among the
    sources): the fields winSketch.hpp reads.  [kmer_pct_threshold] is a
    floating-point percentage in the source; it is kept as an exact rational
    here and only enters through [minmerToIgnore_of] below. *)
Record Parameters : Type := mkParameters {
  indexFilename : string;
  overwrite_index : bool;
  create_index_only : bool;
  refSequences : list string;
  segLength : Z;
  sketchSize : Z;
  kmerSize : Z;
  alphabetSize : Z;
  threads : Z;
  kmer_pct_threshold : Q
}.

(** ** The state of a [Sketch] object *)

Record Sketch : Type := mkSketch {
  param : Parameters;
  freqThreshold : Z;
  frequentSeeds : gset Z;
  isInitialized : bool;
  hashFreq : gmap Z Z;
  metadata : list ContigInfo;
  sequencesByFileInfo : list Z;
  minmerPosLookupIndex : gmap Z (list IntervalPoint);
  minmerIndex : list MinmerInfo;
  minmerFreqHistogram : list (Z * Z)
}.

(** The member initialisers of the class followed by the constructor's
    initialiser list: every container starts empty, the threshold at the
    sentinel. *)
Definition Sketch_new (p : Parameters) (md : list ContigInfo)
    (sbf : list Z) : Sketch :=
  {| param := p;
     freqThreshold := uint64_max;
     frequentSeeds := ∅;
     isInitialized := false;
     hashFreq := ∅;
     metadata := md;
     sequencesByFileInfo := sbf;
     minmerPosLookupIndex := ∅;
     minmerIndex := [];
     minmerFreqHistogram := [] |}.

Definition set_hashFreq (v : gmap Z Z) (s : Sketch) : Sketch :=
  mkSketch (param s) (freqThreshold s) (frequentSeeds s) (isInitialized s) v
    (metadata s) (sequencesByFileInfo s) (minmerPosLookupIndex s)
    (minmerIndex s) (minmerFreqHistogram s).

Definition set_minmerPosLookupIndex (v : gmap Z (list IntervalPoint))
    (s : Sketch) : Sketch :=
  mkSketch (param s) (freqThreshold s) (frequentSeeds s) (isInitialized s)
    (hashFreq s) (metadata s) (sequencesByFileInfo s) v
    (minmerIndex s) (minmerFreqHistogram s).

Definition set_minmerIndex (v : list MinmerInfo) (s : Sketch) : Sketch :=
  mkSketch (param s) (freqThreshold s) (frequentSeeds s) (isInitialized s)
    (hashFreq s) (metadata s) (sequencesByFileInfo s)
    (minmerPosLookupIndex s) v (minmerFreqHistogram s).

Definition set_freqThreshold (v : Z) (s : Sketch) : Sketch :=
  mkSketch (param s) v (frequentSeeds s) (isInitialized s)
    (hashFreq s) (metadata s) (sequencesByFileInfo s)
    (minmerPosLookupIndex s) (minmerIndex s) (minmerFreqHistogram s).

Definition set_frequentSeeds (v : gset Z) (s : Sketch) : Sketch :=
  mkSketch (param s) (freqThreshold s) v (isInitialized s)
    (hashFreq s) (metadata s) (sequencesByFileInfo s)
    (minmerPosLookupIndex s) (minmerIndex s) (minmerFreqHistogram s).

Definition set_minmerFreqHistogram (v : list (Z * Z)) (s : Sketch) : Sketch :=
  mkSketch (param s) (freqThreshold s) (frequentSeeds s) (isInitialized s)
    (hashFreq s) (metadata s) (sequencesByFileInfo s)
    (minmerPosLookupIndex s) (minmerIndex s) v.

Definition set_metadata (v : list ContigInfo) (s : Sketch) : Sketch :=
  mkSketch (param s) (freqThreshold s) (frequentSeeds s) (isInitialized s)
    (hashFreq s) v (sequencesByFileInfo s)
    (minmerPosLookupIndex s) (minmerIndex s) (minmerFreqHistogram s).

Definition set_sequencesByFileInfo (v : list Z) (s : Sketch) : Sketch :=
  mkSketch (param s) (freqThreshold s) (frequentSeeds s) (isInitialized s)
    (hashFreq s) (metadata s) v
    (minmerPosLookupIndex s) (minmerIndex s) (minmerFreqHistogram s).

Definition set_isInitialized (v : bool) (s : Sketch) : Sketch :=
  mkSketch (param s) (freqThreshold s) (frequentSeeds s) v
    (hashFreq s) (metadata s) (sequencesByFileInfo s)
    (minmerPosLookupIndex s) (minmerIndex s) (minmerFreqHistogram s).

(** ** [buildHandleThreadOutput]

    [positions_of idx h] is [minmerPosLookupIndex[h]]: [operator[]] yields
    the empty vector for a key that is not there yet (and creates it; every
    path below stores the entry back). *)
Definition positions_of (idx : gmap Z (list IntervalPoint)) (h : Z)
    : list IntervalPoint :=
  default [] (idx !! h).

(** The body of the loop, for one [MinmerInfo]. *)
Definition handleMinmer (s : Sketch) (mi : MinmerInfo) : Sketch :=
  let hf := <[hash mi := to_u64 (default 0 (hashFreq s !! hash mi) + 1)]>
              (hashFreq s) in
  let L := positions_of (minmerPosLookupIndex s) (hash mi) in
  let appended :=
    L ++ [mkIntervalPoint (wpos mi) (hash mi) (seqId mi) OPEN;
          mkIntervalPoint (wpos_end mi) (hash mi) (seqId mi) CLOSE] in
  let L' :=
    match back L with
    | None => appended                      (* size() == 0 *)
    | Some b =>
        if bool_decide (ip_hash b ≠ hash mi) || bool_decide (pos b ≠ wpos mi)
        then appended
        else update_back (set_pos (wpos_end mi)) L
    end in
  set_minmerPosLookupIndex (<[hash mi := L']> (minmerPosLookupIndex s))
    (set_hashFreq hf s).

Definition buildHandleThreadOutput (s : Sketch)
    (contigMinmerIndex : list MinmerInfo) : Sketch :=
  let s' := foldl handleMinmer s contigMinmerIndex in
  set_minmerIndex (minmerIndex s' ++ contigMinmerIndex) s'.

(** The accumulation of [build]: the outputs of the thread pool are handled
    one after the other, in the order in which the pool delivers them. *)
Definition accumulate (s : Sketch) (outputs : list (list MinmerInfo))
    : Sketch :=
  foldl buildHandleThreadOutput s outputs.

(** ** [computeFreqHist]

    [minmerFreqHistogram] is a [std::map<uint64_t, uint64_t>]: its in-order
    traversal is the key-sorted list of its entries.  [hist_incr k h] is
    [h[k]++]. *)
Fixpoint hist_incr (k : Z) (h : list (Z * Z)) : list (Z * Z) :=
  match h with
  | [] => [(k, 1)]
  | (k', n) :: rest =>
      if k <? k' then (k, 1) :: h
      else if k =? k' then (k', to_u64 (n + 1)) :: rest
      else (k', n) :: hist_incr k rest
  end.

(** Step 1: [for (auto& e : minmerPosLookupIndex) hist[e.second.size()]++]. *)
Definition fillHistogram (idx : gmap Z (list IntervalPoint))
    (h : list (Z * Z)) : list (Z * Z) :=
  foldl (λ h e, hist_incr (Z.of_nat (length e.2)) h) h (map_to_list idx).

(** [int64_t minmerToIgnore = totalUniqueMinmers * kmer_pct_threshold / 100]:
    the product and the quotient are taken in floating point in the source
    and the conversion to [int64_t] truncates towards zero.  Here the
    arithmetic is exact; the two agree whenever the source's product and
    quotient are exact (small counts and a percentage such as 50 or 100). *)
Definition minmerToIgnore_of (totalUniqueMinmers : Z) (pct : Q) : Z :=
  let q := (inject_Z totalUniqueMinmers * pct / inject_Z 100)%Q in
  Z.quot (Qnum q) (Z.pos (Qden q)).

(** Step 2: the loop over [rbegin() .. rend()], on the entries in
    descending key order.  [sum] is an [int64_t]; [thr] is the current
    [freqThreshold]. *)
Fixpoint thresholdLoop (desc : list (Z * Z)) (minmerToIgnore sum thr : Z)
    : Z :=
  match desc with
  | [] => thr
  | (first, second) :: rest =>
      let sum := to_i64 (sum + second) in
      if sum <? minmerToIgnore then
        thresholdLoop rest minmerToIgnore sum first
      else if sum =? minmerToIgnore then first
      else thr
  end.

(** The state change of [computeFreqHist] for a given value of
    [minmerToIgnore]. *)
Definition computeFreqHist_with (minmerToIgnore : Z) (s : Sketch) : Sketch :=
  if bool_decide (size (minmerPosLookupIndex s) = 0%nat) then s
  else
    let hist := fillHistogram (minmerPosLookupIndex s)
                  (minmerFreqHistogram s) in
    let thr := thresholdLoop (reverse hist) minmerToIgnore 0 (freqThreshold s) in
    set_freqThreshold thr (set_minmerFreqHistogram hist s).

Definition totalUniqueMinmers (s : Sketch) : Z :=
  to_i64 (Z.of_nat (size (minmerPosLookupIndex s))).

Definition computeFreqHist_state (s : Sketch) : Sketch :=
  computeFreqHist_with
    (minmerToIgnore_of (totalUniqueMinmers s) (kmer_pct_threshold (param s)))
    s.

(** ** [computeFreqSeedSet], [dropFreqSeedSet], [isFreqSeed] *)

Definition computeFreqSeedSet (s : Sketch) : Sketch :=
  set_frequentSeeds
    (foldl (λ (fs : gset Z) (e : Z * list IntervalPoint),
              if bool_decide (freqThreshold s ≤ Z.of_nat (length e.2))
              then {[ e.1 ]} ∪ fs else fs)
       (frequentSeeds s) (map_to_list (minmerPosLookupIndex s)))
    s.

Definition isFreqSeed (s : Sketch) (h : Z) : bool :=
  bool_decide (h ∈ frequentSeeds s).

(** [erase(remove_if(...))] keeps, in order, the entries for which the
    predicate is false. *)
Definition dropFreqSeedSet (s : Sketch) : Sketch :=
  set_minmerIndex
    (filter (λ mi, hash mi ∉ frequentSeeds s) (minmerIndex s)) s.

(** ** The environment of a [Sketch]: files, [std::cerr], the shared
    [SequenceIdManager], and the exits of the process *)

(** What is inserted into [std::cerr]: string literals, numbers, the
    percentage, a histogram entry, an elapsed time, [std::endl]. *)
Inductive tok : Type :=
  | Str (s : string)
  | Num (z : Z)
  | Rat (q : Q)
  | Entry (k v : Z)
  | Seconds
  | Endl.

(** Runs the model does not follow: the overflow of an [int] loop counter
    (undefined behaviour) and a read past the end of the index file (the
    destination is left partly unwritten). *)
Inductive stuck_reason : Set := SignedOverflow | ShortRead.

Record World : Type := mkWorld {
  files : gmap string (list Z);   (* the binary files, by path *)
  cerr : list tok;
  idManager : list string;        (* the names, by sequence id *)
  calls : list string             (* entries into methods, see [enter] *)
}.

Inductive outcome (A : Type) : Type :=
  | Ret (a : A) (w : World)            (* normal return *)
  | Exit (code : Z) (w : World)        (* [exit(code)] *)
  | Stuck (r : stuck_reason) (w : World).

Arguments Ret {A} a w.
Arguments Exit {A} code w.
Arguments Stuck {A} r w.

Definition M (A : Type) : Type := World → outcome A.

#[global] Instance M_ret : MRet M := λ A a w, Ret a w.

#[global] Instance M_bind : MBind M := λ A B f m w,
  match m w with
  | Ret a w' => f a w'
  | Exit code w' => Exit code w'
  | Stuck r w' => Stuck r w'
  end.

Definition exit {A} (code : Z) : M A := λ w, Exit code w.

Definition stuck {A} (r : stuck_reason) : M A := λ w, Stuck r w.

Definition print (l : list tok) : M unit := λ w,
  Ret () (mkWorld (files w) (cerr w ++ l) (idManager w) (calls w)).

(** An observation added by the model: [initialize], [build],
    [computeFreqHist], [writeIndex], [readIndex] and [readParameters] record
    their name when they are entered. *)
Definition enter (method : string) : M unit := λ w,
  Ret () (mkWorld (files w) (cerr w) (idManager w) (calls w ++ [method])).

(** [stdfs::exists]. *)
Definition file_exists (path : string) : M bool := λ w,
  Ret (bool_decide (is_Some (files w !! path))) w.

(** The bytes of a file opened for reading. *)
Definition open_read (path : string) : M (list Z) := λ w,
  match files w !! path with
  | Some bytes => Ret bytes w
  | None => Stuck ShortRead w
  end.

(** The file that a closed [std::ofstream] has written. *)
Definition store_file (path : string) (bytes : list Z) : M unit := λ w,
  Ret () (mkWorld (<[path := bytes]> (files w)) (cerr w) (idManager w)
            (calls w)).

(** Modelled from the spec: [SequenceIdManager::addSequence]
    (SequenceIdManager.hpp is not among the sources) gives a known name its
    id and a new name the next dense id. *)
Fixpoint index_of (name : string) (names : list string) : option nat :=
  match names with
  | [] => None
  | n :: names' =>
      if bool_decide (n = name) then Some O
      else S <$> index_of name names'
  end.

Definition addSequence (sequenceName : string) : M Z := λ w,
  match index_of sequenceName (idManager w) with
  | Some i => Ret (Z.of_nat i) w
  | None =>
      Ret (Z.of_nat (length (idManager w)))
        (mkWorld (files w) (cerr w) (idManager w ++ [sequenceName]) (calls w))
  end.

Definition idManager_size : M Z := λ w,
  Ret (Z.of_nat (length (idManager w))) w.

(** [inStream.read] of [n] bytes. *)
Definition read_bytes (n : nat) (inStream : list Z) : M (list Z * list Z) :=
  if bool_decide (n ≤ length inStream)%nat
  then mret (take n inStream, drop n inStream)
  else stuck ShortRead.

Definition read_obj {A} (R : Raw A) (inStream : list Z) : M (A * list Z) :=
  '(bytes, rest) ← read_bytes raw_size inStream;
  mret (of_raw bytes, rest).

Definition read_array {A} (R : Raw A) (n : nat) (inStream : list Z)
    : M (list A * list Z) :=
  '(bytes, rest) ← read_bytes (n * raw_size) inStream;
  mret (of_raw_array R n bytes, rest).

(** [for (auto idx = 0; idx < numKeys; idx++) body]: [idx] is an [int] and
    [numKeys] a [size_t]. *)
Definition int_max : Z := 2 ^ 31 - 1.

Fixpoint iterate {S} (n : nat) (body : S → M S) (s : S) : M S :=
  match n with
  | O => mret s
  | S n' => s' ← body s; iterate n' body s'
  end.

Definition for_int_below {S} (numKeys : Z) (body : S → M S) (s : S) : M S :=
  if bool_decide (numKeys ≤ int_max)
  then iterate (Z.to_nat numKeys) body s
  else (_ ← iterate (Z.to_nat (int_max + 1)) body s; stuck SignedOverflow).

Section sketch_io.

(** The object representations of [size_t], of the map key
    ([MinmerMapKeyType]), of the three persisted parameters and of the two
    record types, as the headers that are not among the sources declare
    them. *)
Context (size_raw key_raw segLength_raw sketchSize_raw kmerSize_raw : Raw Z).
Context (MinmerInfo_raw : Raw MinmerInfo).
Context (IntervalPoint_raw : Raw IntervalPoint).

(** [seqiter::for_each_seq_in_file]: the (name, sequence) pairs of a file
    that the callback is called with.  [skch::CommonFunc::addMinmers]: the
    minmers appended to an empty output for (sequence, length, k-mer size,
    segment length, alphabet size, sketch size, sequence id).  [delivery]:
    the order in which the thread pool hands back the outputs of the
    submitted jobs. *)
Context (for_each_seq_in_file : string → list string → list (string * string)).
Context (addMinmers : string → Z → Z → Z → Z → Z → Z → list MinmerInfo).
Context (delivery : list (list MinmerInfo) → list (list MinmerInfo)).

(** *** Writing *)

Definition writeParameters (s : Sketch) (outStream : list Z) : list Z :=
  outStream ++ to_raw (Raw := segLength_raw) (segLength (param s))
            ++ to_raw (Raw := sketchSize_raw) (sketchSize (param s))
            ++ to_raw (Raw := kmerSize_raw) (kmerSize (param s)).

Definition writeSketchBinary (s : Sketch) (outStream : list Z) : list Z :=
  outStream
    ++ to_raw (Raw := size_raw) (Z.of_nat (length (minmerIndex s)))
    ++ to_raw_array MinmerInfo_raw (minmerIndex s).

Definition writePosListEntry (e : Z * list IntervalPoint) : list Z :=
  to_raw (Raw := key_raw) e.1
    ++ to_raw (Raw := size_raw) (Z.of_nat (length e.2))
    ++ to_raw_array IntervalPoint_raw e.2.

Definition writePosListBinary (s : Sketch) (outStream : list Z) : list Z :=
  outStream
    ++ to_raw (Raw := size_raw) (Z.of_nat (size (minmerPosLookupIndex s)))
    ++ concat (writePosListEntry <$> map_to_list (minmerPosLookupIndex s)).

Definition writeFreqKmersBinary (s : Sketch) (outStream : list Z) : list Z :=
  outStream
    ++ to_raw (Raw := size_raw) (Z.of_nat (size (frequentSeeds s)))
    ++ concat (to_raw (Raw := key_raw) <$> elements (frequentSeeds s)).

Definition index_bytes (s : Sketch) : list Z :=
  writeFreqKmersBinary s
    (writePosListBinary s (writeSketchBinary s (writeParameters s []))).

Definition writeIndex (s : Sketch) : M unit :=
  enter "writeIndex";;
  store_file (indexFilename (param s)) (index_bytes s).

(** *** Reading *)

Definition readParameters (s : Sketch) (inStream : list Z) : M (list Z) :=
  enter "readParameters";;
  '(index_segLength, inStream) ← read_obj segLength_raw inStream;
  '(index_sketchSize, inStream) ← read_obj sketchSize_raw inStream;
  '(index_kmerSize, inStream) ← read_obj kmerSize_raw inStream;
  if bool_decide (segLength (param s) ≠ index_segLength)
     || bool_decide (sketchSize (param s) ≠ index_sketchSize)
     || bool_decide (kmerSize (param s) ≠ index_kmerSize)
  then
    print [Str "[mashmap::skch::Sketch::build] ERROR: Parameters of indexed sketch differ from CLI parameters"; Endl];;
    print [Str "[mashmap::skch::Sketch::build] ERROR: Index --> segLength=";
           Num index_segLength;
           Str " sketchSize="; Num index_sketchSize;
           Str " kmerSize="; Num index_kmerSize; Endl];;
    print [Str "[mashmap::skch::Sketch::build] ERROR: CLI   --> segLength=";
           Num (segLength (param s));
           Str " sketchSize="; Num (sketchSize (param s));
           Str " kmerSize="; Num (kmerSize (param s)); Endl];;
    exit 1
  else mret inStream.

Definition readSketchBinary (s : Sketch) (inStream : list Z)
    : M (Sketch * list Z) :=
  '(size, inStream) ← read_obj size_raw inStream;
  '(minmers, inStream) ← read_array MinmerInfo_raw (Z.to_nat size) inStream;
  mret (set_minmerIndex minmers s, inStream).

Definition readPosListBinary (s : Sketch) (inStream : list Z)
    : M (Sketch * list Z) :=
  '(numKeys, inStream) ← read_obj size_raw inStream;
  for_int_below numKeys
    (λ '(s, inStream),
       '(key, inStream) ← read_obj key_raw inStream;
       '(size, inStream) ← read_obj size_raw inStream;
       '(points, inStream) ←
          read_array IntervalPoint_raw (Z.to_nat size) inStream;
       mret (set_minmerPosLookupIndex
               (<[key := points]> (minmerPosLookupIndex s)) s,
             inStream))
    (s, inStream).

Definition readFreqKmersBinary (s : Sketch) (inStream : list Z)
    : M (Sketch * list Z) :=
  '(numKeys, inStream) ← read_obj size_raw inStream;
  for_int_below numKeys
    (λ '(s, inStream),
       '(key, inStream) ← read_obj key_raw inStream;
       mret (set_frequentSeeds ({[ key ]} ∪ frequentSeeds s) s, inStream))
    (s, inStream).

Definition readIndex (s : Sketch) : M Sketch :=
  enter "readIndex";;
  inStream ← open_read (indexFilename (param s));
  inStream ← readParameters s inStream;
  '(s, inStream) ← readSketchBinary s inStream;
  '(s, inStream) ← readPosListBinary s inStream;
  '(s, inStream) ← readFreqKmersBinary s inStream;
  mret s.

(** *** [computeFreqHist], with its messages *)

Definition computeFreqHist (s : Sketch) : M Sketch :=
  enter "computeFreqHist";;
  if bool_decide (size (minmerPosLookupIndex s) = 0%nat) then
    print [Str "[mashmap::skch::Sketch::computeFreqHist] No minmers."; Endl];;
    mret s
  else
    let s' := computeFreqHist_state s in
    let hist := minmerFreqHistogram s' in
    print [Str "[mashmap::skch::Sketch::computeFreqHist] Frequency histogram of minmer interval points = ";
           from_option (λ e, Entry e.1 e.2) (Str "") (head hist);
           Str " ... ";
           from_option (λ e, Entry e.1 e.2) (Str "") (last hist);
           Endl];;
    (if bool_decide (freqThreshold s' ≠ uint64_max) then
       print [Str "[mashmap::skch::Sketch::computeFreqHist] With threshold ";
              Rat (kmer_pct_threshold (param s'));
              Str "%, ignore minmers with more than >= ";
              Num (freqThreshold s');
              Str " interval points during mapping."; Endl]
     else
       print [Str "[mashmap::skch::Sketch::computeFreqHist] With threshold ";
              Rat (kmer_pct_threshold (param s'));
              Str "%, consider all minmers during mapping."; Endl]);;
    mret s'.

(** *** [build] *)

(** [buildHelper] on an [InputSeqContainer (seq, seq_name, seqId)]. *)
Definition buildHelper (p : Parameters) (seq : string) (seqId : Z)
    : list MinmerInfo :=
  addMinmers seq (Z.of_nat (String.length seq)) (kmerSize p) (segLength p)
    (alphabetSize p) (sketchSize p) seqId.

(** What the callback of [for_each_seq_in_file] keeps while the files are
    read: the sketch, the outputs of the submitted jobs in submission
    order, and the three counters. *)
Record build_acc : Type := mkBuildAcc {
  acc_sketch : Sketch;
  acc_outputs : list (list MinmerInfo);
  totalSeqProcessed : Z;
  totalSeqSkipped : Z;
  shortestSeqLength : Z
}.

Definition build_seq (a : build_acc) (e : string * string) : M build_acc :=
  let '(seq_name, seq) := e in
  let s := acc_sketch a in
  let seq_length := Z.of_nat (String.length seq) in
  if bool_decide (to_u64 (segLength (param s)) ≤ seq_length) then
    seqId ← addSequence seq_name;
    print [Str "DEBUG: Processing sequence: "; Str seq_name;
           Str " (length: "; Num seq_length; Str ")"; Endl];;
    mret (mkBuildAcc
            (set_metadata (metadata s ++ [mkContigInfo seq_name seq_length]) s)
            (acc_outputs a ++ [buildHelper (param s) seq seqId])
            (to_u64 (totalSeqProcessed a + 1))
            (totalSeqSkipped a)
            (Z.min (shortestSeqLength a) seq_length))
  else
    print [Str "WARNING, skch::Sketch::build, skipping short sequence: ";
           Str seq_name; Str " (length: "; Num seq_length; Str ")"; Endl];;
    mret (mkBuildAcc s (acc_outputs a) (totalSeqProcessed a)
            (to_u64 (totalSeqSkipped a + 1)) (shortestSeqLength a)).

Fixpoint foldM {S X} (f : S → X → M S) (s : S) (l : list X) : M S :=
  match l with
  | [] => mret s
  | x :: l' => s' ← f s x; foldM f s' l'
  end.

Definition build_file (target_names : list string) (a : build_acc)
    (fileName : string) : M build_acc :=
  print [Str "[mashmap::skch::Sketch::build] Processing file: ";
         Str fileName; Endl];;
  foldM build_seq a (for_each_seq_in_file fileName target_names).

(** The outputs are collected partly while the files are read and partly
    after; [buildHandleThreadOutput] changes only [hashFreq],
    [minmerPosLookupIndex] and [minmerIndex], which the callback does not
    read, so the state after the last collection is that of handling the
    outputs, in delivery order, after the loop. *)
Definition build (compute_seeds : bool) (target_names : list string)
    (s : Sketch) : M Sketch :=
  enter "build";;
  s ← (if compute_seeds then
         a ← foldM (build_file target_names)
               (mkBuildAcc s [] 0 0 uint64_max) (refSequences (param s));
         n ← idManager_size;
         let s := acc_sketch a in
         let s := set_sequencesByFileInfo (sequencesByFileInfo s ++ [n]) s in
         print [Str "[mashmap::skch::Sketch::build] Shortest sequence length: ";
                Num (shortestSeqLength a); Endl];;
         let s := accumulate s (delivery (acc_outputs a)) in
         print [Str "[mashmap::skch::Sketch::build] Total sequences processed: ";
                Num (totalSeqProcessed a); Endl];;
         print [Str "[mashmap::skch::Sketch::build] Total sequences skipped: ";
                Num (totalSeqSkipped a); Endl];;
         print [Str "[mashmap::skch::Sketch::build] Unique minmer hashes before pruning = ";
                Num (Z.of_nat (size (minmerPosLookupIndex s))); Endl];;
         print [Str "[mashmap::skch::Sketch::build] Total minmer windows before pruning = ";
                Num (Z.of_nat (length (minmerIndex s))); Endl];;
         mret s
       else mret s);
  print [Str "[mashmap::skch::Sketch::build] time spent computing the reference index: ";
         Seconds; Str " sec"; Endl];;
  if bool_decide (length (minmerIndex s) = 0%nat) then
    print [Str "[mashmap::skch::Sketch::build] ERROR, reference sketch is empty. Reference sequences shorter than the kmer size are not indexed"; Endl];;
    exit 1
  else mret s.

(** *** [initialize] and the constructor *)

Definition initialize (targets : list string) (s : Sketch) : M Sketch :=
  enter "initialize";;
  print [Str "[mashmap::skch::Sketch] Initializing Sketch..."; Endl];;
  index_exists ← file_exists (indexFilename (param s));
  s ← (if bool_decide (indexFilename (param s) = "")
          || negb index_exists
          || overwrite_index (param s)
       then
         s ← build true targets s;
         s ← computeFreqHist s;
         let s := computeFreqSeedSet s in
         let s := dropFreqSeedSet s in
         let s := set_hashFreq ∅ s in
         (if bool_decide (indexFilename (param s) ≠ "")
          then writeIndex s else mret ());;
         (if create_index_only (param s) then
            print [Str "[mashmap::skch::Sketch] Index created successfully. Exiting."; Endl];;
            exit 0
          else mret ());;
         mret s
       else
         s ← build false [] s;
         readIndex s);
  print [Str "[mashmap::skch::Sketch] Unique minmer hashes after pruning = ";
         Num (to_u64 (Z.of_nat (size (minmerPosLookupIndex s))
                      - Z.of_nat (size (frequentSeeds s)))); Endl];;
  print [Str "[mashmap::skch::Sketch] Total minmer windows after pruning = ";
         Num (Z.of_nat (length (minmerIndex s))); Endl];;
  print [Str "[mashmap::skch::Sketch] Metadata size = ";
         Num (Z.of_nat (length (metadata s))); Endl];;
  print [Str "[mashmap::skch::Sketch] Sketch initialization complete."; Endl];;
  mret (set_isInitialized true s).

(** The public constructor. *)
Definition Sketch_ctor (p : Parameters) (md : list ContigInfo) (sbf : list Z)
    (targets : list string) : M Sketch :=
  initialize targets (Sketch_new p md sbf).

End sketch_io.

(** ** Predicates on interval-point sequences *)

(** The side expected at index [i] of [positions[H]]. *)
Definition side_at (i : nat) : side := if Nat.even i then OPEN else CLOSE.

Definition alternates (l : list IntervalPoint) : Prop :=
  ∀ i p, l !! i = Some p → ip_side p = side_at i.

(** Pair [i] is the points [2i] and [2i+1]; the pairs [i] and [i+1] are
    immediately adjacent when the CLOSE of the first is at the position of
    the OPEN of the second. *)
Definition no_adjacent_pairs (l : list IntervalPoint) : Prop :=
  ∀ i c o, l !! (2 * i + 1)%nat = Some c → l !! (2 * i + 2)%nat = Some o →
    pos c ≠ pos o.

Record points_inv (h : Z) (l : list IntervalPoint) : Prop := {
  inv_even : Nat.Even (length l);
  inv_side : alternates l;
  inv_hash : ∀ p, p ∈ l → ip_hash p = h;
  inv_gap : no_adjacent_pairs l
}.

Definition index_inv (idx : gmap Z (list IntervalPoint)) : Prop :=
  ∀ h l, idx !! h = Some l → points_inv h l.

(** ** Quantities of the frequency pruning *)

(** The numbers [|positions[H]|] of interval points, one per hash of the
    index: the values [e.second.size()] that [computeFreqHist] and
    [computeFreqSeedSet] look at. *)
Definition point_counts (idx : gmap Z (list IntervalPoint)) : list Z :=
  (λ e, Z.of_nat (length e.2)) <$> map_to_list idx.

Definition count_ge (c : Z) (ks : list Z) : Z :=
  Z.of_nat (length (filter (λ n, c ≤ n) ks)).

(** The number of hashes with at least [c] interval points. *)
Definition hashes_with_at_least (c : Z) (idx : gmap Z (list IntervalPoint))
    : Z :=
  count_ge c (point_counts idx).

(** The sum of the histogram entries with key at least [c]: what the loop
    of [computeFreqHist] has summed when it has handled the entry [c]. *)
Fixpoint cumulative (c : Z) (h : list (Z * Z)) : Z :=
  match h with
  | [] => 0
  | (k, n) :: rest => (if bool_decide (c ≤ k) then n else 0) + cumulative c rest
  end.

Fixpoint hist_total (h : list (Z * Z)) : Z :=
  match h with
  | [] => 0
  | (_, n) :: rest => n + hist_total rest
  end.

(** The histogram [h] of the multiset [ks] of counts. *)
Record hist_ok (ks : list Z) (h : list (Z * Z)) : Prop := {
  hist_sorted : StronglySorted Z.lt (h.*1);
  hist_pos : Forall (λ e, 1 ≤ e.2) h;
  hist_cumulative : ∀ c, cumulative c h = count_ge c ks;
  hist_keys : ∀ k, k ∈ h.*1 ↔ k ∈ ks;
  hist_sum : hist_total h = Z.of_nat (length ks)
}.

(** The three pruning steps of [initialize], on the state. *)
Definition prune (s : Sketch) : Sketch :=
  dropFreqSeedSet (computeFreqSeedSet (computeFreqHist_state s)).

(** The target of the specification, [total_unique_hashes * pct / 100],
    as an exact rational. *)
Definition pct_target (s : Sketch) : Q :=
  (inject_Z (Z.of_nat (size (minmerPosLookupIndex s)))
   * kmer_pct_threshold (param s) / inject_Z 100)%Q.

(** The threshold as the specification words it: the count at which the
    sum of the hash counts, taken from the highest count downward, first
    reaches the target. *)
Definition threshold_first_reaches_target (s : Sketch) : Prop :=
  let idx := minmerPosLookupIndex s in
  freqThreshold s ∈ point_counts idx ∧
  (pct_target s <= inject_Z (hashes_with_at_least (freqThreshold s) idx))%Q ∧
  ∀ c, c ∈ point_counts idx → freqThreshold s < c →
       (inject_Z (hashes_with_at_least c idx) < pct_target s)%Q.

(** The invariant as the specification words it: the threshold is finite
    iff the hash counts from it upward sum to at least the target. *)
Definition threshold_finite_iff_reached (s : Sketch) : Prop :=
  freqThreshold s ≠ uint64_max ↔
  (pct_target s
   <= inject_Z (hashes_with_at_least (freqThreshold s)
                  (minmerPosLookupIndex s)))%Q.

(** The pruning property as the specification words it. *)
Definition frequent_seeds_halved_count (s : Sketch) : Prop :=
  ∀ H, H ∈ frequentSeeds s →
    freqThreshold s
    ≤ Z.of_nat (length (positions_of (minmerPosLookupIndex s) H)) / 2.

(** ** Predicates on the diagnostics and on the persisted index *)

Definition ends_with (suffix s : string) : bool :=
  String.eqb
    (String.substring (String.length s - String.length suffix)
       (String.length suffix) s)
    suffix
  && (String.length suffix <=? String.length s)%nat.

(** The output names [field] with the value [v]: a literal ending in
    [field=] is followed by the number [v]. *)
Fixpoint shows (field : string) (v : Z) (out : list tok) : bool :=
  match out with
  | [] => false
  | Str lit :: rest =>
      match rest with
      | Num z :: _ => ends_with (field +:+ "=") lit && (z =? v)
      | _ => false
      end
      || shows field v rest
  | _ :: rest => shows field v rest
  end.

(** What the constructor prints before [build(false)] exits. *)
Definition empty_sketch_messages : list tok :=
  [Str "[mashmap::skch::Sketch] Initializing Sketch..."; Endl;
   Str "[mashmap::skch::Sketch::build] time spent computing the reference index: ";
   Seconds; Str " sec"; Endl;
   Str "[mashmap::skch::Sketch::build] ERROR, reference sketch is empty. Reference sequences shorter than the kmer size are not indexed";
   Endl].

(** Only the metadata of the sketch changes while the files are read. *)
Definition same_but_metadata (s s' : Sketch) : Prop :=
  ∃ md, s' = set_metadata md s.

(** The three lines of [readParameters] for stored values [seg], [sk], [k]
    and current parameters [p]. *)
Definition mismatch_diagnostic (seg sk k : Z) (p : Parameters) : list tok :=
  [Str "[mashmap::skch::Sketch::build] ERROR: Parameters of indexed sketch differ from CLI parameters"; Endl;
   Str "[mashmap::skch::Sketch::build] ERROR: Index --> segLength="; Num seg;
   Str " sketchSize="; Num sk; Str " kmerSize="; Num k; Endl;
   Str "[mashmap::skch::Sketch::build] ERROR: CLI   --> segLength=";
   Num (segLength p);
   Str " sketchSize="; Num (sketchSize p);
   Str " kmerSize="; Num (kmerSize p); Endl].

Section persisted.
Context (size_raw key_raw segLength_raw sketchSize_raw kmerSize_raw : Raw Z).
Context (MinmerInfo_raw : Raw MinmerInfo).
Context (IntervalPoint_raw : Raw IntervalPoint).

(** The three parameters fit their types. *)
Definition params_ok (p : Parameters) : Prop :=
  raw_ok (Raw := segLength_raw) (segLength p) ∧
  raw_ok (Raw := sketchSize_raw) (sketchSize p) ∧
  raw_ok (Raw := kmerSize_raw) (kmerSize p).

(** The index fits the machine: counts fit [size_t], the two key counts
    also the [int] counter of the reading loops, and every record and key
    its type. *)
Record index_ok (s : Sketch) : Prop := {
  ok_params : params_ok (param s);
  ok_minmer_count :
    raw_ok (Raw := size_raw) (Z.of_nat (length (minmerIndex s)));
  ok_minmers : Forall (raw_ok (Raw := MinmerInfo_raw)) (minmerIndex s);
  ok_key_count :
    raw_ok (Raw := size_raw) (Z.of_nat (size (minmerPosLookupIndex s))) ∧
    Z.of_nat (size (minmerPosLookupIndex s)) ≤ int_max;
  ok_entries :
    Forall (λ e : Z * list IntervalPoint,
              raw_ok (Raw := key_raw) e.1 ∧
              raw_ok (Raw := size_raw) (Z.of_nat (length e.2)) ∧
              Forall (raw_ok (Raw := IntervalPoint_raw)) e.2)
      (map_to_list (minmerPosLookupIndex s));
  ok_seed_count :
    raw_ok (Raw := size_raw) (Z.of_nat (size (frequentSeeds s))) ∧
    Z.of_nat (size (frequentSeeds s)) ≤ int_max;
  ok_seeds :
    Forall (raw_ok (Raw := key_raw)) (elements (frequentSeeds s))
}.

(** The parameter block of an index file written with the given segment
    length, sketch size and k-mer size. *)
Definition param_block (seg sk k : Z) : list Z :=
  to_raw (Raw := segLength_raw) seg ++ to_raw (Raw := sketchSize_raw) sk
    ++ to_raw (Raw := kmerSize_raw) k.

(** The persisted parameters of two sketches agree. *)
Definition same_parameters (p q : Parameters) : Prop :=
  segLength p = segLength q ∧ sketchSize p = sketchSize q ∧
  kmerSize p = kmerSize q.

End persisted.

(** ** [getFreqThreshold] and [clear] *)

(** [int getFreqThreshold() const]: the [uint64_t] threshold, converted to
    the return type. *)
Definition getFreqThreshold (s : Sketch) : Z := to_i32 (freqThreshold s).

(** [clear]: the containers are emptied and the threshold is reset; the
    parameters and [isInitialized] are not touched. *)
Definition clear (s : Sketch) : Sketch :=
  {| param := param s;
     freqThreshold := uint64_max;
     frequentSeeds := ∅;
     isInitialized := isInitialized s;
     hashFreq := ∅;
     metadata := [];
     sequencesByFileInfo := [];
     minmerPosLookupIndex := ∅;
     minmerIndex := [];
     minmerFreqHistogram := [] |}.

(** ** Quantities of the construction *)

(** The number of minmers of [l] with hash [h]. *)
Definition occurrences (h : Z) (l : list MinmerInfo) : nat :=
  length (filter (λ mi, hash mi = h) l).

(** What [hashFreq] and the positions map record of the minmers [l] that
    have been handled. *)
Record counts_inv (s : Sketch) (l : list MinmerInfo) : Prop := {
  cnt_freq : ∀ h,
    default 0 (hashFreq s !! h) = to_u64 (Z.of_nat (occurrences h l));
  cnt_freq_keys : ∀ h,
    is_Some (hashFreq s !! h) ↔ (0 < occurrences h l)%nat;
  cnt_keys : ∀ h,
    is_Some (minmerPosLookupIndex s !! h) ↔ (0 < occurrences h l)%nat;
  cnt_points : ∀ h pts,
    minmerPosLookupIndex s !! h = Some pts →
    (2 ≤ length pts ≤ 2 * occurrences h l)%nat
}.

(** The window of [mi] lies within the pair [i] of [l], the points [2i]
    and [2i+1]. *)
Definition covered_by (mi : MinmerInfo) (l : list IntervalPoint) (i : nat)
    : Prop :=
  ∃ o c, l !! (2 * i)%nat = Some o ∧ l !! (2 * i + 1)%nat = Some c ∧
         pos o ≤ wpos mi ∧ wpos_end mi ≤ pos c.

(** Every pair of [l] is an interval: its OPEN is not after its CLOSE. *)
Definition pairs_ordered (l : list IntervalPoint) : Prop :=
  ∀ i o c, l !! (2 * i)%nat = Some o → l !! (2 * i + 1)%nat = Some c →
           pos o ≤ pos c.

(** The pairs of the positions map are intervals that cover the windows of
    the minmers [l] that have been handled. *)
Definition cover_inv (idx : gmap Z (list IntervalPoint))
    (l : list MinmerInfo) : Prop :=
  (∀ h pts, idx !! h = Some pts → pairs_ordered pts) ∧
  (∀ mi, mi ∈ l →
     ∃ pts i, idx !! hash mi = Some pts ∧ covered_by mi pts i).

(** The number of interval points of the positions map. *)
Definition total_points (idx : gmap Z (list IntervalPoint)) : nat :=
  sum_list ((λ e : Z * list IntervalPoint, length e.2) <$> map_to_list idx).

(** The sketch that [readIndex] leaves when it reads the file written from
    [I] into [s0]: the minmer table is replaced, the positions map and the
    frequent seeds are added to. *)
Definition loaded (I s0 : Sketch) : Sketch :=
  set_frequentSeeds (frequentSeeds I ∪ frequentSeeds s0)
    (set_minmerPosLookupIndex
       (minmerPosLookupIndex I ∪ minmerPosLookupIndex s0)
       (set_minmerIndex (minmerIndex I) s0)).

(** ** Quantities of [build] *)

(** The sequences that the callback of [build] is called with, over the
    reference files in order. *)
Definition all_sequences
    (for_each_seq_in_file : string → list string → list (string * string))
    (p : Parameters) (target_names : list string) : list (string * string) :=
  concat ((λ fileName, for_each_seq_in_file fileName target_names)
            <$> refSequences p).

(** The sequences that are long enough to be sketched
    ([seq.length() >= param.segLength]). *)
Definition sketched (p : Parameters) (l : list (string * string))
    : list (string * string) :=
  filter (λ e, to_u64 (segLength p) ≤ Z.of_nat (String.length e.2)) l.

(** Their [ContigInfo] records. *)
Definition collected_metadata (p : Parameters) (l : list (string * string))
    : list ContigInfo :=
  (λ e, mkContigInfo e.1 (Z.of_nat (String.length e.2))) <$> sketched p l.

(** ** Quantities of [initialize] *)

(** The world in which [initialize] calls [build]. *)
Definition initializing (w : World) : World :=
  mkWorld (files w)
    (cerr w ++ [Str "[mashmap::skch::Sketch] Initializing Sketch..."; Endl])
    (idManager w) (calls w ++ ["initialize"]).

(** The four lines that end [initialize]. *)
Definition final_report (s : Sketch) : list tok :=
  [Str "[mashmap::skch::Sketch] Unique minmer hashes after pruning = ";
   Num (to_u64 (Z.of_nat (size (minmerPosLookupIndex s))
                - Z.of_nat (size (frequentSeeds s)))); Endl;
   Str "[mashmap::skch::Sketch] Total minmer windows after pruning = ";
   Num (Z.of_nat (length (minmerIndex s))); Endl;
   Str "[mashmap::skch::Sketch] Metadata size = ";
   Num (Z.of_nat (length (metadata s))); Endl;
   Str "[mashmap::skch::Sketch] Sketch initialization complete."; Endl].

(** The end of [initialize]: the report and the flag. *)
Definition report_and_return (s : Sketch) : M Sketch :=
  print [Str "[mashmap::skch::Sketch] Unique minmer hashes after pruning = ";
         Num (to_u64 (Z.of_nat (size (minmerPosLookupIndex s))
                      - Z.of_nat (size (frequentSeeds s)))); Endl];;
  print [Str "[mashmap::skch::Sketch] Total minmer windows after pruning = ";
         Num (Z.of_nat (length (minmerIndex s))); Endl];;
  print [Str "[mashmap::skch::Sketch] Metadata size = ";
         Num (Z.of_nat (length (metadata s))); Endl];;
  print [Str "[mashmap::skch::Sketch] Sketch initialization complete."; Endl];;
  mret (set_isInitialized true s).

End skch.

Module align.

(** ** Mapping records ([align/include/align_types.hpp])

    The header is not among the sources; the fields are the ones
    computeAlignments.hpp uses.  Offsets are signed 64-bit (specification,
    section 3); [float] is the type of the identity estimate. *)

Inductive strnd : Set := FWD | REV.

#[global] Instance strnd_eq_dec : EqDecision strnd.
Proof. solve_decision. Defined.

Record MappingBoundaryRow {float : Type} : Type := mkMappingBoundaryRow {
  qId : string;
  refId : string;
  qStartPos : Z;
  qEndPos : Z;
  rStartPos : Z;
  rEndPos : Z;
  strand : strnd;
  mashmap_estimated_identity : float;
  rankMapping : Z
}.

Arguments MappingBoundaryRow float : clear implicits.

(** ** [parseMashmapRow] *)

(** How a call ends: normally, at the failed [assert], in an access past
    the end of a vector (undefined behaviour), or with an exception that
    nothing catches. *)
Inductive parsed (A : Type) : Type :=
  | Parsed (r : A)
  | AssertionFailed
  | OutOfRange (index size : nat)
  | Throws (exception : string).

Arguments Parsed {A} r.
Arguments AssertionFailed {A}.
Arguments OutOfRange {A} index size.
Arguments Throws {A} exception.

(** [std::isspace] in the classic locale. *)
Definition isspace (c : ascii) : bool :=
  let n := nat_of_ascii c in
  (n =? 32)%nat || ((9 <=? n)%nat && (n <=? 13)%nat).

(** [while (ss >> word) tokens.push_back(word)]: [word] is the token being
    read. *)
Fixpoint tokens_of (s : string) (word : string) : list string :=
  match s with
  | EmptyString => if bool_decide (word = "") then [] else [word]
  | String c s' =>
      if isspace c
      then (if bool_decide (word = "") then tokens_of s' ""
            else word :: tokens_of s' "")
      else tokens_of s' (word +:+ String c "")
  end.

Definition tokenize (line : string) : list string := tokens_of line "".

Definition digit_of (c : ascii) : option Z :=
  let n := nat_of_ascii c in
  if (48 <=? n)%nat && (n <=? 57)%nat then Some (Z.of_nat n - 48) else None.

(** The value of the longest prefix of decimal digits, and whether there
    was a digit. *)
Fixpoint digits (s : string) (acc : Z) (seen : bool) : Z * bool :=
  match s with
  | EmptyString => (acc, seen)
  | String c s' =>
      match digit_of c with
      | Some d => digits s' (10 * acc + d) true
      | None => (acc, seen)
      end
  end.

Fixpoint skip_spaces (s : string) : string :=
  match s with
  | String c s' => if isspace c then skip_spaces s' else s
  | EmptyString => s
  end.

(** [std::stoi]: leading white space, an optional sign, decimal digits up
    to the first other character; [std::invalid_argument] without a digit,
    [std::out_of_range] outside [int]. *)
Definition stoi (str : string) : parsed Z :=
  let s := skip_spaces str in
  let '(negative, s) :=
    match s with
    | String "-"%char s' => (true, s')
    | String "+"%char s' => (false, s')
    | _ => (false, s)
    end in
  let '(v, seen) := digits s 0 false in
  if negb seen then Throws "std::invalid_argument"
  else
    let v := if negative then - v else v in
    if bool_decide (- 2 ^ 31 ≤ v ≤ 2 ^ 31 - 1) then Parsed v
    else Throws "std::out_of_range".

(** [tokens[i]] *)
Definition at_index {A} (v : list A) (i : nat) : parsed A :=
  match v !! i with
  | Some x => Parsed x
  | None => OutOfRange i (length v)
  end.

#[global] Instance parsed_ret : MRet parsed := λ A r, Parsed r.

#[global] Instance parsed_bind : MBind parsed := λ A B f m,
  match m with
  | Parsed a => f a
  | AssertionFailed => AssertionFailed
  | OutOfRange i n => OutOfRange i n
  | Throws e => Throws e
  end.

Section parse.

(** From headers that are not among the sources: [skch::CommonFunc::split]
    (the fields of a string between occurrences of a delimiter),
    [wfmash::is_a_number], [std::stof] ([None] when it throws) and the
    constant [skch::fixed::percentage_identity]. *)
Context {float : Type}.
Context (split : string → ascii → list string).
Context (is_a_number : string → bool).
Context (stof : string → option float).
Context (percentage_identity : float).

Definition parseMashmapRow (mappingRecordLine : string)
    (currentRecord : MappingBoundaryRow float)
    : parsed (MappingBoundaryRow float) :=
  let tokens := tokenize mappingRecordLine in
  if negb (9 <=? length tokens)%nat then AssertionFailed
  else
    token12 ← at_index tokens 12;
    let mm_id_vec := split token12 ":"%char in
    id_field ←
      match last mm_id_vec with
      | Some x => Parsed x
      | None => OutOfRange 0 0
      end;
    mm_id ←
      if is_a_number id_field
      then match stof id_field with
           | Some x => Parsed x
           | None => Throws "std::invalid_argument"
           end
      else Parsed percentage_identity;
    token0 ← at_index tokens 0;
    token2 ← at_index tokens 2;
    qStart ← stoi token2;
    token3 ← at_index tokens 3;
    qEnd ← stoi token3;
    token4 ← at_index tokens 4;
    token5 ← at_index tokens 5;
    token7 ← at_index tokens 7;
    rStart ← stoi token7;
    token8 ← at_index tokens 8;
    rEnd ← stoi token8;
    Parsed
      {| qId := token0;
         refId := token5;
         qStartPos := qStart;
         qEndPos := qEnd;
         rStartPos := rStart;
         rEndPos := rEnd;
         strand := if bool_decide (token4 = "+") then FWD else REV;
         mashmap_estimated_identity := mm_id;
         rankMapping := rankMapping currentRecord |}.

End parse.

(** ** [doAlignment] *)

(** [align::Parameters] ([align/include/align_parameters.hpp], not among
    the sources): the fields the driver itself reads;
    [wflign_max_len_minor] is unsigned 64-bit, like the paddings it is
    assigned to.  The scoring parameters only travel to the kernel, which
    receives the whole record. *)
Record Parameters : Type := mkParameters {
  threads : Z;
  wflign_max_len_minor : Z;
  split : bool;
  sam_format : bool
}.

(** Modelled from the spec: the indexed FASTA reader (htslib's [faidx_t],
    an external library) is a store of named sequences with
    [seq_len(seq_name)] and [fetch(seq_name, start, end_exclusive)], the
    latter a buffer of exact length end - start (specification, section
    4.4).  An unknown name has length -1 and no buffer. *)
Definition faidx_seq_len (fai : gmap string string) (seq_name : string) : Z :=
  match fai !! seq_name with
  | Some s => Z.of_nat (String.length s)
  | None => -1
  end.

Definition faidx_fetch_seq64 (fai : gmap string string) (seq_name : string)
    (p_beg_i p_end_i : Z) : option string :=
  s ← fai !! seq_name;
  Some (String.substring (Z.to_nat p_beg_i) (Z.to_nat (p_end_i - p_beg_i)) s).

(** The two paddings and the four fetch positions of a record. *)
Record fetch_plan : Set := mkFetchPlan {
  head_padding : Z;
  tail_padding : Z;
  ref_beg : Z;
  ref_end : Z;
  query_beg : Z;
  query_end : Z
}.

(** The arguments of [wflign_affine_wavefront].  The target argument of the
    source is the pointer [ref_seq + head_padding] into the fetched buffer:
    here the buffer and the offset. *)
Record kernel_call {float : Type} : Type := mkKernelCall {
  k_query_name : string;
  k_query : string;
  k_query_total_length : Z;
  k_query_offset : Z;
  k_query_length : Z;
  k_query_is_rev : bool;
  k_target_name : string;
  k_target_buffer : string;
  k_target_pointer : Z;
  k_target_total_length : Z;
  k_target_offset : Z;
  k_target_length : Z;
  k_identity : float
}.

Arguments kernel_call float : clear implicits.

Section alignment.
Context {float : Type}.

(** [skch::CommonFunc::makeUpperCaseAndValidDNA] and [reverseComplement]
    (commonFunc.hpp is not among the sources), the rendering of
    [std::to_string], and the wavefront kernel, which appends its result to
    the output stream. *)
Context (makeUpperCaseAndValidDNA : string → string).
Context (reverseComplement : string → string).
Context (to_string : Z → string).
Context (wflign_affine_wavefront : Parameters → kernel_call float → string).

(** The paddings and the fetch positions, with the conversions of the
    mixed signed and unsigned arithmetic: [rStartPos], [rEndPos] and
    [ref_size] are [int64_t], [wflign_max_len_minor] and the paddings
    [uint64_t], the positions passed to the fetch [int64_t]. *)
Definition plan (param : Parameters) (ref_size : Z)
    (currentRecord : MappingBoundaryRow float) : fetch_plan :=
  let head_padding :=
    if bool_decide (wflign_max_len_minor param
                    ≤ to_u64 (rStartPos currentRecord))
    then wflign_max_len_minor param
    else to_u64 (rStartPos currentRecord) in
  let room := to_u64 (to_i64 (ref_size - rEndPos currentRecord)) in
  let tail_padding :=
    if bool_decide (wflign_max_len_minor param ≤ room)
    then wflign_max_len_minor param
    else room in
  mkFetchPlan head_padding tail_padding
    (to_i64 (to_u64 (to_u64 (rStartPos currentRecord) - head_padding)))
    (to_i64 (to_u64 (to_u64 (rEndPos currentRecord) + tail_padding)))
    (qStartPos currentRecord) (qEndPos currentRecord).

(** The call that [doAlignment] makes for a record, on the handles [tfaid]
    and [qfaid] of its thread; [None] when a fetch returns no buffer (the
    source then writes through a null pointer), when [queryLen] is
    negative ([new char[queryLen+1]] throws, or for -1 the copy of
    [queryLen] characters runs over the buffer) or when
    [assert(queryLen <= query_size)] fails. *)
Definition kernel_call_of (param : Parameters) (tfaid qfaid : gmap string string)
    (currentRecord : MappingBoundaryRow float) : option (kernel_call float) :=
  let ref_size := faidx_seq_len tfaid (refId currentRecord) in
  let pl := plan param ref_size currentRecord in
  ref_seq ← faidx_fetch_seq64 tfaid (refId currentRecord)
              (ref_beg pl) (ref_end pl);
  let ref_seq := makeUpperCaseAndValidDNA ref_seq in
  let refLen := to_i64 (rEndPos currentRecord - rStartPos currentRecord) in
  let query_size := faidx_seq_len qfaid (qId currentRecord) in
  query_seq ← faidx_fetch_seq64 qfaid (qId currentRecord)
                (query_beg pl) (query_end pl);
  let query_seq := makeUpperCaseAndValidDNA query_seq in
  let queryLen := to_i64 (qEndPos currentRecord - qStartPos currentRecord) in
  guard (0 ≤ queryLen);;
  let queryRegionStrand :=
    match strand currentRecord with
    | FWD => String.substring 0 (Z.to_nat queryLen) query_seq
    | REV => reverseComplement query_seq
    end in
  guard (queryLen ≤ query_size);;
  let query_name_suffix :=
    if split param && sam_format param
    then "_" +:+ to_string (rankMapping currentRecord) else "" in
  Some {| k_query_name := qId currentRecord +:+ query_name_suffix;
          k_query := queryRegionStrand;
          k_query_total_length := query_size;
          k_query_offset := qStartPos currentRecord;
          k_query_length := queryLen;
          k_query_is_rev :=
            bool_decide (strand currentRecord ≠ FWD);
          k_target_name := refId currentRecord;
          k_target_buffer := ref_seq;
          k_target_pointer := head_padding pl;
          k_target_total_length := ref_size;
          k_target_offset := rStartPos currentRecord;
          k_target_length := refLen;
          k_identity := mashmap_estimated_identity currentRecord |}.

(** The content of [output] after [doAlignment]. *)
Definition doAlignment (param : Parameters) (tfaid qfaid : gmap string string)
    (currentRecord : MappingBoundaryRow float) : option string :=
  wflign_affine_wavefront param
    <$> kernel_call_of param tfaid qfaid currentRecord.

End alignment.

(** ** The pipeline of [computeAlignments]

    One reader, [nthreads] workers and one writer, as a transition system
    whose steps are the operations on the shared objects ([seq_queue],
    [paf_queue], [reader_done], [working]); what a thread does on its own
    between two of them belongs to the step that ends with the later
    one.  A schedule is the sequence of the threads that take the steps. *)

Record seq_record_t {float : Type} : Type := mkSeqRecord {
  currentRecord : MappingBoundaryRow float;
  mappingRecordLine : string
}.

Arguments seq_record_t float : clear implicits.
Arguments mkSeqRecord {float}.

Inductive thread : Set := Reader | Writer | Worker (tid : nat).

Inductive reader_pc {float : Type} : Type :=
  | R_getline                          (* at [while (!eof)] *)
  | R_push (q : seq_record_t float)    (* at [seq_queue.push(q)] *)
  | R_finished.

Inductive worker_pc : Type :=
  | W_start                  (* at [is_working.store(true)] *)
  | W_try_pop                (* at [seq_queue.try_pop(rec)] *)
  | W_load_done              (* at [reader_done.load()], nothing popped *)
  | W_push (paf_rec : string)   (* at [paf_queue.push(paf_rec)] *)
  | W_store_false            (* at [is_working.store(false)] *)
  | W_finished.

Inductive writer_pc : Set :=
  | Wr_try_pop               (* at [paf_queue.try_pop(paf_lines)] *)
  | Wr_still_working         (* at [still_working(working)], nothing popped *)
  | Wr_finished.

Record pipeline {float : Type} : Type := mkPipeline {
  mappingListStream : list string;     (* the lines not read yet *)
  reader_record : MappingBoundaryRow float;
  seq_queue : list (seq_record_t float);
  paf_queue : list string;
  reader_done : bool;
  working : list bool;
  outstrm : list string;               (* what the writer has written *)
  reader_at : @reader_pc float;
  workers_at : list worker_pc;
  writer_at : writer_pc;
  terminated : bool                    (* an uncaught failure ended the process *)
}.

Arguments pipeline float : clear implicits.
Arguments mkPipeline {float}.

(** [2 << 16], the capacity of the queues. *)
Definition queue_capacity : Z := 131072.

Section pipeline_steps.
Context {float : Type}.

(** The parser and the aligner, as instantiated by [computeAlignments]:
    [parse line record] is [parseMashmapRow], [align record tid] the
    content of [output] after [doAlignment] ([None] if it fails). *)
Context (parse : string → MappingBoundaryRow float
                 → parsed (MappingBoundaryRow float)).
Context (align : MappingBoundaryRow float → nat → option string).

Definition set_reader (input : list string) (rec : MappingBoundaryRow float)
    (sq : list (seq_record_t float)) (done : bool) (pc : reader_pc)
    (st : pipeline float) : pipeline float :=
  mkPipeline input rec sq (paf_queue st) done (working st) (outstrm st) pc
    (workers_at st) (writer_at st) (terminated st).

Definition set_worker (tid : nat) (sq : list (seq_record_t float))
    (pq : list string) (w : list bool) (pc : worker_pc) (st : pipeline float)
    : pipeline float :=
  mkPipeline (mappingListStream st) (reader_record st) sq pq (reader_done st)
    w (outstrm st) (reader_at st) (<[tid := pc]> (workers_at st))
    (writer_at st) (terminated st).

Definition set_writer (pq : list string) (out : list string) (pc : writer_pc)
    (st : pipeline float) : pipeline float :=
  mkPipeline (mappingListStream st) (reader_record st) (seq_queue st) pq
    (reader_done st) (working st) out (reader_at st) (workers_at st) pc
    (terminated st).

Definition terminate (st : pipeline float) : pipeline float :=
  mkPipeline (mappingListStream st) (reader_record st) (seq_queue st)
    (paf_queue st) (reader_done st) (working st) (outstrm st) (reader_at st)
    (workers_at st) (writer_at st) true.

(** One step of the reader; [None] when it cannot move (finished, or the
    queue is full and [push] spins). *)
Definition reader_step (st : pipeline float) : option (pipeline float) :=
  match reader_at st with
  | R_getline =>
      match mappingListStream st with
      | [] =>
          Some (set_reader [] (reader_record st) (seq_queue st) true
                  R_finished st)
      | line :: rest =>
          if bool_decide (line = "") then
            Some (set_reader rest (reader_record st) (seq_queue st)
                    (reader_done st) R_getline st)
          else
            match parse line (reader_record st) with
            | Parsed r =>
                Some (set_reader rest r (seq_queue st) (reader_done st)
                        (R_push (mkSeqRecord r line)) st)
            | _ => Some (terminate st)
            end
      end
  | R_push q =>
      if bool_decide (Z.of_nat (length (seq_queue st)) < queue_capacity) then
        Some (set_reader (mappingListStream st) (reader_record st)
                (seq_queue st ++ [q]) (reader_done st) R_getline st)
      else None
  | R_finished => None
  end.

Definition worker_step (tid : nat) (st : pipeline float)
    : option (pipeline float) :=
  pc ← workers_at st !! tid;
  match pc with
  | W_start =>
      Some (set_worker tid (seq_queue st) (paf_queue st)
              (<[tid := true]> (working st)) W_try_pop st)
  | W_try_pop =>
      match seq_queue st with
      | [] =>
          Some (set_worker tid [] (paf_queue st) (working st) W_load_done st)
      | rec :: rest =>
          match align (currentRecord rec) tid with
          | Some paf_rec =>
              Some (set_worker tid rest (paf_queue st) (working st)
                      (if bool_decide (paf_rec = "") then W_try_pop
                       else W_push paf_rec) st)
          | None => Some (terminate st)
          end
      end
  | W_load_done =>
      Some (set_worker tid (seq_queue st) (paf_queue st) (working st)
              (if reader_done st then W_store_false else W_try_pop) st)
  | W_push paf_rec =>
      if bool_decide (Z.of_nat (length (paf_queue st)) < queue_capacity) then
        Some (set_worker tid (seq_queue st) (paf_queue st ++ [paf_rec])
                (working st) W_try_pop st)
      else None
  | W_store_false =>
      Some (set_worker tid (seq_queue st) (paf_queue st)
              (<[tid := false]> (working st)) W_finished st)
  | W_finished => None
  end.

(** [still_working]: some flag is set. *)
Definition still_working (working : list bool) : bool :=
  foldl orb false working.

Definition writer_step (st : pipeline float) : option (pipeline float) :=
  match writer_at st with
  | Wr_try_pop =>
      match paf_queue st with
      | [] => Some (set_writer [] (outstrm st) Wr_still_working st)
      | paf_lines :: rest =>
          Some (set_writer rest (outstrm st ++ [paf_lines]) Wr_try_pop st)
      end
  | Wr_still_working =>
      Some (set_writer (paf_queue st) (outstrm st)
              (if still_working (working st) then Wr_try_pop else Wr_finished)
              st)
  | Wr_finished => None
  end.

Definition step (t : thread) (st : pipeline float) : option (pipeline float) :=
  if terminated st then None
  else match t with
       | Reader => reader_step st
       | Writer => writer_step st
       | Worker tid => worker_step tid st
       end.

Fixpoint run (schedule : list thread) (st : pipeline float)
    : option (pipeline float) :=
  match schedule with
  | [] => Some st
  | t :: schedule' => st' ← step t st; run schedule' st'
  end.

(** The state in which the threads are launched, after the first pass
    over the mapping file (which parses every line once, for the progress
    meter): the flags are stored [true] before. *)
Definition launch (nthreads : nat) (lines : list string)
    (record : MappingBoundaryRow float) : pipeline float :=
  mkPipeline lines record [] [] false (replicate nthreads true) []
    R_getline (replicate nthreads W_start) Wr_try_pop false.

(** All threads have been joined: [computeAlignments] returns. *)
Definition joined (st : pipeline float) : bool :=
  match reader_at st with R_finished => true | _ => false end
  && match writer_at st with Wr_finished => true | _ => false end
  && forallb (λ pc, match pc with W_finished => true | _ => false end)
       (workers_at st)
  && negb (terminated st).

(** The results that the lines of the mapping file have: one for each
    line that is not empty, parses and aligns to a string that is not
    empty. *)
Fixpoint expected_output (lines : list string)
    (record : MappingBoundaryRow float) (tid : nat) : list string :=
  match lines with
  | [] => []
  | line :: rest =>
      if bool_decide (line = "") then expected_output rest record tid
      else match parse line record with
           | Parsed r =>
               match align r tid with
               | Some out =>
                   if bool_decide (out = "") then expected_output rest r tid
                   else out :: expected_output rest r tid
               | None => expected_output rest r tid
               end
           | _ => []
           end
  end.

End pipeline_steps.

(** ** [computeAlignments]: the first loop and the counter

    Before the threads are launched, [computeAlignments] reads the mapping
    file once: every line that is not empty is parsed and the length of its
    query interval is added to [total_alignment_length] (a [uint64_t]).
    The reader thread captures the same variable by reference and adds the
    same lengths again while it fills [seq_queue]. *)

Section totals.
Context {float : Type}.
Context (parse : string → MappingBoundaryRow float
                 → parsed (MappingBoundaryRow float)).
Context (align : MappingBoundaryRow float → nat → option string).

(** [total_alignment_length += currentRecord.qEndPos - currentRecord.qStartPos] *)
Definition add_length (total_alignment_length : Z)
    (currentRecord : MappingBoundaryRow float) : Z :=
  to_u64 (total_alignment_length
          + to_i64 (qEndPos currentRecord - qStartPos currentRecord)).

Fixpoint count_pass (lines : list string)
    (currentRecord : MappingBoundaryRow float) (total_alignment_length : Z)
    : parsed Z :=
  match lines with
  | [] => Parsed total_alignment_length
  | mappingRecordLine :: rest =>
      if bool_decide (mappingRecordLine = "")
      then count_pass rest currentRecord total_alignment_length
      else
        r ← parse mappingRecordLine currentRecord;
        count_pass rest r (add_length total_alignment_length r)
  end.

(** What a step of the reader does to [total_alignment_length]: the step
    that parses a line adds the length of its query interval. *)
Definition reader_counts (st : pipeline float) (total_alignment_length : Z)
    : Z :=
  match reader_at st, mappingListStream st with
  | R_getline, line :: _ =>
      if bool_decide (line = "") then total_alignment_length
      else match parse line (reader_record st) with
           | Parsed r => add_length total_alignment_length r
           | _ => total_alignment_length
           end
  | _, _ => total_alignment_length
  end.

(** A step of the pipeline together with the counter. *)
Definition step_total (t : thread) (c : pipeline float * Z)
    : option (pipeline float * Z) :=
  st' ← step parse align t c.1;
  Some (st', match t with
             | Reader => reader_counts c.1 c.2
             | _ => c.2
             end).

Fixpoint run_total (schedule : list thread) (c : pipeline float * Z)
    : option (pipeline float * Z) :=
  match schedule with
  | [] => Some c
  | t :: schedule' => c' ← step_total t c; run_total schedule' c'
  end.

(** What [computeAlignments] has done when it returns. *)
Record summary : Type := mkSummary {
  written : list string;          (* the content added to the output file *)
  total_seqs : Z;                 (* "count of mapped reads" *)
  total_aligned_bp : Z            (* "total aligned bp" *)
}.

(** [computeAlignments] with [nthreads] workers under a schedule of the
    threads: the first loop, the threads until all are joined, the final
    message.  [None] when the schedule does not bring every thread to its
    end. *)
Definition computeAlignments (nthreads : nat) (lines : list string)
    (currentRecord : MappingBoundaryRow float) (schedule : list thread)
    : parsed (option summary) :=
  total_alignment_length ← count_pass lines currentRecord 0;
  Parsed
    (match run_total schedule
             (launch nthreads lines currentRecord, total_alignment_length) with
     | Some (st, total) =>
         if joined st then Some (mkSummary (outstrm st) 0 total) else None
     | None => None
     end).

(** What the counter will be when the reader has ended: the pass over the
    lines that the reader has not read yet, from the present value of the
    counter, ends with [F]. *)
Definition counter_inv (F : Z) (c : pipeline float * Z) : Prop :=
  0 ≤ c.2 < two64 ∧
  count_pass (mappingListStream c.1) (reader_record c.1) c.2 = Parsed F.

(** ** What the pipeline holds *)

(** The result that aligning a record gives to the writer: nothing when
    the output of [doAlignment] is empty. *)
Definition result_of (r : MappingBoundaryRow float) (tid : nat)
    : list string :=
  match align r tid with
  | Some out => if bool_decide (out = "") then [] else [out]
  | None => []
  end.

(** The result that a worker is about to push. *)
Definition in_flight (pc : worker_pc) : list string :=
  match pc with
  | W_push paf_rec => [paf_rec]
  | _ => []
  end.

(** The results of the record that the reader is about to push. *)
Definition held (pc : @reader_pc float) : list string :=
  match pc with
  | R_push q => result_of (currentRecord q) 0
  | _ => []
  end.

(** The results of the records of [seq_queue]. *)
Definition queued (sq : list (seq_record_t float)) : list string :=
  concat ((λ q, result_of (currentRecord q) 0) <$> sq).

(** Every result that the mapping file calls for, by the place where the
    pipeline holds it: written, in [paf_queue], with a worker, still a
    record in [seq_queue], with the reader, or not read yet. *)
Definition accounted (st : pipeline float) : list string :=
  outstrm st ++ paf_queue st ++ concat (in_flight <$> workers_at st)
    ++ queued (seq_queue st) ++ held (reader_at st)
    ++ expected_output parse align (mappingListStream st) (reader_record st) 0.

End totals.

(** ** Lines and tokens *)

(** A string without white space, a string of white space only. *)
Fixpoint no_space (t : string) : Prop :=
  match t with
  | EmptyString => True
  | String c t' => isspace c = false ∧ no_space t'
  end.

Fixpoint all_space (t : string) : Prop :=
  match t with
  | EmptyString => True
  | String c t' => isspace c = true ∧ all_space t'
  end.

(** The line made of the fields [toks] with [sep] between them. *)
Fixpoint join (sep : string) (toks : list string) : string :=
  match toks with
  | [] => ""
  | [t] => t
  | t :: toks' => t +:+ sep +:+ join sep toks'
  end.

(** ** The order in which the threads end *)

Section order.
Context {float : Type}.

(** What the flags say of the threads: a worker whose flag is down has
    ended; a worker that has left its loop has seen [reader_done]; the
    reader sets [reader_done] when it has read the whole file and ends;
    and the writer ends only when every worker has. *)
Record order_inv (st : pipeline float) : Prop := {
  ord_length : length (working st) = length (workers_at st);
  ord_flag : ∀ tid,
    working st !! tid = Some false → workers_at st !! tid = Some W_finished;
  ord_worker : ∀ tid pc,
    workers_at st !! tid = Some pc →
    pc = W_store_false ∨ pc = W_finished → reader_done st = true;
  ord_done : reader_done st = true → reader_at st = R_finished;
  ord_reader :
    reader_at st = R_finished →
    mappingListStream st = [] ∧ reader_done st = true;
  ord_writer :
    writer_at st = Wr_finished →
    Forall (λ pc, pc = W_finished) (workers_at st)
}.

End order.

End align.

(** * Example inputs *)

Module examples.
Import skch.

(** Parameters with segment length 5, sketch size 1, k = 3 and a frequency
    percentage [pct]; no index file. *)
Definition params (pct : Q) : Parameters :=
  mkParameters "" false false ["ref.fa"] 5 1 3 4 1 pct.

Definition minmer (h s e id : Z) : MinmerInfo := mkMinmerInfo h s e id 0.

(** One contig; hash 11 occupies two separate windows, the hashes 12, 13
    and 14 one window each. *)
Definition four_hashes : Sketch :=
  accumulate (Sketch_new (params (50 # 1)) [] [])
    [[minmer 11 0 5 0; minmer 12 1 6 0; minmer 13 2 7 0; minmer 14 3 8 0;
      minmer 11 10 15 0]].

(** One contig; the windows [0,5) and [5,6) of hash 11 touch, the window
    [7,9) does not. *)
Definition touching_windows : Sketch :=
  accumulate (Sketch_new (params (50 # 1)) [] [])
    [[minmer 11 0 5 0; minmer 11 5 6 0; minmer 11 7 9 0]].

Definition touching_points : list IntervalPoint :=
  [mkIntervalPoint 0 11 0 OPEN; mkIntervalPoint 6 11 0 CLOSE;
   mkIntervalPoint 7 11 0 OPEN; mkIntervalPoint 9 11 0 CLOSE].

Definition one_window : Sketch :=
  accumulate (Sketch_new (params (50 # 1)) [] []) [[minmer 11 0 5 0]].

End examples.

Module align_examples.
Import align.

(** Stand-ins for the helpers of the headers that are not among the
    sources, with the identity estimate as an exact rational. *)

(** The fields of [s] between occurrences of [delim], as repeated
    [std::getline] yields them; [field] is the one being read. *)
Fixpoint split_on (s : string) (delim : ascii) (field : string) : list string :=
  match s with
  | EmptyString => if bool_decide (field = "") then [] else [field]
  | String c s' =>
      if bool_decide (c = delim) then field :: split_on s' delim ""
      else split_on s' delim (field +:+ String c "")
  end.

Definition split (s : string) (delim : ascii) : list string :=
  split_on s delim "".

Fixpoint count_dots_and_check (s : string) : option nat :=
  match s with
  | EmptyString => Some O
  | String c s' =>
      if bool_decide (c = "."%char) then S <$> count_dots_and_check s'
      else match digit_of c with
           | Some _ => count_dots_and_check s'
           | None => None
           end
  end.

(** Digits with at most one dot. *)
Definition is_a_number (s : string) : bool :=
  negb (bool_decide (s = ""))
  && match count_dots_and_check s with
     | Some n => (n <? 2)%nat
     | None => false
     end.

(** The value of a decimal numeral [int.frac]. *)
Fixpoint decimal (s : string) (num : Z) (den : positive) (after_dot : bool)
    : option Q :=
  match s with
  | EmptyString => Some (num # den)
  | String c s' =>
      if bool_decide (c = "."%char) then decimal s' num den true
      else match digit_of c with
           | Some d =>
               decimal s' (10 * num + d)
                 (if after_dot then 10 * den else den)%positive after_dot
           | None => Some (num # den)
           end
  end.

Definition stof (s : string) : option Q := decimal s 0 1 false.

Definition percentage_identity : Q := 85 # 1.

Definition parse (line : string) (record : MappingBoundaryRow Q)
    : parsed (MappingBoundaryRow Q) :=
  parseMashmapRow split is_a_number stof percentage_identity line record.

(** The mapping line of scenario S4, and the line cut after its ninth
    token. *)
Definition s4_line : string :=
  "q0 10000 0 100 + r0 2000 50 150 60 100 80 id:f:95.0".

Definition nine_tokens : string := "q0 10000 0 100 + r0 2000 50 150".

(** The same line with the twelve mandatory PAF columns and no tag. *)
Definition twelve_tokens : string :=
  "q0 10000 0 100 + r0 2000 50 150 60 100 80".

Definition blank_record : MappingBoundaryRow Q :=
  mkMappingBoundaryRow Q "" "" 0 0 0 0 FWD (0 # 1) 0.

Definition s4_record : MappingBoundaryRow Q :=
  mkMappingBoundaryRow Q "q0" "r0" 0 100 50 150 FWD (950 # 10) 0.

Fixpoint bases (n : nat) : string :=
  match n with
  | O => ""
  | S n' => String "A"%char (bases n')
  end.

(** A reference [r0] of 2000 bases and a query [q0] of 10000 bases. *)
Definition targets : gmap string string := {[ "r0" := bases 2000 ]}.
Definition queries : gmap string string := {[ "q0" := bases (100 * 100) ]}.

Definition params : Parameters := mkParameters 1 512 false false.

(** A kernel with a fixed result that is not empty. *)
Definition kernel (p : Parameters) (call : kernel_call Q) : string :=
  "aligned\n".

Definition do_alignment (record : MappingBoundaryRow Q) (tid : nat)
    : option string :=
  doAlignment (λ s, s) (λ s, s) (λ _, "") kernel params targets queries record.

(** The schedule on which the only worker misses the only record: it
    finds [seq_queue] empty, then the reader pushes the record and stores
    [reader_done], then the worker loads [reader_done]. *)
Definition losing_schedule : list thread :=
  [Worker 0; Worker 0; Reader; Reader; Reader; Worker 0; Worker 0;
   Writer; Writer].

End align_examples.
Module padding_examples.
Import align.


End padding_examples.

Module pipeline_examples.
Import align.

(** The schedule on which the writer misses the only result: it finds
    [paf_queue] empty, then the reader and the worker run to their ends,
    then the writer looks at the flags. *)
Definition late_writer : list thread :=
  [Writer; Reader; Reader; Reader; Worker 0; Worker 0; Worker 0; Worker 0;
   Worker 0; Worker 0; Writer].

(** The schedule on which the reader runs first, then the worker, then
    the writer. *)
Definition in_turn : list thread :=
  [Reader; Reader; Reader; Worker 0; Worker 0; Worker 0; Worker 0;
   Worker 0; Worker 0; Writer; Writer; Writer].

(** An aligner that gives a result for every record. *)
Definition always_aligns (record : MappingBoundaryRow Q) (tid : nat)
    : option string :=
  Some "aligned\n".

End pipeline_examples.


(** * Properties *)

(** ** Machine integers and vectors *)

Lemma to_u64_id z : 0 ≤ z < two64 → to_u64 z = z.
Proof. intros H. unfold to_u64. by apply Z.mod_small. Qed.

Lemma to_i64_id z : - two63 ≤ z < two63 → to_i64 z = z.
Proof.
  intros H. unfold to_i64. rewrite Z.mod_small; unfold two64, two63 in *; lia.
Qed.

Lemma back_snoc {A} (l : list A) x : back (l ++ [x]) = Some x.
Proof. unfold back. apply last_snoc. Qed.

Lemma back_None {A} (l : list A) : back l = None → l = [].
Proof. unfold back. apply last_None. Qed.

Lemma back_Some_snoc {A} (l : list A) x :
  back l = Some x → ∃ l0, l = l0 ++ [x].
Proof.
  unfold back. intros H. destruct (last_Some l x) as [H1 _].
  destruct (H1 H) as [l0 ->]. by exists l0.
Qed.

Lemma update_back_snoc {A} (f : A → A) (l : list A) x :
  update_back f (l ++ [x]) = l ++ [f x].
Proof.
  unfold update_back. rewrite length_app. simpl.
  replace (Nat.pred (length l + 1)) with (length l + 0)%nat by lia.
  by rewrite alter_app_r.
Qed.


(** ** Index construction: parity and run merging *)

Section build_invariants.
Import skch.

Lemma even_double k : Nat.even (2 * k) = true.
Proof. apply Nat.even_spec. by exists k. Qed.

Lemma even_double_S k : Nat.even (2 * k + 1) = false.
Proof.
  destruct (Nat.even (2 * k + 1)) eqn:E; [|done].
  apply Nat.even_spec in E as [j Hj]. lia.
Qed.

Lemma side_at_even k : side_at (2 * k) = OPEN.
Proof. unfold side_at. by rewrite even_double. Qed.

Lemma side_at_odd k : side_at (2 * k + 1) = CLOSE.
Proof. unfold side_at. by rewrite even_double_S. Qed.

Lemma points_inv_nil h : points_inv h [].
Proof.
  split.
  - by exists 0%nat.
  - intros i p Hi. by rewrite lookup_nil in Hi.
  - intros p Hp. by apply elem_of_nil in Hp.
  - intros i c o Hc. by rewrite lookup_nil in Hc.
Qed.

Lemma points_inv_append h l o c :
  points_inv h l →
  ip_side o = OPEN → ip_side c = CLOSE → ip_hash o = h → ip_hash c = h →
  (∀ b, back l = Some b → pos b ≠ pos o) →
  points_inv h (l ++ [o; c]).
Proof.
  intros [[k Hk] Hside Hhash Hgap] Ho Hc Hho Hhc Hback. split.
  - exists (k + 1)%nat. rewrite length_app. simpl. lia.
  - intros i p Hi. apply lookup_app_Some in Hi as [Hi | [Hge Hi]].
    + by apply Hside.
    + destruct (i - length l)%nat as [|[|j]] eqn:Ej; simpl in Hi; [| |done].
      * injection Hi as <-. replace i with (2 * k)%nat by lia.
        by rewrite side_at_even.
      * injection Hi as <-. replace i with (2 * k + 1)%nat by lia.
        by rewrite side_at_odd.
  - intros p [Hp | Hp]%elem_of_app; [by apply Hhash|].
    apply elem_of_cons in Hp as [-> | Hp]; [done|].
    apply elem_of_cons in Hp as [-> | Hp]; [done|].
    by apply elem_of_nil in Hp.
  - intros i c0 o0 Hc0 Ho0.
    apply lookup_app_Some in Ho0 as [Ho0 | [Hge Ho0]].
    + apply lookup_app_Some in Hc0 as [Hc0 | [Hge' _]].
      * by apply (Hgap i).
      * apply lookup_lt_Some in Ho0. lia.
    + destruct (2 * i + 2 - length l)%nat as [|[|j]] eqn:Ej; simpl in Ho0;
        [| |done].
      * injection Ho0 as <-.
        apply lookup_app_Some in Hc0 as [Hc0 | [Hge' _]]; [|lia].
        apply Hback. unfold back. rewrite last_lookup.
        by replace (Nat.pred (length l)) with (2 * i + 1)%nat by lia.
      * lia.
Qed.

Lemma points_inv_update_back h l p :
  points_inv h l → points_inv h (update_back (set_pos p) l).
Proof.
  intros [[k Hk] Hside Hhash Hgap]. unfold update_back.
  set (n := Nat.pred (length l)).
  assert (Hlk : ∀ j q, alter (set_pos p) n l !! j = Some q →
                  ∃ q0, l !! j = Some q0 ∧ ip_side q = ip_side q0 ∧
                        ip_hash q = ip_hash q0 ∧ (j ≠ n → q = q0)).
  { intros j q Hj. destruct (decide (n = j)) as [<- | Hne].
    - rewrite list_lookup_alter_eq in Hj.
      destruct (l !! n) as [q0|] eqn:E; [|done]. simpl in Hj.
      injection Hj as <-. exists q0. by repeat split.
    - rewrite list_lookup_alter_ne in Hj by done. exists q. by repeat split. }
  split.
  - exists k. by rewrite length_alter.
  - intros i q Hi. destruct (Hlk _ _ Hi) as (q0 & Hq0 & -> & _ & _).
    by apply Hside.
  - intros q [j Hj]%list_elem_of_lookup.
    destruct (Hlk _ _ Hj) as (q0 & Hq0 & _ & -> & _).
    apply Hhash. apply list_elem_of_lookup. by exists j.
  - intros i c o Hc Ho.
    destruct (Hlk _ _ Hc) as (c0 & Hc0 & _ & _ & Hceq).
    destruct (Hlk _ _ Ho) as (o0 & Ho0 & _ & _ & Hoeq).
    apply lookup_lt_Some in Ho0 as Hlt.
    rewrite Hceq, Hoeq by (subst n; lia). by apply (Hgap i).
Qed.

Lemma handleMinmer_lookup_ne s mi h :
  h ≠ hash mi →
  minmerPosLookupIndex (handleMinmer s mi) !! h = minmerPosLookupIndex s !! h.
Proof. intros Hne. unfold handleMinmer. simpl. by rewrite lookup_insert_ne. Qed.

Lemma handleMinmer_inv s mi :
  index_inv (minmerPosLookupIndex s) →
  index_inv (minmerPosLookupIndex (handleMinmer s mi)).
Proof.
  intros Hinv h l Hl. destruct (decide (h = hash mi)) as [-> | Hne].
  2: { rewrite handleMinmer_lookup_ne in Hl by done. by apply Hinv. }
  unfold handleMinmer in Hl. simpl in Hl. rewrite lookup_insert_eq in Hl.
  injection Hl as <-.
  assert (HL : points_inv (hash mi)
                 (positions_of (minmerPosLookupIndex s) (hash mi))).
  { unfold positions_of.
    destruct (minmerPosLookupIndex s !! hash mi) as [l0|] eqn:E; simpl.
    - by apply Hinv.
    - apply points_inv_nil. }
  destruct (back _) as [b|] eqn:Eb.
  - destruct (bool_decide (ip_hash b ≠ hash mi) || bool_decide (pos b ≠ wpos mi))
      eqn:Ec.
    + apply points_inv_append; try done.
      intros b' Hb'. simpl. rewrite Eb in Hb'. injection Hb' as <-.
      apply orb_true_iff in Ec as [Ec | Ec]; apply bool_decide_eq_true in Ec;
        [|done].
      exfalso. apply Ec. apply (inv_hash _ _ HL).
      apply back_Some_snoc in Eb as [l0 ->].
      apply elem_of_app. right. by apply list_elem_of_singleton.
    + by apply points_inv_update_back.
  - apply back_None in Eb. rewrite Eb. simpl.
    apply (points_inv_append _ []); try done. apply points_inv_nil.
Qed.

Lemma buildHandleThreadOutput_inv s out :
  index_inv (minmerPosLookupIndex s) →
  index_inv (minmerPosLookupIndex (buildHandleThreadOutput s out)).
Proof.
  unfold buildHandleThreadOutput. simpl. revert s.
  induction out as [|mi out IH]; intros s Hs; simpl; [done|].
  apply IH. by apply handleMinmer_inv.
Qed.

Lemma accumulate_inv s outputs :
  index_inv (minmerPosLookupIndex s) →
  index_inv (minmerPosLookupIndex (accumulate s outputs)).
Proof.
  unfold accumulate. revert s.
  induction outputs as [|out outputs IH]; intros s Hs; simpl; [done|].
  apply IH. by apply buildHandleThreadOutput_inv.
Qed.

Lemma Sketch_new_inv p md sbf :
  index_inv (minmerPosLookupIndex (Sketch_new p md sbf)).
Proof. intros h l Hl. simpl in Hl. by rewrite lookup_empty in Hl. Qed.

Lemma built_index_inv p md sbf outputs :
  index_inv (minmerPosLookupIndex (accumulate (Sketch_new p md sbf) outputs)).
Proof. apply accumulate_inv, Sketch_new_inv. Qed.

End build_invariants.

Section build_claims.
Import skch.

(** C9: after construction (any sequence of thread outputs handled by
    [buildHandleThreadOutput], starting from the freshly constructed
    sketch), for every hash [H] present in the positions map the sequence
    [positions[H]] has even length and its points alternate OPEN, CLOSE,
    OPEN, CLOSE, ..., starting with OPEN. *)
Theorem built_positions_alternate p md sbf (outputs : list (list MinmerInfo))
    (H : Z) (l : list IntervalPoint) :
  minmerPosLookupIndex (accumulate (Sketch_new p md sbf) outputs) !! H
    = Some l →
  Nat.Even (length l) ∧
  ∀ (i : nat) (pt : IntervalPoint),
    l !! i = Some pt → ip_side pt = if Nat.even i then OPEN else CLOSE.
Proof.
  intros Hl. destruct (built_index_inv p md sbf outputs H l Hl) as [He Hs _ _].
  split; [done|]. intros i pt Hi. by apply Hs.
Qed.

Lemma built_positions_alternate_witness :
  minmerPosLookupIndex examples.touching_windows !! 11
    = Some examples.touching_points ∧
  (Nat.Even (length examples.touching_points) ∧
   ∀ (i : nat) (pt : IntervalPoint),
     examples.touching_points !! i = Some pt →
     ip_side pt = if Nat.even i then OPEN else CLOSE).
Proof.
  split; [vm_compute; reflexivity|].
  apply (built_positions_alternate (examples.params (50 # 1)) [] []
           [[examples.minmer 11 0 5 0; examples.minmer 11 5 6 0;
             examples.minmer 11 7 9 0]] 11 examples.touching_points).
  vm_compute; reflexivity.
Defined.

(** C4: when a [MinmerInfo] arrives whose hash list ends with a CLOSE point
    of the same hash and sequence at the position of its window start, that
    point's position is replaced in place by the window end and nothing is
    appended; and after construction no CLOSE of [positions[H]] is followed
    by an OPEN of the same sequence at the same position. *)
Theorem run_merge :
  (∀ (s : Sketch) (mi : MinmerInfo) (l0 : list IntervalPoint)
     (b : IntervalPoint),
     minmerPosLookupIndex s !! hash mi = Some (l0 ++ [b]) →
     ip_side b = CLOSE → ip_hash b = hash mi → ip_seqId b = seqId mi →
     pos b = wpos mi →
     minmerPosLookupIndex (handleMinmer s mi)
       = <[hash mi := l0 ++ [set_pos (wpos_end mi) b]]>
           (minmerPosLookupIndex s)) ∧
  (∀ p md sbf (outputs : list (list MinmerInfo)) (H : Z)
     (l : list IntervalPoint) (i : nat) (c o : IntervalPoint),
     minmerPosLookupIndex (accumulate (Sketch_new p md sbf) outputs) !! H
       = Some l →
     l !! (2 * i + 1)%nat = Some c → l !! (2 * i + 2)%nat = Some o →
     ip_seqId c = ip_seqId o →
     pos c ≠ pos o).
Proof.
  split.
  - intros s mi l0 b Hl _ Hh _ Hp. unfold handleMinmer, positions_of. simpl.
    rewrite Hl. simpl. rewrite back_snoc.
    rewrite (bool_decide_eq_false_2 (ip_hash b ≠ hash mi)) by tauto.
    rewrite (bool_decide_eq_false_2 (pos b ≠ wpos mi)) by tauto.
    simpl. by rewrite update_back_snoc.
  - intros p md sbf outputs H l i c o Hl Hc Ho _.
    destruct (built_index_inv p md sbf outputs H l Hl) as [_ _ _ Hg].
    by apply (Hg i).
Qed.

Lemma run_merge_witness :
  (minmerPosLookupIndex examples.one_window !! 11
     = Some ([mkIntervalPoint 0 11 0 OPEN] ++ [mkIntervalPoint 5 11 0 CLOSE]) ∧
   minmerPosLookupIndex
       (handleMinmer examples.one_window (examples.minmer 11 5 6 0))
     = <[11 := [mkIntervalPoint 0 11 0 OPEN] ++ [mkIntervalPoint 6 11 0 CLOSE]]>
         (minmerPosLookupIndex examples.one_window)) ∧
  (minmerPosLookupIndex examples.touching_windows !! 11
     = Some examples.touching_points ∧
   (6 : Z) ≠ 7).
Proof.
  destruct run_merge as [Hstep Hbuilt]. split; (split; [vm_compute; reflexivity|]).
  - apply (Hstep examples.one_window (examples.minmer 11 5 6 0)
             [mkIntervalPoint 0 11 0 OPEN] (mkIntervalPoint 5 11 0 CLOSE));
      vm_compute; reflexivity.
  - apply (Hbuilt (examples.params (50 # 1)) [] []
             [[examples.minmer 11 0 5 0; examples.minmer 11 5 6 0;
               examples.minmer 11 7 9 0]] 11 examples.touching_points
             0%nat (mkIntervalPoint 6 11 0 CLOSE) (mkIntervalPoint 7 11 0 OPEN));
      vm_compute; reflexivity.
Defined.

End build_claims.

(** ** The frequency histogram *)

Section histogram.
Import skch.

Lemma count_ge_snoc c ks k :
  count_ge c (ks ++ [k]) = count_ge c ks + (if bool_decide (c ≤ k) then 1 else 0).
Proof.
  unfold count_ge. rewrite filter_app, length_app, filter_cons, filter_nil.
  case_bool_decide; case_decide; simpl; lia.
Qed.

Lemma count_ge_nonneg c ks : 0 ≤ count_ge c ks.
Proof. unfold count_ge. lia. Qed.

Lemma hist_incr_keys k h k' :
  k' ∈ (hist_incr k h).*1 ↔ k' = k ∨ k' ∈ h.*1.
Proof.
  induction h as [|[k0 n] h IH]; simpl.
  - rewrite list_elem_of_singleton, elem_of_nil. tauto.
  - destruct (Z.ltb_spec k k0); [simpl; by rewrite elem_of_cons|].
    destruct (Z.eqb_spec k k0) as [-> | Hne]; simpl.
    + rewrite elem_of_cons. tauto.
    + rewrite !elem_of_cons, IH. tauto.
Qed.

Lemma hist_incr_sorted k h :
  StronglySorted Z.lt (h.*1) → StronglySorted Z.lt ((hist_incr k h).*1).
Proof.
  induction h as [|[k0 n] h IH]; simpl; intros Hs.
  - repeat constructor.
  - apply StronglySorted_cons in Hs as [Hall Hs].
    destruct (Z.ltb_spec k k0).
    + simpl. apply StronglySorted_cons. split.
      * constructor; [done|]. eapply Forall_impl; [exact Hall|].
        simpl. intros; lia.
      * by apply StronglySorted_cons.
    + destruct (Z.eqb_spec k k0); simpl; apply StronglySorted_cons.
      * done.
      * split; [|by apply IH]. apply Forall_forall. intros x Hx.
        apply hist_incr_keys in Hx as [-> | Hx]; [lia|].
        rewrite Forall_forall in Hall. by apply Hall.
Qed.

Lemma hist_incr_cumulative c k h :
  Forall (λ e, 0 ≤ e.2 ∧ e.2 + 1 < two64) h →
  cumulative c (hist_incr k h)
  = cumulative c h + (if bool_decide (c ≤ k) then 1 else 0).
Proof.
  induction h as [|[k0 n] h IH]; simpl; intros Hb.
  - lia.
  - apply Forall_cons in Hb as [[Hn0 Hn1] Hb]. simpl in *.
    destruct (Z.ltb_spec k k0); [simpl; lia|].
    destruct (Z.eqb_spec k k0); simpl.
    + subst k0. rewrite to_u64_id by lia. repeat case_bool_decide; lia.
    + rewrite IH by done. lia.
Qed.

Lemma hist_incr_total k h :
  Forall (λ e, 0 ≤ e.2 ∧ e.2 + 1 < two64) h →
  hist_total (hist_incr k h) = hist_total h + 1.
Proof.
  induction h as [|[k0 n] h IH]; simpl; intros Hb.
  - lia.
  - apply Forall_cons in Hb as [[Hn0 Hn1] Hb]. simpl in *.
    destruct (Z.ltb_spec k k0); [simpl; lia|].
    destruct (Z.eqb_spec k k0); simpl.
    + rewrite to_u64_id by lia. lia.
    + rewrite IH by done. lia.
Qed.

Lemma hist_incr_pos k h :
  Forall (λ e, 0 ≤ e.2 ∧ e.2 + 1 < two64) h →
  Forall (λ e, 1 ≤ e.2) h → Forall (λ e, 1 ≤ e.2) (hist_incr k h).
Proof.
  induction h as [|[k0 n] h IH]; simpl; intros Hb Hp.
  - by repeat constructor.
  - apply Forall_cons in Hb as [[Hn0 Hn1] Hb].
    apply Forall_cons in Hp as [Hn Hp]. simpl in *.
    destruct (Z.ltb_spec k k0); [by repeat constructor|].
    destruct (Z.eqb_spec k k0).
    + constructor; [|done]. simpl. rewrite to_u64_id by lia. lia.
    + constructor; [done|]. by apply IH.
Qed.

Lemma hist_total_nonneg h : Forall (λ e, 1 ≤ e.2) h → 0 ≤ hist_total h.
Proof.
  induction 1 as [|[k n] h Hn _ IH]; simpl in *; lia.
Qed.

Lemma hist_value_le_total h :
  Forall (λ e, 1 ≤ e.2) h → Forall (λ e, e.2 ≤ hist_total h) h.
Proof.
  induction 1 as [|[k n] h Hn Hp IH]; simpl in *; [constructor|].
  pose proof (hist_total_nonneg h Hp).
  constructor; simpl; [lia|].
  eapply Forall_impl; [exact IH|]. simpl. intros; lia.
Qed.

Lemma hist_ok_nil : hist_ok [] [].
Proof.
  split; simpl; first [done | constructor | (intros k; reflexivity)].
Qed.

Lemma hist_ok_bounds ks h :
  hist_ok ks h → Z.of_nat (length ks) + 1 < two64 →
  Forall (λ e, 0 ≤ e.2 ∧ e.2 + 1 < two64) h.
Proof.
  intros [_ Hp _ _ Hsum] Hlen.
  pose proof (hist_value_le_total h Hp) as Hle.
  rewrite Forall_forall in Hp, Hle. apply Forall_forall. intros e He.
  specialize (Hp e He). specialize (Hle e He). simpl in *. lia.
Qed.

Lemma hist_ok_step ks h k :
  hist_ok ks h → Z.of_nat (length ks) + 1 < two64 →
  hist_ok (ks ++ [k]) (hist_incr k h).
Proof.
  intros Hok Hlen. pose proof (hist_ok_bounds ks h Hok Hlen) as Hb.
  destruct Hok as [Hs Hp Hc Hk Hsum]. split.
  - by apply hist_incr_sorted.
  - by apply hist_incr_pos.
  - intros c. rewrite hist_incr_cumulative, count_ge_snoc, Hc; done.
  - intros k'. rewrite hist_incr_keys, elem_of_app, Hk.
    rewrite list_elem_of_singleton. tauto.
  - rewrite hist_incr_total, length_app, Hsum by done. simpl. lia.
Qed.

Lemma hist_ok_fold ks' : ∀ ks h,
  hist_ok ks h → Z.of_nat (length ks + length ks') < two64 →
  hist_ok (ks ++ ks') (foldl (λ h k, hist_incr k h) h ks').
Proof.
  induction ks' as [|k ks' IH]; intros ks h Hok Hlen; simpl.
  - by rewrite app_nil_r.
  - replace (ks ++ k :: ks') with ((ks ++ [k]) ++ ks')
      by (by rewrite <- app_assoc).
    apply IH.
    + apply hist_ok_step; [done|]. simpl in Hlen. lia.
    + rewrite length_app. simpl in *. lia.
Qed.

Lemma fillHistogram_fold idx h :
  fillHistogram idx h = foldl (λ h k, hist_incr k h) h (point_counts idx).
Proof. unfold fillHistogram, point_counts. by rewrite foldl_fmap. Qed.

Lemma point_counts_length idx : length (point_counts idx) = size idx.
Proof. unfold point_counts. by rewrite length_fmap, length_map_to_list. Qed.

Lemma fillHistogram_ok idx :
  Z.of_nat (size idx) < two64 →
  hist_ok (point_counts idx) (fillHistogram idx []).
Proof.
  intros Hsz. rewrite fillHistogram_fold.
  apply (hist_ok_fold (point_counts idx) [] []); [apply hist_ok_nil|].
  simpl. by rewrite point_counts_length.
Qed.

Lemma elem_of_point_counts idx c :
  c ∈ point_counts idx ↔
  ∃ H l, idx !! H = Some l ∧ c = Z.of_nat (length l).
Proof.
  unfold point_counts. rewrite list_elem_of_fmap. split.
  - intros [[H l] [-> Hin]]. apply elem_of_map_to_list in Hin. by exists H, l.
  - intros (H & l & Hl & ->). exists (H, l). split; [done|].
    by apply elem_of_map_to_list.
Qed.

End histogram.

(** ** The threshold loop *)

Section threshold.
Import skch.

Lemma cumulative_nonneg c d : Forall (λ e, 1 ≤ e.2) d → 0 ≤ cumulative c d.
Proof.
  induction 1 as [|[k n] d Hn _ IH]; simpl in *; [lia|].
  case_bool_decide; lia.
Qed.

Lemma cumulative_le_total c d :
  Forall (λ e, 1 ≤ e.2) d → cumulative c d ≤ hist_total d.
Proof.
  induction 1 as [|[k n] d Hn _ IH]; simpl in *; [lia|].
  case_bool_decide; lia.
Qed.

Lemma cumulative_key_pos k d :
  Forall (λ e, 1 ≤ e.2) d → k ∈ d.*1 → 1 ≤ cumulative k d.
Proof.
  induction 1 as [|[k0 n] d Hn Hd IH]; simpl in *; intros Hk.
  - by apply elem_of_nil in Hk.
  - pose proof (cumulative_nonneg k d Hd).
    apply elem_of_cons in Hk as [-> | Hk].
    + rewrite bool_decide_eq_true_2 by lia. lia.
    + specialize (IH Hk). case_bool_decide; lia.
Qed.

Lemma cumulative_above c d :
  Forall (λ k, k < c) (d.*1) → cumulative c d = 0.
Proof.
  induction d as [|[k n] d IH]; simpl; intros Hall; [done|].
  apply Forall_cons in Hall as [Hk Hall].
  rewrite bool_decide_eq_false_2 by lia. rewrite IH by done. lia.
Qed.

Lemma cumulative_app c d1 d2 :
  cumulative c (d1 ++ d2) = cumulative c d1 + cumulative c d2.
Proof. induction d1 as [|[k n] d1 IH]; simpl; lia. Qed.

Lemma cumulative_reverse c d : cumulative c (reverse d) = cumulative c d.
Proof.
  induction d as [|[k n] d IH]; [done|].
  rewrite reverse_cons, cumulative_app, IH. simpl. lia.
Qed.

Lemma hist_total_app d1 d2 :
  hist_total (d1 ++ d2) = hist_total d1 + hist_total d2.
Proof. induction d1 as [|[k n] d1 IH]; simpl; lia. Qed.

Lemma hist_total_reverse d : hist_total (reverse d) = hist_total d.
Proof.
  induction d as [|[k n] d IH]; [done|].
  rewrite reverse_cons, hist_total_app, IH. simpl. lia.
Qed.

Lemma StronglySorted_reverse_lt (l : list Z) :
  StronglySorted Z.lt l → StronglySorted (flip Z.lt) (reverse l).
Proof.
  induction l as [|x l IH]; intros Hs.
  - constructor.
  - apply StronglySorted_cons in Hs as [Hall Hs]. rewrite reverse_cons.
    apply StronglySorted_app_2.
    + intros x1 x2 Hx1 Hx2. apply list_elem_of_singleton in Hx2 as ->.
      rewrite elem_of_reverse in Hx1. rewrite Forall_forall in Hall.
      unfold flip. by apply Hall.
    + by apply IH.
    + repeat constructor.
Qed.

Lemma thresholdLoop_spec d : ∀ T sum thr,
  StronglySorted (flip Z.lt) (d.*1) → Forall (λ e, 1 ≤ e.2) d →
  0 ≤ sum → sum + hist_total d < two63 →
  (thresholdLoop d T sum thr = thr ∧
   ∀ k, k ∈ d.*1 → T < sum + cumulative k d) ∨
  (thresholdLoop d T sum thr ∈ d.*1 ∧
   sum + cumulative (thresholdLoop d T sum thr) d ≤ T ∧
   ∀ k, k ∈ d.*1 → k < thresholdLoop d T sum thr →
        T < sum + cumulative k d).
Proof.
  induction d as [|[k n] rest IH]; intros T sum thr Hs Hp Hsum Htot.
  - left. split; [done|]. intros k Hk. by apply elem_of_nil in Hk.
  - simpl in Hs. apply StronglySorted_cons in Hs as [Hall Hs].
    apply Forall_cons in Hp as [Hn Hp]. simpl in Hn, Htot.
    pose proof (hist_total_nonneg rest Hp) as Htn.
    assert (Hab : cumulative k rest = 0).
    { apply cumulative_above. eapply Forall_impl; [exact Hall|]. done. }
    assert (Hlow : ∀ k2, k2 ∈ rest.*1 →
              k2 < k ∧ cumulative k2 ((k, n) :: rest) = n + cumulative k2 rest).
    { intros k2 Hk2. rewrite Forall_forall in Hall.
      specialize (Hall k2 Hk2). unfold flip in Hall. split; [done|].
      simpl. rewrite bool_decide_eq_true_2 by lia. done. }
    cbn [thresholdLoop]. cbv zeta.
    rewrite to_i64_id by (unfold two63 in *; lia).
    destruct (Z.ltb_spec (sum + n) T) as [Hlt | Hge].
    + right.
      destruct (IH T (sum + n) k Hs Hp) as [[Hr Hout] | (Hin & Hle & Hout)];
        [lia | lia | |].
      * rewrite Hr. split; [simpl; by left|]. split.
        { simpl. rewrite bool_decide_eq_true_2 by lia. lia. }
        intros k2 Hk2 Hlt2. simpl in Hk2.
        apply elem_of_cons in Hk2 as [-> | Hk2]; [lia|].
        destruct (Hlow k2 Hk2) as [_ ->]. specialize (Hout k2 Hk2). lia.
      * destruct (Hlow _ Hin) as [Hrk Hrc]. split; [simpl; by right|]. split.
        { rewrite Hrc. lia. }
        intros k2 Hk2 Hlt2. simpl in Hk2.
        apply elem_of_cons in Hk2 as [-> | Hk2]; [lia|].
        destruct (Hlow k2 Hk2) as [_ ->]. specialize (Hout k2 Hk2 Hlt2). lia.
    + destruct (Z.eqb_spec (sum + n) T) as [Heq | Hne].
      * right. split; [simpl; by left|]. split.
        { simpl. rewrite bool_decide_eq_true_2 by lia. lia. }
        intros k2 Hk2 Hlt2. simpl in Hk2.
        apply elem_of_cons in Hk2 as [-> | Hk2]; [lia|].
        destruct (Hlow k2 Hk2) as [_ ->].
        pose proof (cumulative_key_pos k2 rest Hp Hk2). lia.
      * left. split; [done|]. intros k2 Hk2. simpl in Hk2.
        apply elem_of_cons in Hk2 as [-> | Hk2].
        { simpl. rewrite bool_decide_eq_true_2 by lia. lia. }
        destruct (Hlow k2 Hk2) as [_ ->].
        pose proof (cumulative_nonneg k2 rest Hp). lia.
Qed.

End threshold.

(** ** The frequency threshold and the frequent seeds *)

Section pruning.
Import skch.

Lemma handleMinmer_frame s mi :
  param (handleMinmer s mi) = param s ∧
  freqThreshold (handleMinmer s mi) = freqThreshold s ∧
  frequentSeeds (handleMinmer s mi) = frequentSeeds s ∧
  minmerFreqHistogram (handleMinmer s mi) = minmerFreqHistogram s ∧
  minmerIndex (handleMinmer s mi) = minmerIndex s.
Proof. done. Qed.

Lemma buildHandleThreadOutput_frame s out :
  param (buildHandleThreadOutput s out) = param s ∧
  freqThreshold (buildHandleThreadOutput s out) = freqThreshold s ∧
  frequentSeeds (buildHandleThreadOutput s out) = frequentSeeds s ∧
  minmerFreqHistogram (buildHandleThreadOutput s out) = minmerFreqHistogram s.
Proof.
  unfold buildHandleThreadOutput. simpl. revert s.
  induction out as [|mi out IH]; intros s; simpl; [done|].
  destruct (IH (handleMinmer s mi)) as (-> & -> & -> & ->).
  by destruct (handleMinmer_frame s mi) as (-> & -> & -> & -> & _).
Qed.

Lemma accumulate_frame s outputs :
  param (accumulate s outputs) = param s ∧
  freqThreshold (accumulate s outputs) = freqThreshold s ∧
  frequentSeeds (accumulate s outputs) = frequentSeeds s ∧
  minmerFreqHistogram (accumulate s outputs) = minmerFreqHistogram s.
Proof.
  unfold accumulate. revert s.
  induction outputs as [|out outputs IH]; intros s; simpl; [done|].
  destruct (IH (buildHandleThreadOutput s out)) as (-> & -> & -> & ->).
  apply buildHandleThreadOutput_frame.
Qed.

(** The threshold computed from an empty histogram and the sentinel. *)
Lemma computeFreqHist_with_spec T s :
  minmerFreqHistogram s = [] → freqThreshold s = uint64_max →
  Z.of_nat (size (minmerPosLookupIndex s)) < two63 →
  let idx := minmerPosLookupIndex s in
  let thr := freqThreshold (computeFreqHist_with T s) in
  (thr = uint64_max ∧
   ∀ c, c ∈ point_counts idx → T < hashes_with_at_least c idx) ∨
  (thr ∈ point_counts idx ∧ hashes_with_at_least thr idx ≤ T ∧
   ∀ c, c ∈ point_counts idx → c < thr → T < hashes_with_at_least c idx).
Proof.
  intros Hh Ht Hsz idx thr. subst thr. unfold computeFreqHist_with.
  case_bool_decide as He.
  - left. split; [done|]. intros c Hc. apply map_size_empty_inv in He.
    subst idx. rewrite He in Hc. unfold point_counts in Hc.
    rewrite map_to_list_empty in Hc. by apply elem_of_nil in Hc.
  - simpl. rewrite Hh, Ht. fold idx.
    assert (Hok : hist_ok (point_counts idx) (fillHistogram idx [])).
    { apply fillHistogram_ok. subst idx. unfold two63, two64 in *. lia. }
    destruct Hok as [Hs Hp Hc Hk Hsum].
    set (h := fillHistogram idx []) in *.
    assert (Hcum : ∀ c, cumulative c (reverse h) = hashes_with_at_least c idx).
    { intros c. by rewrite cumulative_reverse, Hc. }
    assert (Hkeys : ∀ c, c ∈ (reverse h).*1 ↔ c ∈ point_counts idx).
    { intros c. by rewrite fmap_reverse, elem_of_reverse, Hk. }
    destruct (thresholdLoop_spec (reverse h) T 0 uint64_max)
      as [[Hr Hout] | (Hin & Hle & Hout)].
    + rewrite fmap_reverse. by apply StronglySorted_reverse_lt.
    + by apply Forall_reverse.
    + done.
    + rewrite hist_total_reverse, Hsum, point_counts_length. subst idx. lia.
    + left. split; [done|]. intros c Hc'. rewrite <- Hcum.
      apply Hkeys in Hc'. specialize (Hout c Hc'). lia.
    + right. rewrite Hkeys in Hin. rewrite Hcum in Hle. split; [done|].
      split; [lia|]. intros c Hc' Hlt. rewrite <- Hcum.
      apply Hkeys in Hc'. specialize (Hout c Hc' Hlt). lia.
Qed.

Lemma seed_fold_spec thr (es : list (Z * list IntervalPoint)) : ∀ (fs : gset Z) H,
  H ∈ foldl (λ (fs : gset Z) (e : Z * list IntervalPoint),
               if bool_decide (thr ≤ Z.of_nat (length e.2))
               then {[ e.1 ]} ∪ fs else fs) fs es ↔
  H ∈ fs ∨ ∃ l, (H, l) ∈ es ∧ thr ≤ Z.of_nat (length l).
Proof.
  induction es as [|[h l] es IH]; intros fs H; simpl.
  - split; [by left|]. intros [? | (l & Hl & _)]; [done|].
    by apply elem_of_nil in Hl.
  - rewrite IH. split.
    + intros [Hin | (l' & Hl' & Hle)].
      * case_bool_decide as Hc.
        -- apply elem_of_union in Hin as [Hin | Hin]; [|by left].
           apply elem_of_singleton in Hin as ->. right. exists l.
           split; [by left|done].
        -- by left.
      * right. exists l'. split; [by right|done].
    + intros [Hin | (l' & Hl' & Hle)].
      * left. case_bool_decide; [|done]. apply elem_of_union. by right.
      * apply elem_of_cons in Hl' as [Heq | Hl'].
        -- injection Heq as -> ->. left.
           rewrite bool_decide_eq_true_2 by done.
           apply elem_of_union. left. by apply elem_of_singleton.
        -- right. by exists l'.
Qed.

Lemma computeFreqSeedSet_spec s H :
  H ∈ frequentSeeds (computeFreqSeedSet s) ↔
  H ∈ frequentSeeds s ∨
  ∃ l, minmerPosLookupIndex s !! H = Some l ∧
       freqThreshold s ≤ Z.of_nat (length l).
Proof.
  unfold computeFreqSeedSet. simpl. rewrite seed_fold_spec.
  split; (intros [Hin | (l & Hl & Hle)]; [by left|right; exists l]).
  - apply elem_of_map_to_list in Hl. by split.
  - split; [|done]. by apply elem_of_map_to_list.
Qed.

Lemma computeFreqHist_with_frame T s :
  minmerPosLookupIndex (computeFreqHist_with T s) = minmerPosLookupIndex s ∧
  frequentSeeds (computeFreqHist_with T s) = frequentSeeds s ∧
  minmerIndex (computeFreqHist_with T s) = minmerIndex s.
Proof. unfold computeFreqHist_with. by case_bool_decide. Qed.

Lemma dropFreqSeedSet_frame s :
  frequentSeeds (dropFreqSeedSet s) = frequentSeeds s ∧
  minmerPosLookupIndex (dropFreqSeedSet s) = minmerPosLookupIndex s ∧
  freqThreshold (dropFreqSeedSet s) = freqThreshold s.
Proof. done. Qed.

Lemma computeFreqSeedSet_frame s :
  minmerPosLookupIndex (computeFreqSeedSet s) = minmerPosLookupIndex s ∧
  freqThreshold (computeFreqSeedSet s) = freqThreshold s ∧
  minmerIndex (computeFreqSeedSet s) = minmerIndex s.
Proof. done. Qed.

End pruning.

Section pruning_claims.
Import skch.

(** C1, as amended: [computeFreqHist] leaves in [freqThreshold] the
    smallest number of interval points [c = |positions[H]|] for which the
    hashes with at least [c] points number at most [minmerToIgnore] (the
    truncated [total_unique_hashes * kmer_pct_threshold / 100]): the sum of
    the histogram from the highest count downward is kept from exceeding
    the target.  The threshold is finite iff some count qualifies;
    otherwise it stays at the sentinel and no hash is marked frequent.
    [T] is any value of [minmerToIgnore]. *)
Theorem freq_threshold_cut p md sbf (outputs : list (list MinmerInfo)) (T : Z) :
  let s0 := accumulate (Sketch_new p md sbf) outputs in
  let idx := minmerPosLookupIndex s0 in
  let s := computeFreqHist_with T s0 in
  Z.of_nat (size idx) < two63 →
  Forall (λ n, n < uint64_max) (point_counts idx) →
  (freqThreshold s ≠ uint64_max ↔
   ∃ c, c ∈ point_counts idx ∧ hashes_with_at_least c idx ≤ T) ∧
  (freqThreshold s ≠ uint64_max →
   freqThreshold s ∈ point_counts idx ∧
   hashes_with_at_least (freqThreshold s) idx ≤ T ∧
   ∀ c, c ∈ point_counts idx → c < freqThreshold s →
        T < hashes_with_at_least c idx) ∧
  (freqThreshold s = uint64_max → frequentSeeds (computeFreqSeedSet s) = ∅).
Proof.
  intros s0 idx s Hsz Hb.
  destruct (accumulate_frame (Sketch_new p md sbf) outputs)
    as (_ & Ht & Hfs & Hh).
  rewrite Forall_forall in Hb.
  pose proof (computeFreqHist_with_spec T s0 Hh Ht Hsz) as Hspec.
  simpl in Hspec. fold idx s in Hspec.
  split; [|split].
  - split.
    + intros Hfin. destruct Hspec as [[Hr _] | (Hin & Hle & _)]; [done|].
      by exists (freqThreshold s).
    + intros (c & Hc & Hle) Heq.
      destruct Hspec as [[_ Hout] | (Hin & _ & _)].
      * specialize (Hout c Hc). lia.
      * specialize (Hb _ Hin). lia.
  - intros Hfin. by destruct Hspec as [[Hr _] | Hspec].
  - intros Heq. apply set_eq. intros H. rewrite computeFreqSeedSet_spec.
    destruct (computeFreqHist_with_frame T s0) as (Hidx & Hfs' & _).
    subst s idx s0. rewrite Hfs', Hidx, Hfs. simpl.
    split; [|by intros ?%not_elem_of_empty].
    intros [Hin | (l & Hl & Hle)]; [done|]. exfalso.
    assert (Hc : Z.of_nat (length l) ∈ point_counts
              (minmerPosLookupIndex (accumulate (Sketch_new p md sbf) outputs))).
    { apply elem_of_point_counts. by exists H, l. }
    specialize (Hb _ Hc). lia.
Qed.

Lemma freq_threshold_cut_witness :
  Z.of_nat (size (minmerPosLookupIndex examples.four_hashes)) < two63 ∧
  Forall (λ n, n < uint64_max)
    (point_counts (minmerPosLookupIndex examples.four_hashes)) ∧
  freqThreshold (computeFreqHist_with 2 examples.four_hashes) = 4 ∧
  hashes_with_at_least 4 (minmerPosLookupIndex examples.four_hashes) ≤ 2 ∧
  2 < hashes_with_at_least 2 (minmerPosLookupIndex examples.four_hashes).
Proof.
  assert (H1 : Z.of_nat (size (minmerPosLookupIndex examples.four_hashes))
               < two63) by (vm_compute; reflexivity).
  assert (H2 : Forall (λ n, n < uint64_max)
                 (point_counts (minmerPosLookupIndex examples.four_hashes)))
    by (apply (bool_decide_unpack _); vm_compute; exact I).
  split; [exact H1|]. split; [exact H2|].
  destruct (freq_threshold_cut (examples.params (50 # 1)) [] []
              [[examples.minmer 11 0 5 0; examples.minmer 12 1 6 0;
                examples.minmer 13 2 7 0; examples.minmer 14 3 8 0;
                examples.minmer 11 10 15 0]] 2 H1 H2) as (_ & Hfin & _).
  split; [vm_compute; reflexivity|].
  destruct Hfin as (_ & Hle & Hout); [vm_compute; discriminate|].
  split; [exact Hle|].
  apply Hout; [|vm_compute; reflexivity].
  apply elem_of_point_counts.
  exists 12, [mkIntervalPoint 1 12 0 OPEN; mkIntervalPoint 6 12 0 CLOSE].
  split; vm_compute; reflexivity.
Defined.

(** C1 as the specification states it fails on the index with the hashes
    11 (four points) and 12, 13, 14 (two points each) at 50 percent: the
    target is 2, the sum from the top is 1 at count 4 and 4 at count 2; the
    code stops at 4, where the sum has not reached the target. *)
Lemma freq_threshold_claim_fails :
  freqThreshold (computeFreqHist_state examples.four_hashes) = 4 ∧
  ¬ threshold_first_reaches_target (computeFreqHist_state examples.four_hashes) ∧
  ¬ threshold_finite_iff_reached (computeFreqHist_state examples.four_hashes).
Proof.
  split; [vm_compute; reflexivity|]. split.
  - intros (_ & Hle & _). vm_compute in Hle. by apply Hle.
  - intros [Hfin _].
    assert (Hle : (pct_target (computeFreqHist_state examples.four_hashes)
                   <= inject_Z
                        (hashes_with_at_least
                           (freqThreshold
                              (computeFreqHist_state examples.four_hashes))
                           (minmerPosLookupIndex
                              (computeFreqHist_state examples.four_hashes))))%Q).
    { apply Hfin. vm_compute. discriminate. }
    vm_compute in Hle. by apply Hle.
Qed.

(** C2, as amended: after [computeFreqSeedSet] and [dropFreqSeedSet] no
    remaining [MinmerInfo] has a hash in [frequentSeeds] and exactly the
    entries with a frequent hash were removed; a hash is in [frequentSeeds]
    exactly when its number of interval points [|positions[H]|] (not its
    half) is at least [freqThreshold]; the positions map is retained. *)
Theorem pruned_index p md sbf (outputs : list (list MinmerInfo)) (T : Z) :
  let s0 := computeFreqHist_with T (accumulate (Sketch_new p md sbf) outputs) in
  let s := dropFreqSeedSet (computeFreqSeedSet s0) in
  (∀ mi, mi ∈ minmerIndex s → hash mi ∉ frequentSeeds s) ∧
  (∀ mi, mi ∈ minmerIndex s ↔
         mi ∈ minmerIndex s0 ∧ hash mi ∉ frequentSeeds s) ∧
  (∀ H, H ∈ frequentSeeds s ↔
        ∃ l, minmerPosLookupIndex s !! H = Some l ∧
             freqThreshold s ≤ Z.of_nat (length l)) ∧
  minmerPosLookupIndex s = minmerPosLookupIndex s0.
Proof.
  intros s0 s.
  assert (Hmi : ∀ mi, mi ∈ minmerIndex s ↔
                  mi ∈ minmerIndex s0 ∧ hash mi ∉ frequentSeeds s).
  { intros mi. subst s. unfold dropFreqSeedSet. simpl.
    rewrite list_elem_of_filter. tauto. }
  split; [|split; [|split]].
  - intros mi Hin. by apply Hmi in Hin as [_ ?].
  - exact Hmi.
  - intros H. subst s.
    destruct (dropFreqSeedSet_frame (computeFreqSeedSet s0)) as (-> & -> & ->).
    destruct (computeFreqSeedSet_frame s0) as (-> & -> & _).
    rewrite computeFreqSeedSet_spec.
    destruct (computeFreqHist_with_frame T
                (accumulate (Sketch_new p md sbf) outputs)) as (_ & Hfs & _).
    destruct (accumulate_frame (Sketch_new p md sbf) outputs)
      as (_ & _ & Hfs0 & _).
    subst s0. rewrite Hfs, Hfs0. simpl.
    split; [intros [?%not_elem_of_empty|?]; done|by right].
  - done.
Qed.

Lemma pruned_index_witness :
  minmerIndex
    (dropFreqSeedSet
       (computeFreqSeedSet (computeFreqHist_with 2 examples.four_hashes)))
    = [examples.minmer 12 1 6 0; examples.minmer 13 2 7 0;
       examples.minmer 14 3 8 0] ∧
  (∀ mi,
     mi ∈ minmerIndex
            (dropFreqSeedSet
               (computeFreqSeedSet
                  (computeFreqHist_with 2 examples.four_hashes))) →
     hash mi ∉ frequentSeeds
                 (dropFreqSeedSet
                    (computeFreqSeedSet
                       (computeFreqHist_with 2 examples.four_hashes)))).
Proof.
  split; [vm_compute; reflexivity|].
  exact (proj1 (pruned_index (examples.params (50 # 1)) [] []
                  [[examples.minmer 11 0 5 0; examples.minmer 12 1 6 0;
                    examples.minmer 13 2 7 0; examples.minmer 14 3 8 0;
                    examples.minmer 11 10 15 0]] 2)).
Defined.

(** C2 as the specification states it fails on the same index: hash 11 is
    frequent with four interval points and threshold 4, and 4 / 2 < 4. *)
Lemma frequent_seed_halved_count_fails :
  11 ∈ frequentSeeds (prune examples.four_hashes) ∧
  freqThreshold (prune examples.four_hashes) = 4 ∧
  length (positions_of (minmerPosLookupIndex (prune examples.four_hashes)) 11)
    = 4%nat ∧
  ¬ frequent_seeds_halved_count (prune examples.four_hashes).
Proof.
  assert (Hin : 11 ∈ frequentSeeds (prune examples.four_hashes)).
  { apply (bool_decide_unpack _). vm_compute. exact I. }
  split; [exact Hin|]. split; [vm_compute; reflexivity|].
  split; [vm_compute; reflexivity|].
  intros Hc. specialize (Hc 11 Hin). vm_compute in Hc. by apply Hc.
Qed.

End pruning_claims.

(** ** The environment monad *)

Section monad.
Import skch.

Lemma bind_Ret {A B} (m : M A) (f : A → M B) w a w' :
  m w = Ret a w' → (m ≫= f) w = f a w'.
Proof. intros H. unfold mbind, M_bind. by rewrite H. Qed.

Lemma bind_Exit {A B} (m : M A) (f : A → M B) w code w' :
  m w = Exit code w' → (m ≫= f) w = Exit code w'.
Proof. intros H. unfold mbind, M_bind. by rewrite H. Qed.

End monad.

(** ** Initialisation from an existing index file *)

Section initialize_claims.
Import skch.
Context (size_raw key_raw segLength_raw sketchSize_raw kmerSize_raw : Raw Z).
Context (MinmerInfo_raw : Raw MinmerInfo).
Context (IntervalPoint_raw : Raw IntervalPoint).
Context (for_each_seq_in_file : string → list string → list (string * string)).
Context (addMinmers : string → Z → Z → Z → Z → Z → Z → list MinmerInfo).
Context (delivery : list (list MinmerInfo) → list (list MinmerInfo)).

Lemma build_false_empty s w :
  minmerIndex s = [] →
  build for_each_seq_in_file addMinmers delivery false [] s w
  = Exit 1
      (mkWorld (files w)
         (cerr w ++
          [Str "[mashmap::skch::Sketch::build] time spent computing the reference index: ";
           Seconds; Str " sec"; Endl;
           Str "[mashmap::skch::Sketch::build] ERROR, reference sketch is empty. Reference sequences shorter than the kmer size are not indexed";
           Endl])
         (idManager w) (calls w ++ ["build"])).
Proof.
  intros Hmi. unfold build, mbind, M_bind, enter, print, mret, M_ret, exit.
  simpl. rewrite Hmi. simpl. by rewrite <- app_assoc.
Qed.

Lemma initialize_load_branch targets s w bytes :
  minmerIndex s = [] →
  indexFilename (param s) ≠ "" →
  files w !! indexFilename (param s) = Some bytes →
  overwrite_index (param s) = false →
  initialize size_raw key_raw segLength_raw sketchSize_raw kmerSize_raw
    MinmerInfo_raw IntervalPoint_raw for_each_seq_in_file addMinmers delivery
    targets s w
  = Exit 1
      (mkWorld (files w) (cerr w ++ empty_sketch_messages) (idManager w)
         (calls w ++ ["initialize"; "build"])).
Proof.
  intros Hmi Hname Hfile Hover. unfold initialize.
  unfold mbind, M_bind, enter, print, file_exists. simpl.
  rewrite Hfile, Hover. rewrite (bool_decide_eq_false_2 _ Hname).
  rewrite bool_decide_eq_true_2 by eauto. simpl.
  rewrite build_false_empty by done. simpl.
  unfold empty_sketch_messages. by rewrite <- !app_assoc.
Qed.

End initialize_claims.

(** ** Reading back what was written *)

Section raw_streams.
Import skch.

Lemma read_obj_to_raw {A} (R : Raw A) (x : A) rest w :
  raw_ok x → read_obj R (to_raw x ++ rest) w = Ret (x, rest) w.
Proof.
  intros Hok. unfold read_obj, read_bytes, mbind, M_bind, mret, M_ret.
  rewrite bool_decide_eq_true_2 by (rewrite length_app, to_raw_length; lia).
  rewrite take_app_length', drop_app_length' by (by rewrite to_raw_length).
  by rewrite of_to_raw.
Qed.

Lemma to_raw_array_cons {A} (R : Raw A) (x : A) (l : list A) :
  to_raw_array R (x :: l) = to_raw x ++ to_raw_array R l.
Proof. done. Qed.

Lemma to_raw_array_length {A} (R : Raw A) (l : list A) :
  length (to_raw_array R l) = (length l * raw_size)%nat.
Proof.
  induction l as [|x l IH]; [done|].
  rewrite to_raw_array_cons, length_app, to_raw_length, IH. simpl. lia.
Qed.

Lemma of_raw_array_to_raw {A} (R : Raw A) (l : list A) :
  Forall raw_ok l → of_raw_array R (length l) (to_raw_array R l) = l.
Proof.
  induction 1 as [|x l Hx Hl IH]; [done|].
  rewrite to_raw_array_cons. cbn [length of_raw_array].
  rewrite take_app_length', drop_app_length' by (by rewrite to_raw_length).
  by rewrite of_to_raw, IH.
Qed.

Lemma read_array_to_raw {A} (R : Raw A) (l : list A) rest w :
  Forall raw_ok l →
  read_array R (length l) (to_raw_array R l ++ rest) w = Ret (l, rest) w.
Proof.
  intros Hok. unfold read_array, read_bytes, mbind, M_bind, mret, M_ret.
  rewrite bool_decide_eq_true_2
    by (rewrite length_app, to_raw_array_length; lia).
  rewrite take_app_length', drop_app_length'
    by (by rewrite to_raw_array_length).
  by rewrite of_raw_array_to_raw.
Qed.

Lemma for_int_below_small {S} (n : nat) (body : S → M S) (s : S) :
  Z.of_nat n ≤ int_max →
  for_int_below (Z.of_nat n) body s = iterate n body s.
Proof.
  intros Hn. unfold for_int_below. rewrite bool_decide_eq_true_2 by done.
  by rewrite Nat2Z.id.
Qed.

(** The map that results from storing the entries of a list in order. *)
Lemma foldl_insert_lookup {V} (l : list (Z * V)) : ∀ (m : gmap Z V) k,
  NoDup (l.*1) →
  foldl (λ m e, <[e.1 := e.2]> m) m l !! k
  = match (list_to_map l : gmap Z V) !! k with
    | Some v => Some v
    | None => m !! k
    end.
Proof.
  induction l as [|[k0 v0] l IH]; intros m k Hnd; simpl.
  - by rewrite lookup_empty.
  - apply NoDup_cons in Hnd as [Hk0 Hnd]. rewrite IH by done.
    destruct (decide (k = k0)) as [-> | Hne].
    + rewrite (not_elem_of_list_to_map_1 l k0) by done.
      by rewrite !lookup_insert_eq.
    + by rewrite !lookup_insert_ne.
Qed.

Lemma foldl_insert_map_to_list {V} (m : gmap Z V) :
  foldl (λ m e, <[e.1 := e.2]> m) ∅ (map_to_list m) = m.
Proof.
  apply map_eq. intros k.
  rewrite foldl_insert_lookup by apply NoDup_fst_map_to_list.
  rewrite list_to_map_to_list, lookup_empty. by destruct (m !! k).
Qed.

Lemma foldl_union_elem (l : list Z) : ∀ (X : gset Z) k,
  k ∈ foldl (λ (X : gset Z) k, {[ k ]} ∪ X) X l ↔ k ∈ l ∨ k ∈ X.
Proof.
  induction l as [|k0 l IH]; intros X k; simpl.
  - rewrite elem_of_nil. tauto.
  - rewrite IH, elem_of_cons, elem_of_union, elem_of_singleton. tauto.
Qed.

Lemma foldl_union_elements (X : gset Z) :
  foldl (λ (X : gset Z) k, {[ k ]} ∪ X) ∅ (elements X) = X.
Proof.
  apply set_eq. intros k. rewrite foldl_union_elem, elem_of_elements.
  rewrite elem_of_empty. tauto.
Qed.

End raw_streams.

(** ** The parameter check *)

Section parameter_check.
Import skch.
Context (segLength_raw sketchSize_raw kmerSize_raw : Raw Z).

Lemma shows_here field v lit rest :
  ends_with (field +:+ "=") lit = true →
  shows field v (Str lit :: Num v :: rest) = true.
Proof. intros H. cbn [shows]. by rewrite H, Z.eqb_refl. Qed.

Lemma shows_skip field v t rest :
  shows field v rest = true → shows field v (t :: rest) = true.
Proof.
  intros H. destruct t; cbn [shows]; try done. rewrite H. apply orb_true_r.
Qed.

Lemma readParameters_eval s w seg sk k rest :
  raw_ok (Raw := segLength_raw) seg → raw_ok (Raw := sketchSize_raw) sk →
  raw_ok (Raw := kmerSize_raw) k →
  readParameters segLength_raw sketchSize_raw kmerSize_raw s
    (param_block segLength_raw sketchSize_raw kmerSize_raw seg sk k ++ rest) w
  = if bool_decide (segLength (param s) ≠ seg)
       || bool_decide (sketchSize (param s) ≠ sk)
       || bool_decide (kmerSize (param s) ≠ k)
    then Exit 1 (mkWorld (files w)
                   (cerr w ++ mismatch_diagnostic seg sk k (param s))
                   (idManager w) (calls w ++ ["readParameters"]))
    else Ret rest (mkWorld (files w) (cerr w) (idManager w)
                     (calls w ++ ["readParameters"])).
Proof.
  intros Hseg Hsk Hk. unfold readParameters, param_block.
  rewrite <- !app_assoc. unfold mbind, M_bind, enter. simpl.
  rewrite !read_obj_to_raw by done.
  destruct (_ || _); [|done].
  unfold print, exit, mismatch_diagnostic. simpl. by rewrite <- !app_assoc.
Qed.

(** C7: on an index file whose stored segment length, sketch size or k-mer
    size differs from the current parameters, [readParameters] exits with
    code 1 after a diagnostic that shows every field, so each field that
    disagrees, by name with its stored and its current value; when the three
    stored values equal the current ones it returns normally, at the end of
    the parameter block. *)
Theorem readParameters_checks s w seg sk k rest :
  raw_ok (Raw := segLength_raw) seg → raw_ok (Raw := sketchSize_raw) sk →
  raw_ok (Raw := kmerSize_raw) k →
  let inStream :=
    param_block segLength_raw sketchSize_raw kmerSize_raw seg sk k ++ rest in
  let run :=
    readParameters segLength_raw sketchSize_raw kmerSize_raw s inStream w in
  let diag := mismatch_diagnostic seg sk k (param s) in
  (segLength (param s) ≠ seg ∨ sketchSize (param s) ≠ sk
   ∨ kmerSize (param s) ≠ k →
   run = Exit 1 (mkWorld (files w) (cerr w ++ diag) (idManager w)
                   (calls w ++ ["readParameters"])) ∧
   (segLength (param s) ≠ seg →
    shows "segLength" seg diag = true ∧
    shows "segLength" (segLength (param s)) diag = true) ∧
   (sketchSize (param s) ≠ sk →
    shows "sketchSize" sk diag = true ∧
    shows "sketchSize" (sketchSize (param s)) diag = true) ∧
   (kmerSize (param s) ≠ k →
    shows "kmerSize" k diag = true ∧
    shows "kmerSize" (kmerSize (param s)) diag = true)) ∧
  (segLength (param s) = seg ∧ sketchSize (param s) = sk
   ∧ kmerSize (param s) = k →
   run = Ret rest (mkWorld (files w) (cerr w) (idManager w)
                     (calls w ++ ["readParameters"]))).
Proof.
  intros Hseg Hsk Hk inStream run diag. subst run inStream.
  rewrite readParameters_eval by done. split.
  - intros Hne. split.
    + destruct Hne as [Hne | [Hne | Hne]].
      * by rewrite (bool_decide_eq_true_2 _ Hne).
      * rewrite (bool_decide_eq_true_2 (sketchSize (param s) ≠ sk)) by done.
        by rewrite orb_true_r.
      * rewrite (bool_decide_eq_true_2 (kmerSize (param s) ≠ k)) by done.
        by rewrite orb_true_r.
    + subst diag. unfold mismatch_diagnostic.
      repeat split;
        repeat first [ apply shows_here; vm_compute; reflexivity
                     | apply shows_skip ].
  - intros (-> & -> & ->).
    by rewrite !bool_decide_eq_false_2 by (intros H; by apply H).
Qed.

End parameter_check.

(** ** The index file *)

Section index_file.
Import skch.
Context (size_raw key_raw segLength_raw sketchSize_raw kmerSize_raw : Raw Z).
Context (MinmerInfo_raw : Raw MinmerInfo).
Context (IntervalPoint_raw : Raw IntervalPoint).

Abbreviation index_bytes' :=
  (index_bytes size_raw key_raw segLength_raw sketchSize_raw kmerSize_raw
     MinmerInfo_raw IntervalPoint_raw).
Abbreviation readIndex' :=
  (readIndex size_raw key_raw segLength_raw sketchSize_raw kmerSize_raw
     MinmerInfo_raw IntervalPoint_raw).
Abbreviation writeIndex' :=
  (writeIndex size_raw key_raw segLength_raw sketchSize_raw kmerSize_raw
     MinmerInfo_raw IntervalPoint_raw).
Abbreviation index_ok' :=
  (index_ok size_raw key_raw segLength_raw sketchSize_raw kmerSize_raw
     MinmerInfo_raw IntervalPoint_raw).

Lemma index_bytes_eq s :
  index_bytes' s
  = param_block segLength_raw sketchSize_raw kmerSize_raw
      (segLength (param s)) (sketchSize (param s)) (kmerSize (param s))
    ++ to_raw (Raw := size_raw) (Z.of_nat (length (minmerIndex s)))
    ++ to_raw_array MinmerInfo_raw (minmerIndex s)
    ++ to_raw (Raw := size_raw) (Z.of_nat (size (minmerPosLookupIndex s)))
    ++ concat (writePosListEntry size_raw key_raw IntervalPoint_raw
                 <$> map_to_list (minmerPosLookupIndex s))
    ++ to_raw (Raw := size_raw) (Z.of_nat (size (frequentSeeds s)))
    ++ concat (to_raw (Raw := key_raw) <$> elements (frequentSeeds s)).
Proof.
  unfold index_bytes, writeFreqKmersBinary, writePosListBinary,
    writeSketchBinary, writeParameters, param_block.
  by rewrite app_nil_l, <- !app_assoc.
Qed.

Lemma readSketchBinary_written s0 (mis : list MinmerInfo) rest w :
  raw_ok (Raw := size_raw) (Z.of_nat (length mis)) →
  Forall (raw_ok (Raw := MinmerInfo_raw)) mis →
  readSketchBinary size_raw MinmerInfo_raw s0
    (to_raw (Raw := size_raw) (Z.of_nat (length mis))
     ++ to_raw_array MinmerInfo_raw mis ++ rest) w
  = Ret (set_minmerIndex mis s0, rest) w.
Proof.
  intros Hn Hok. unfold readSketchBinary, mbind, M_bind.
  rewrite read_obj_to_raw by done. rewrite Nat2Z.id.
  by rewrite read_array_to_raw by done.
Qed.

Lemma read_entries (es : list (Z * list IntervalPoint)) : ∀ s rest w,
  Forall (λ e : Z * list IntervalPoint,
            raw_ok (Raw := key_raw) e.1 ∧
            raw_ok (Raw := size_raw) (Z.of_nat (length e.2)) ∧
            Forall (raw_ok (Raw := IntervalPoint_raw)) e.2) es →
  iterate (length es)
    (λ '(s, inStream),
       '(key, inStream) ← read_obj key_raw inStream;
       '(size, inStream) ← read_obj size_raw inStream;
       '(points, inStream) ←
          read_array IntervalPoint_raw (Z.to_nat size) inStream;
       mret (set_minmerPosLookupIndex
               (<[key := points]> (minmerPosLookupIndex s)) s,
             inStream))
    (s, concat (writePosListEntry size_raw key_raw IntervalPoint_raw <$> es)
        ++ rest) w
  = Ret (set_minmerPosLookupIndex
           (foldl (λ m e, <[e.1 := e.2]> m) (minmerPosLookupIndex s) es) s,
         rest) w.
Proof.
  induction es as [|[h l] es IH]; intros s rest w Hok.
  - simpl. by destruct s.
  - apply Forall_cons in Hok as [(Hh & Hn & Hl) Hok]. simpl in Hh, Hn, Hl.
    cbn [length iterate fmap list_fmap concat]. unfold writePosListEntry at 1.
    cbn [fst snd]. rewrite <- !app_assoc.
    unfold mbind at 1. unfold M_bind at 1.
    unfold mbind at 1. unfold M_bind at 1.
    rewrite read_obj_to_raw by done.
    unfold mbind at 1. unfold M_bind at 1.
    rewrite read_obj_to_raw by done. rewrite Nat2Z.id.
    unfold mbind at 1. unfold M_bind at 1.
    rewrite read_array_to_raw by done.
    unfold mret at 1. unfold M_ret at 1.
    rewrite IH by done. by destruct s.
Qed.

Lemma read_seeds (ks : list Z) : ∀ s rest w,
  Forall (raw_ok (Raw := key_raw)) ks →
  iterate (length ks)
    (λ '(s, inStream),
       '(key, inStream) ← read_obj key_raw inStream;
       mret (set_frequentSeeds ({[ key ]} ∪ frequentSeeds s) s, inStream))
    (s, concat (to_raw (Raw := key_raw) <$> ks) ++ rest) w
  = Ret (set_frequentSeeds
           (foldl (λ (X : gset Z) k, {[ k ]} ∪ X) (frequentSeeds s) ks) s,
         rest) w.
Proof.
  induction ks as [|k ks IH]; intros s rest w Hok.
  - simpl. by destruct s.
  - apply Forall_cons in Hok as [Hk Hok].
    cbn [length iterate fmap list_fmap concat]. rewrite <- !app_assoc.
    unfold mbind at 1. unfold M_bind at 1.
    unfold mbind at 1. unfold M_bind at 1.
    rewrite read_obj_to_raw by done.
    unfold mret at 1. unfold M_ret at 1.
    rewrite IH by done. by destruct s.
Qed.

Lemma readPosListBinary_written s0 (m : gmap Z (list IntervalPoint)) rest w :
  minmerPosLookupIndex s0 = ∅ →
  raw_ok (Raw := size_raw) (Z.of_nat (size m)) →
  Z.of_nat (size m) ≤ int_max →
  Forall (λ e : Z * list IntervalPoint,
            raw_ok (Raw := key_raw) e.1 ∧
            raw_ok (Raw := size_raw) (Z.of_nat (length e.2)) ∧
            Forall (raw_ok (Raw := IntervalPoint_raw)) e.2) (map_to_list m) →
  readPosListBinary size_raw key_raw IntervalPoint_raw s0
    (to_raw (Raw := size_raw) (Z.of_nat (size m))
     ++ concat (writePosListEntry size_raw key_raw IntervalPoint_raw
                  <$> map_to_list m) ++ rest) w
  = Ret (set_minmerPosLookupIndex m s0, rest) w.
Proof.
  intros Hempty Hn Hmax Hok. unfold readPosListBinary.
  unfold mbind at 1. unfold M_bind at 1.
  rewrite read_obj_to_raw by done.
  rewrite for_int_below_small by done.
  rewrite <- (length_map_to_list m).
  rewrite read_entries by done.
  by rewrite Hempty, foldl_insert_map_to_list.
Qed.

Lemma readFreqKmersBinary_written s0 (X : gset Z) rest w :
  frequentSeeds s0 = ∅ →
  raw_ok (Raw := size_raw) (Z.of_nat (size X)) →
  Z.of_nat (size X) ≤ int_max →
  Forall (raw_ok (Raw := key_raw)) (elements X) →
  readFreqKmersBinary size_raw key_raw s0
    (to_raw (Raw := size_raw) (Z.of_nat (size X))
     ++ concat (to_raw (Raw := key_raw) <$> elements X) ++ rest) w
  = Ret (set_frequentSeeds X s0, rest) w.
Proof.
  intros Hempty Hn Hmax Hok. unfold readFreqKmersBinary.
  unfold mbind at 1. unfold M_bind at 1.
  rewrite read_obj_to_raw by done.
  rewrite for_int_below_small by done.
  change (size X) with (length (elements X)).
  rewrite read_seeds by done.
  by rewrite Hempty, foldl_union_elements.
Qed.

(** C6: an index written by [writeIndex] and read back by [readIndex] into
    a sketch with the same three parameters (and nothing loaded yet) gives
    back the minmers, the positions map and the frequent seeds; read into a
    sketch with another segment length, sketch size or k-mer size, the same
    file makes [readIndex] exit with code 1. *)
Theorem index_round_trip (I s0 : Sketch) (w : World) :
  index_ok' I →
  indexFilename (param s0) = indexFilename (param I) →
  minmerPosLookupIndex s0 = ∅ → frequentSeeds s0 = ∅ →
  ∃ w1,
    writeIndex' I w = Ret () w1 ∧
    (same_parameters (param s0) (param I) →
     ∃ s w2,
       readIndex' s0 w1 = Ret s w2 ∧
       same_parameters (param s) (param I) ∧
       minmerIndex s = minmerIndex I ∧
       minmerPosLookupIndex s = minmerPosLookupIndex I ∧
       frequentSeeds s = frequentSeeds I) ∧
    (¬ same_parameters (param s0) (param I) →
     ∃ w2, readIndex' s0 w1 = Exit 1 w2).
Proof.
  intros [(Hseg & Hsk & Hk) Hmc Hmi [Hkc Hkmax] Hes [Hsc Hsmax] Hss]
    Hpath Hidx Hfs.
  exists (mkWorld (<[indexFilename (param I) := index_bytes' I]> (files w))
            (cerr w) (idManager w) (calls w ++ ["writeIndex"])).
  split; [reflexivity|].
  assert (Hread : ∀ s,
    readIndex' s
      (mkWorld (<[indexFilename (param I) := index_bytes' I]> (files w))
         (cerr w) (idManager w) (calls w ++ ["writeIndex"]))
    = (inStream ← readParameters segLength_raw sketchSize_raw kmerSize_raw
                    s (index_bytes' I);
       '(s, inStream) ← readSketchBinary size_raw MinmerInfo_raw s inStream;
       '(s, inStream) ←
          readPosListBinary size_raw key_raw IntervalPoint_raw s inStream;
       '(s, inStream) ← readFreqKmersBinary size_raw key_raw s inStream;
       mret s)
        (mkWorld (<[indexFilename (param I) := index_bytes' I]> (files w))
           (cerr w) (idManager w) (calls w ++ ["writeIndex"; "readIndex"])) ∨
    indexFilename (param s) ≠ indexFilename (param I)).
  { intros s. destruct (decide (indexFilename (param s)
                                = indexFilename (param I))) as [He | Hne];
      [left|by right].
    unfold readIndex. unfold mbind at 1 2. unfold M_bind at 1 2.
    unfold enter, open_read. cbn [files cerr idManager calls].
    rewrite He, lookup_insert_eq. by rewrite <- app_assoc. }
  split.
  - intros (Es & Ek & Ekm).
    destruct (Hread s0) as [-> | Hne]; [|done].
    rewrite index_bytes_eq.
    unfold mbind at 1. unfold M_bind at 1.
    rewrite readParameters_eval by done.
    rewrite !bool_decide_eq_false_2 by (intros H; by apply H). cbn [orb].
    unfold mbind at 1. unfold M_bind at 1.
    rewrite readSketchBinary_written by done.
    unfold mbind at 1. unfold M_bind at 1.
    rewrite readPosListBinary_written by done.
    unfold mbind at 1. unfold M_bind at 1.
    rewrite <- (app_nil_r (concat _)).
    rewrite readFreqKmersBinary_written by done.
    eexists _, _. split; [reflexivity|]. by repeat split.
  - intros Hne. destruct (Hread s0) as [-> | Hne']; [|done].
    rewrite index_bytes_eq.
    unfold mbind at 1. unfold M_bind at 1.
    rewrite readParameters_eval by done.
    assert (Hc : bool_decide (segLength (param s0) ≠ segLength (param I))
                 || bool_decide (sketchSize (param s0) ≠ sketchSize (param I))
                 || bool_decide (kmerSize (param s0) ≠ kmerSize (param I))
                 = true).
    { apply not_false_iff_true. intros Hf.
      apply orb_false_iff in Hf as [Hf H3].
      apply orb_false_iff in Hf as [H1 H2].
      apply bool_decide_eq_false in H1, H2, H3.
      apply Hne. repeat split; by apply dec_stable. }
    rewrite Hc. by eexists.
Qed.

End index_file.

(** ** The state after [build] *)

Section build_state.
Import skch.
Context (for_each_seq_in_file : string → list string → list (string * string)).
Context (addMinmers : string → Z → Z → Z → Z → Z → Z → list MinmerInfo).
Context (delivery : list (list MinmerInfo) → list (list MinmerInfo)).

Lemma bind_Ret_inv {A B} (m : M A) (f : A → M B) w b w' :
  (m ≫= f) w = Ret b w' → ∃ a w1, m w = Ret a w1 ∧ f a w1 = Ret b w'.
Proof.
  unfold mbind, M_bind. destruct (m w) as [a w1| |]; [|done..].
  intros H. by exists a, w1.
Qed.

Lemma same_but_metadata_refl s : same_but_metadata s s.
Proof. exists (metadata s). by destruct s. Qed.

Lemma same_but_metadata_trans s1 s2 s3 :
  same_but_metadata s1 s2 → same_but_metadata s2 s3 → same_but_metadata s1 s3.
Proof. intros [md1 ->] [md2 ->]. by exists md2. Qed.

Lemma build_seq_sketch a e w a' w' :
  build_seq addMinmers a e w = Ret a' w' →
  same_but_metadata (acc_sketch a) (acc_sketch a').
Proof.
  destruct e as [seq_name seq]. unfold build_seq. case_bool_decide as Hlen.
  - intros (seqId & w1 & _ & H)%bind_Ret_inv.
    apply bind_Ret_inv in H as (? & w2 & _ & H).
    injection H as <- _. simpl. by eexists.
  - intros (? & w1 & _ & H)%bind_Ret_inv.
    injection H as <- _. simpl. apply same_but_metadata_refl.
Qed.

Lemma foldM_build_seq_sketch l : ∀ a w a' w',
  foldM (build_seq addMinmers) a l w = Ret a' w' →
  same_but_metadata (acc_sketch a) (acc_sketch a').
Proof.
  induction l as [|e l IH]; intros a w a' w'; simpl.
  - intros H. injection H as <- _. apply same_but_metadata_refl.
  - intros (a1 & w1 & H1 & H2)%bind_Ret_inv.
    eapply same_but_metadata_trans; [by eapply build_seq_sketch|by eapply IH].
Qed.

Lemma foldM_build_file_sketch targets l : ∀ a w a' w',
  foldM (build_file for_each_seq_in_file addMinmers targets) a l w
  = Ret a' w' →
  same_but_metadata (acc_sketch a) (acc_sketch a').
Proof.
  induction l as [|f l IH]; intros a w a' w'; simpl.
  - intros H. injection H as <- _. apply same_but_metadata_refl.
  - intros (a1 & w1 & H1 & H2)%bind_Ret_inv.
    unfold build_file in H1.
    apply bind_Ret_inv in H1 as (? & w0 & _ & H1).
    eapply same_but_metadata_trans;
      [by eapply foldM_build_seq_sketch|by eapply IH].
Qed.

(** When [build(true)] returns to the constructor, the sketch is the
    freshly constructed one, with the metadata collected, after handling
    some sequence of thread outputs. *)
Lemma build_true_state p md sbf targets w s w' :
  build for_each_seq_in_file addMinmers delivery true targets
    (Sketch_new p md sbf) w = Ret s w' →
  ∃ md' sbf' outputs, s = accumulate (Sketch_new p md' sbf') outputs.
Proof.
  unfold build. intros (? & w1 & _ & H)%bind_Ret_inv.
  apply bind_Ret_inv in H as (s1 & w2 & H1 & H2).
  assert (s1 = s) as ->.
  { apply bind_Ret_inv in H2 as (? & w3 & _ & H2).
    case_bool_decide as He; [|by injection H2].
    by apply bind_Ret_inv in H2 as (? & ? & _ & H2). }
  clear H2.
  apply bind_Ret_inv in H1 as (a & w3 & Hfold & H1).
  apply bind_Ret_inv in H1 as (n & w4 & _ & H1).
  apply bind_Ret_inv in H1 as (? & w5 & _ & H1).
  repeat (apply bind_Ret_inv in H1 as (? & ? & _ & H1)).
  injection H1 as <- _.
  apply foldM_build_file_sketch in Hfold as [md' Hs]. simpl in Hs.
  rewrite Hs. by exists md', (sbf ++ [n]), (delivery (acc_outputs a)).
Qed.

End build_state.

(** ** Little-endian layouts, for the examples

    Unsigned and two's complement integers of [n] bytes, records as the
    concatenation of their fields: the widths of the specification's data
    model (64-bit hashes, offsets and counts, 32-bit sequence ids). *)

Section layouts.
Import skch.

Lemma le_bytes_length n z : length (le_bytes n z) = n.
Proof. revert z. induction n as [|n IH]; intros z; simpl; [done|]. by rewrite IH. Qed.

Lemma le_value_bytes n z :
  0 ≤ z < 256 ^ Z.of_nat n → le_value (le_bytes n z) = z.
Proof.
  revert z. induction n as [|n IH]; intros z Hz.
  - simpl in *. lia.
  - cbn [le_bytes le_value]. rewrite Nat2Z.inj_succ, Z.pow_succ_r in Hz by lia.
    rewrite IH.
    + pose proof (Z.div_mod z 256). lia.
    + split; [apply Z.div_pos; lia|]. apply Z.div_lt_upper_bound; lia.
Qed.

Definition unsigned_raw (n : nat) : Raw Z :=
  mkRaw Z n (le_bytes n) le_value (λ z, 0 ≤ z < 256 ^ Z.of_nat n) _
    (le_bytes_length n) (le_value_bytes n).

Definition signed_of (n : nat) (bytes : list Z) : Z :=
  let v := le_value bytes in
  if bool_decide (2 * v < 256 ^ Z.of_nat n) then v else v - 256 ^ Z.of_nat n.

Lemma signed_length n z : length (le_bytes n (z mod 256 ^ Z.of_nat n)) = n.
Proof. apply le_bytes_length. Qed.

Lemma signed_of_bytes n z :
  - 256 ^ Z.of_nat n ≤ 2 * z < 256 ^ Z.of_nat n →
  signed_of n (le_bytes n (z mod 256 ^ Z.of_nat n)) = z.
Proof.
  intros Hz. unfold signed_of. set (m := 256 ^ Z.of_nat n) in *.
  assert (Hm : 0 < m) by (subst m; apply Z.pow_pos_nonneg; lia).
  rewrite le_value_bytes by (by apply Z.mod_pos_bound).
  destruct (decide (0 ≤ z)) as [Hpos | Hneg].
  - rewrite Z.mod_small by lia. by rewrite bool_decide_eq_true_2 by lia.
  - replace (z mod m) with (z + m)
      by (apply Z.mod_unique with (-1); lia).
    rewrite bool_decide_eq_false_2 by lia. lia.
Qed.

Definition signed_raw (n : nat) : Raw Z :=
  mkRaw Z n (λ z, le_bytes n (z mod 256 ^ Z.of_nat n)) (signed_of n)
    (λ z, - 256 ^ Z.of_nat n ≤ 2 * z < 256 ^ Z.of_nat n) _
    (signed_length n) (signed_of_bytes n).

Lemma prod_raw_length {A B} (RA : Raw A) (RB : Raw B) (p : A * B) :
  length (to_raw p.1 ++ to_raw p.2)
  = (raw_size (Raw := RA) + raw_size (Raw := RB))%nat.
Proof. by rewrite length_app, !to_raw_length. Qed.

Lemma prod_raw_inv {A B} (RA : Raw A) (RB : Raw B) (p : A * B) :
  raw_ok p.1 ∧ raw_ok p.2 →
  (of_raw (take (raw_size (Raw := RA)) (to_raw p.1 ++ to_raw p.2)),
   of_raw (drop (raw_size (Raw := RA)) (to_raw p.1 ++ to_raw p.2))) = p.
Proof.
  intros [H1 H2]. destruct p as [a b]. simpl in *.
  rewrite take_app_length', drop_app_length' by (by rewrite to_raw_length).
  by rewrite !of_to_raw.
Qed.

Definition prod_raw {A B} (RA : Raw A) (RB : Raw B) : Raw (A * B) :=
  mkRaw (A * B) (raw_size (Raw := RA) + raw_size (Raw := RB))
    (λ p, to_raw p.1 ++ to_raw p.2)
    (λ bytes, (of_raw (take (raw_size (Raw := RA)) bytes),
               of_raw (drop (raw_size (Raw := RA)) bytes)))
    (λ p, raw_ok p.1 ∧ raw_ok p.2) _
    (prod_raw_length RA RB) (prod_raw_inv RA RB).

Lemma iso_raw_inv {A B} (f : A → B) (g : B → A) (R : Raw A) :
  (∀ b, f (g b) = b) → ∀ b, raw_ok (g b) → f (of_raw (to_raw (g b))) = b.
Proof. intros Hfg b Hb. by rewrite of_to_raw. Qed.

Definition iso_raw {A B} (f : A → B) (g : B → A) (Hfg : ∀ b, f (g b) = b)
    (R : Raw A) : Raw B :=
  mkRaw B (raw_size (Raw := R)) (λ b, to_raw (g b)) (λ bytes, f (of_raw bytes))
    (λ b, raw_ok (g b)) _ (λ b, to_raw_length (g b)) (iso_raw_inv f g R Hfg).

Definition u64_raw : Raw Z := unsigned_raw 8.
Definition i64_raw : Raw Z := signed_raw 8.
Definition i32_raw : Raw Z := signed_raw 4.

Definition side_of_Z (z : Z) : side := if bool_decide (z = 0) then OPEN else CLOSE.
Definition Z_of_side (sd : side) : Z := match sd with OPEN => 0 | CLOSE => 1 end.

Lemma side_of_Z_of_side sd : side_of_Z (Z_of_side sd) = sd.
Proof. by destruct sd. Qed.

Definition side_raw : Raw side :=
  iso_raw side_of_Z Z_of_side side_of_Z_of_side (unsigned_raw 4).

Definition MinmerInfo_fields (mi : MinmerInfo) : Z * (Z * (Z * (Z * Z))) :=
  (hash mi, (wpos mi, (wpos_end mi, (seqId mi, strand mi)))).

Definition MinmerInfo_of_fields (t : Z * (Z * (Z * (Z * Z)))) : MinmerInfo :=
  mkMinmerInfo t.1 t.2.1 t.2.2.1 t.2.2.2.1 t.2.2.2.2.

Lemma MinmerInfo_of_fields_inv mi :
  MinmerInfo_of_fields (MinmerInfo_fields mi) = mi.
Proof. by destruct mi. Qed.

Definition MinmerInfo_le : Raw MinmerInfo :=
  iso_raw MinmerInfo_of_fields MinmerInfo_fields MinmerInfo_of_fields_inv
    (prod_raw u64_raw
       (prod_raw i64_raw (prod_raw i64_raw (prod_raw i32_raw i32_raw)))).

Definition IntervalPoint_fields (ip : IntervalPoint) : Z * (Z * (Z * side)) :=
  (pos ip, (ip_hash ip, (ip_seqId ip, ip_side ip))).

Definition IntervalPoint_of_fields (t : Z * (Z * (Z * side))) : IntervalPoint :=
  mkIntervalPoint t.1 t.2.1 t.2.2.1 t.2.2.2.

Lemma IntervalPoint_of_fields_inv ip :
  IntervalPoint_of_fields (IntervalPoint_fields ip) = ip.
Proof. by destruct ip. Qed.

Definition IntervalPoint_le : Raw IntervalPoint :=
  iso_raw IntervalPoint_of_fields IntervalPoint_fields
    IntervalPoint_of_fields_inv
    (prod_raw i64_raw (prod_raw u64_raw (prod_raw i32_raw side_raw))).

End layouts.

(** ** Examples of index files *)

Module io_examples.
Import skch.

(** No sequence files, no minmers; the pool hands the outputs back in
    submission order. *)
Definition no_sequences (fileName : string) (targets : list string)
    : list (string * string) := [].

Definition no_minmers (seq : string) (len k w a s id : Z) : list MinmerInfo :=
  [].

Definition in_order (outputs : list (list MinmerInfo))
    : list (list MinmerInfo) := outputs.

(** Parameters (seg=500, k=[k], s=7) with the index file [ref.idx]. *)
Definition indexed_params (k : Z) : Parameters :=
  mkParameters "ref.idx" false false ["ref.fa"] 500 7 k 4 1 (50 # 1).

(** A world in which [ref.idx] exists. *)
Definition world_with_index (bytes : list Z) : World :=
  mkWorld {[ "ref.idx" := bytes ]} [] [] [].

Definition empty_world : World := mkWorld ∅ [] [] [].

(** The pruned index of [examples.four_hashes], under the parameters
    (seg=500, k=19, s=7). *)
Definition pruned : Sketch :=
  dropFreqSeedSet
    (computeFreqSeedSet
       (computeFreqHist_with 2
          (accumulate (Sketch_new (indexed_params 19) [] [])
             [[examples.minmer 11 0 5 0; examples.minmer 12 1 6 0;
               examples.minmer 13 2 7 0; examples.minmer 14 3 8 0;
               examples.minmer 11 10 15 0]]))).

End io_examples.

Section load_claim.
Import skch.
Context (size_raw key_raw segLength_raw sketchSize_raw kmerSize_raw : Raw Z).
Context (MinmerInfo_raw : Raw MinmerInfo).
Context (IntervalPoint_raw : Raw IntervalPoint).
Context (for_each_seq_in_file : string → list string → list (string * string)).
Context (addMinmers : string → Z → Z → Z → Z → Z → Z → list MinmerInfo).
Context (delivery : list (list MinmerInfo) → list (list MinmerInfo)).

(** C3: when the constructor takes the branch that loads an existing index
    (the file name is not empty, the file exists, [overwrite_index] is
    off), [build(false)] runs on the still empty minmer index, its final
    check prints the empty-sketch error and the process exits with code 1:
    the methods entered are [initialize] and [build] only, [readIndex] never
    runs. *)
Theorem load_branch_exits p md sbf targets w bytes :
  indexFilename p ≠ "" →
  files w !! indexFilename p = Some bytes →
  overwrite_index p = false →
  Sketch_ctor size_raw key_raw segLength_raw sketchSize_raw kmerSize_raw
    MinmerInfo_raw IntervalPoint_raw for_each_seq_in_file addMinmers delivery
    p md sbf targets w
  = Exit 1
      (mkWorld (files w) (cerr w ++ empty_sketch_messages) (idManager w)
         (calls w ++ ["initialize"; "build"])).
Proof.
  intros Hname Hfile Hover. unfold Sketch_ctor.
  by apply initialize_load_branch with bytes.
Qed.

Lemma computeFreqHist_returns s w :
  ∃ w', computeFreqHist s w = Ret (computeFreqHist_state s) w' ∧
        files w' = files w.
Proof.
  unfold computeFreqHist, computeFreqHist_state, computeFreqHist_with.
  unfold mbind, M_bind, enter, print, mret, M_ret.
  case_bool_decide as He; simpl; [by eexists|].
  case_bool_decide; simpl; by eexists.
Qed.

(** Whenever the constructor returns, it has built the index: the sketch
    is the pruned accumulation of some sequence of thread outputs on the
    freshly constructed state, with [hashFreq] cleared. *)
Lemma constructed_state p md sbf targets w s w' :
  Sketch_ctor size_raw key_raw segLength_raw sketchSize_raw kmerSize_raw
    MinmerInfo_raw IntervalPoint_raw for_each_seq_in_file addMinmers delivery
    p md sbf targets w = Ret s w' →
  ∃ md' sbf' outputs,
    s = set_isInitialized true
          (set_hashFreq ∅
             (prune (accumulate (Sketch_new p md' sbf') outputs))).
Proof.
  unfold Sketch_ctor, initialize.
  intros (? & w1 & _ & H)%bind_Ret_inv.
  apply bind_Ret_inv in H as (? & w2 & _ & H).
  apply bind_Ret_inv in H as (ex & w3 & Hex & H).
  apply bind_Ret_inv in H as (s1 & w4 & Hbranch & H).
  repeat (apply bind_Ret_inv in H as (? & ? & _ & H)).
  injection H as <- _.
  destruct (_ || _) in Hbranch.
  - apply bind_Ret_inv in Hbranch as (s2 & w5 & Hbuild & Hbranch).
    apply bind_Ret_inv in Hbranch as (s3 & w6 & Hhist & Hbranch).
    repeat (apply bind_Ret_inv in Hbranch as (? & ? & _ & Hbranch)).
    injection Hbranch as <- _.
    apply build_true_state in Hbuild as (md' & sbf' & outputs & ->).
    destruct (computeFreqHist_returns
                (accumulate (Sketch_new p md' sbf') outputs) w5)
      as (w7 & Hret & _).
    rewrite Hret in Hhist. injection Hhist as <- _.
    by exists md', sbf', outputs.
  - apply bind_Ret_inv in Hbranch as (s2 & w5 & Hbuild & _).
    by rewrite build_false_empty in Hbuild.
Qed.

(** So the invariants of the accumulation hold of every constructed
    sketch: pruning and the final updates leave the positions map alone. *)
Lemma constructed_index_inv p md sbf targets w s w' :
  Sketch_ctor size_raw key_raw segLength_raw sketchSize_raw kmerSize_raw
    MinmerInfo_raw IntervalPoint_raw for_each_seq_in_file addMinmers delivery
    p md sbf targets w = Ret s w' →
  index_inv (minmerPosLookupIndex s).
Proof.
  intros (md' & sbf' & outputs & ->)%constructed_state.
  assert (minmerPosLookupIndex
            (set_isInitialized true
               (set_hashFreq ∅
                  (prune (accumulate (Sketch_new p md' sbf') outputs))))
          = minmerPosLookupIndex (accumulate (Sketch_new p md' sbf') outputs))
    as ->.
  { unfold prune, computeFreqHist_state. simpl.
    by destruct (computeFreqHist_with_frame
                   (minmerToIgnore_of
                      (totalUniqueMinmers
                         (accumulate (Sketch_new p md' sbf') outputs))
                      (kmer_pct_threshold
                         (param (accumulate (Sketch_new p md' sbf') outputs))))
                   (accumulate (Sketch_new p md' sbf') outputs)) as (-> & _). }
  apply built_index_inv.
Qed.

End load_claim.

Section io_witnesses.
Import skch.

Lemma load_branch_exits_witness :
  indexFilename (io_examples.indexed_params 19) ≠ "" ∧
  files (io_examples.world_with_index [1; 2; 3])
    !! indexFilename (io_examples.indexed_params 19) = Some [1; 2; 3] ∧
  overwrite_index (io_examples.indexed_params 19) = false ∧
  Sketch_ctor u64_raw u64_raw u64_raw u64_raw u64_raw MinmerInfo_le
    IntervalPoint_le io_examples.no_sequences io_examples.no_minmers
    io_examples.in_order (io_examples.indexed_params 19) [] [] []
    (io_examples.world_with_index [1; 2; 3])
  = Exit 1
      (mkWorld (files (io_examples.world_with_index [1; 2; 3]))
         (cerr (io_examples.world_with_index [1; 2; 3])
          ++ empty_sketch_messages)
         (idManager (io_examples.world_with_index [1; 2; 3]))
         (calls (io_examples.world_with_index [1; 2; 3])
          ++ ["initialize"; "build"])).
Proof.
  assert (H1 : indexFilename (io_examples.indexed_params 19) ≠ "")
    by (vm_compute; discriminate).
  assert (H2 : files (io_examples.world_with_index [1; 2; 3])
                 !! indexFilename (io_examples.indexed_params 19)
               = Some [1; 2; 3]) by (vm_compute; reflexivity).
  assert (H3 : overwrite_index (io_examples.indexed_params 19) = false)
    by reflexivity.
  split; [exact H1|]. split; [exact H2|]. split; [exact H3|].
  exact (load_branch_exits u64_raw u64_raw u64_raw u64_raw u64_raw
           MinmerInfo_le IntervalPoint_le io_examples.no_sequences
           io_examples.no_minmers io_examples.in_order
           (io_examples.indexed_params 19) [] [] []
           (io_examples.world_with_index [1; 2; 3]) [1; 2; 3] H1 H2 H3).
Defined.

(** Scenario S3: an index built with (seg=500, k=19, s=7) and loaded with
    k=17. *)
Lemma readParameters_checks_witness :
  raw_ok (Raw := u64_raw) 500 ∧ raw_ok (Raw := u64_raw) 7 ∧
  raw_ok (Raw := u64_raw) 19 ∧
  kmerSize (io_examples.indexed_params 17) ≠ 19 ∧
  readParameters u64_raw u64_raw u64_raw
    (Sketch_new (io_examples.indexed_params 17) [] [])
    (param_block u64_raw u64_raw u64_raw 500 7 19 ++ [])
    io_examples.empty_world
  = Exit 1
      (mkWorld ∅ (mismatch_diagnostic 500 7 19 (io_examples.indexed_params 17))
         [] ["readParameters"]) ∧
  shows "kmerSize" 19
    (mismatch_diagnostic 500 7 19 (io_examples.indexed_params 17)) = true ∧
  shows "kmerSize" 17
    (mismatch_diagnostic 500 7 19 (io_examples.indexed_params 17)) = true.
Proof.
  assert (H1 : raw_ok (Raw := u64_raw) 500)
    by (apply (bool_decide_unpack _); vm_compute; exact I).
  assert (H2 : raw_ok (Raw := u64_raw) 7)
    by (apply (bool_decide_unpack _); vm_compute; exact I).
  assert (H3 : raw_ok (Raw := u64_raw) 19)
    by (apply (bool_decide_unpack _); vm_compute; exact I).
  assert (H4 : kmerSize (io_examples.indexed_params 17) ≠ 19)
    by (vm_compute; discriminate).
  split; [exact H1|]. split; [exact H2|]. split; [exact H3|].
  split; [exact H4|].
  destruct (readParameters_checks u64_raw u64_raw u64_raw
              (Sketch_new (io_examples.indexed_params 17) [] [])
              io_examples.empty_world 500 7 19 [] H1 H2 H3)
    as [Hbad _].
  destruct Hbad as (Hrun & _ & _ & Hk); [right; right; exact H4|].
  split; [exact Hrun|]. exact (Hk H4).
Defined.

Lemma index_round_trip_witness :
  index_ok u64_raw u64_raw u64_raw u64_raw u64_raw MinmerInfo_le
    IntervalPoint_le io_examples.pruned ∧
  (∃ w1 s w2,
     writeIndex u64_raw u64_raw u64_raw u64_raw u64_raw MinmerInfo_le
       IntervalPoint_le io_examples.pruned io_examples.empty_world
     = Ret () w1 ∧
     readIndex u64_raw u64_raw u64_raw u64_raw u64_raw MinmerInfo_le
       IntervalPoint_le (Sketch_new (io_examples.indexed_params 19) [] []) w1
     = Ret s w2 ∧
     minmerIndex s = minmerIndex io_examples.pruned ∧
     minmerPosLookupIndex s = minmerPosLookupIndex io_examples.pruned ∧
     frequentSeeds s = frequentSeeds io_examples.pruned) ∧
  (∃ w1 w2,
     writeIndex u64_raw u64_raw u64_raw u64_raw u64_raw MinmerInfo_le
       IntervalPoint_le io_examples.pruned io_examples.empty_world
     = Ret () w1 ∧
     readIndex u64_raw u64_raw u64_raw u64_raw u64_raw MinmerInfo_le
       IntervalPoint_le (Sketch_new (io_examples.indexed_params 17) [] []) w1
     = Exit 1 w2).
Proof.
  assert (Hok : index_ok u64_raw u64_raw u64_raw u64_raw u64_raw MinmerInfo_le
                  IntervalPoint_le io_examples.pruned).
  { split; unfold params_ok;
      apply (bool_decide_unpack _); vm_compute; exact I. }
  split; [exact Hok|]. split.
  - destruct (index_round_trip u64_raw u64_raw u64_raw u64_raw u64_raw
                MinmerInfo_le IntervalPoint_le io_examples.pruned
                (Sketch_new (io_examples.indexed_params 19) [] [])
                io_examples.empty_world Hok eq_refl eq_refl eq_refl)
      as (w1 & Hw & Hsame & _).
    destruct Hsame as (s & w2 & Hr & _ & Hm & Hp & Hf);
      [repeat split; reflexivity|].
    exists w1, s, w2. repeat split; assumption.
  - destruct (index_round_trip u64_raw u64_raw u64_raw u64_raw u64_raw
                MinmerInfo_le IntervalPoint_le io_examples.pruned
                (Sketch_new (io_examples.indexed_params 17) [] [])
                io_examples.empty_world Hok eq_refl eq_refl eq_refl)
      as (w1 & Hw & _ & Hdiff).
    destruct Hdiff as [w2 Hr];
      [intros (_ & _ & Hk); vm_compute in Hk; discriminate|].
    exists w1, w2. split; assumption.
Defined.

End io_witnesses.

(** ** The mapping-row parser *)

Section parse_lemmas.
Import align.
Context {float : Type}.
Context (split : string → ascii → list string).
Context (is_a_number : string → bool).
Context (stof : string → option float).
Context (percentage_identity : float).

(** Fewer than nine tokens: the assertion fails. *)
Lemma parse_few_tokens line (record : MappingBoundaryRow float) :
  (length (tokenize line) < 9)%nat →
  parseMashmapRow split is_a_number stof percentage_identity line record
  = AssertionFailed.
Proof.
  intros Hlt. unfold parseMashmapRow.
  by rewrite (proj2 (Nat.leb_gt 9 (length (tokenize line))) Hlt).
Qed.

(** Nine to twelve tokens: the assertion holds and [tokens[12]] is past
    the end. *)
Lemma parse_no_identity_token line (record : MappingBoundaryRow float) :
  (9 ≤ length (tokenize line) < 13)%nat →
  parseMashmapRow split is_a_number stof percentage_identity line record
  = OutOfRange 12 (length (tokenize line)).
Proof.
  intros [Hge Hlt]. unfold parseMashmapRow. cbv zeta.
  rewrite (proj2 (Nat.leb_le 9 (length (tokenize line))) Hge). cbn [negb].
  unfold at_index. rewrite (lookup_ge_None_2 (tokenize line) 12) by lia.
  reflexivity.
Qed.

(** Thirteen tokens or more, with decimal coordinates: the record is
    filled from the tokens 0, 2, 3, 4, 5, 7 and 8, and the identity is the
    number in the last field of token 12, or the default when that field is
    not a number. *)
Lemma parse_complete_line line (record : MappingBoundaryRow float)
    t0 t1 t2 t3 t4 t5 t6 t7 t8 t9 t10 t11 t12 more field qs qe rs re :
  tokenize line
    = t0 :: t1 :: t2 :: t3 :: t4 :: t5 :: t6 :: t7 :: t8 :: t9 :: t10 :: t11
      :: t12 :: more →
  last (split t12 ":"%char) = Some field →
  (is_a_number field = true → is_Some (stof field)) →
  stoi t2 = Parsed qs → stoi t3 = Parsed qe →
  stoi t7 = Parsed rs → stoi t8 = Parsed re →
  parseMashmapRow split is_a_number stof percentage_identity line record
  = Parsed
      {| qId := t0; refId := t5;
         qStartPos := qs; qEndPos := qe; rStartPos := rs; rEndPos := re;
         strand := if bool_decide (t4 = "+") then FWD else REV;
         mashmap_estimated_identity :=
           if is_a_number field
           then default percentage_identity (stof field)
           else percentage_identity;
         rankMapping := rankMapping record |}.
Proof.
  intros Htok Hfield Hnum Hqs Hqe Hrs Hre. unfold parseMashmapRow.
  rewrite Htok. cbn [length Nat.leb negb]. unfold at_index.
  cbn [lookup list_lookup]. cbn [mbind parsed_bind].
  rewrite Hfield. cbn [mbind parsed_bind].
  destruct (is_a_number field) eqn:Enum.
  - destruct (Hnum eq_refl) as [x Hx]. rewrite Hx. cbn [mbind parsed_bind].
    rewrite Hqs, Hqe, Hrs, Hre. reflexivity.
  - cbn [mbind parsed_bind]. rewrite Hqs, Hqe, Hrs, Hre. reflexivity.
Qed.

(** C8, on the code: the line of scenario S4 cut after its ninth token, and
    the same line with the twelve mandatory columns and no identity tag,
    pass the assertion and make [parseMashmapRow] read [tokens[12]] of a
    vector of nine, of twelve, whatever the helpers are; the default
    identity is not substituted. *)
Theorem parse_nine_tokens_out_of_range (record : MappingBoundaryRow float) :
  tokenize align_examples.nine_tokens
    = ["q0"; "10000"; "0"; "100"; "+"; "r0"; "2000"; "50"; "150"] ∧
  parseMashmapRow split is_a_number stof percentage_identity
    align_examples.nine_tokens record
  = OutOfRange 12 9 ∧
  parseMashmapRow split is_a_number stof percentage_identity
    align_examples.twelve_tokens record
  = OutOfRange 12 12.
Proof. repeat split; reflexivity. Qed.

End parse_lemmas.

(** ** The reference padding *)

Section padding.
Import align.
Context {float : Type}.
Context (makeUpperCaseAndValidDNA : string → string).
Context (reverseComplement : string → string).
Context (to_string : Z → string).
Context (wflign_affine_wavefront : Parameters → kernel_call float → string).




End padding.

Section align_witnesses.
Import align.



End align_witnesses.

(** ** The pipeline *)

Section pipeline_claims.
Import align.
Context {float : Type}.
Context (parse : string → MappingBoundaryRow float
                 → parsed (MappingBoundaryRow float)).
Context (align : MappingBoundaryRow float → nat → option string).

Lemma run_cons t schedule (st st' : pipeline float) :
  step parse align t st = Some st' →
  run parse align (t :: schedule) st = run parse align schedule st'.
Proof. intros H. simpl. by rewrite H. Qed.

(** One step of the schedule, on a state whose fields are explicit. *)
Ltac run_step tac :=
  erewrite run_cons;
    [|cbn; tac; unfold set_worker, set_reader, set_writer; cbn; reflexivity].

(** C10, on the code: with one worker and a mapping file of one line that
    parses and aligns to a result that is not empty, the schedule in which
    the worker finds [seq_queue] empty, the reader then pushes the record
    and stores [reader_done], and the worker only then loads [reader_done],
    lets every thread finish: the record stays in [seq_queue] and nothing
    is written, where one result is expected. *)
Theorem pipeline_drops_record line (record r : MappingBoundaryRow float)
    (out : string) :
  line ≠ "" →
  parse line record = Parsed r →
  align r 0%nat = Some out →
  out ≠ "" →
  expected_output parse align [line] record 0 = [out] ∧
  ∃ st,
    run parse align align_examples.losing_schedule (launch 1 [line] record)
      = Some st ∧
    joined st = true ∧
    outstrm st = [] ∧
    paf_queue st = [] ∧
    seq_queue st = [mkSeqRecord r line].
Proof.
  intros Hline Hparse Halign Hout. split.
  - simpl. rewrite (bool_decide_eq_false_2 _ Hline), Hparse, Halign.
    by rewrite (bool_decide_eq_false_2 _ Hout).
  - eexists. split.
    + unfold align_examples.losing_schedule, launch.
      run_step idtac.                       (* worker: working[0] = true *)
      run_step idtac.                       (* worker: try_pop fails *)
      run_step ltac:(rewrite (bool_decide_eq_false_2 _ Hline), Hparse).
      run_step idtac.                       (* reader: push *)
      run_step idtac.                       (* reader: reader_done = true *)
      run_step idtac.                       (* worker: loads reader_done *)
      run_step idtac.                       (* worker: working[0] = false *)
      run_step idtac.                       (* writer: try_pop fails *)
      run_step idtac.                       (* writer: nobody is working *)
      reflexivity.
    + done.
Qed.

(** On the schedule in which the reader runs first, then the worker, then
    the writer, the same line gives its result. *)
Lemma pipeline_delivers_in_turn line (record r : MappingBoundaryRow float)
    (out : string) :
  line ≠ "" →
  parse line record = Parsed r →
  align r 0%nat = Some out →
  out ≠ "" →
  ∃ st,
    run parse align
      [Reader; Reader; Reader; Worker 0; Worker 0; Worker 0; Worker 0;
       Worker 0; Worker 0; Writer; Writer; Writer]
      (launch 1 [line] record) = Some st ∧
    joined st = true ∧
    outstrm st = [out].
Proof.
  intros Hline Hparse Halign Hout. eexists. split.
  - unfold launch.
    run_step ltac:(rewrite (bool_decide_eq_false_2 _ Hline), Hparse).
    run_step idtac.                         (* reader: push *)
    run_step idtac.                         (* reader: reader_done = true *)
    run_step idtac.                         (* worker: working[0] = true *)
    run_step ltac:(rewrite Halign, (bool_decide_eq_false_2 _ Hout)).
    run_step idtac.                         (* worker: push the result *)
    run_step idtac.                         (* worker: try_pop fails *)
    run_step idtac.                         (* worker: loads reader_done *)
    run_step idtac.                         (* worker: working[0] = false *)
    run_step idtac.                         (* writer: pops and writes *)
    run_step idtac.                         (* writer: try_pop fails *)
    run_step idtac.                         (* writer: nobody is working *)
    reflexivity.
  - done.
Qed.

End pipeline_claims.

Section pipeline_witness.
Import align.

Lemma pipeline_drops_record_witness :
  align_examples.s4_line ≠ "" ∧
  align_examples.parse align_examples.s4_line align_examples.blank_record
    = Parsed align_examples.s4_record ∧
  align_examples.do_alignment align_examples.s4_record 0%nat
    = Some "aligned\n" ∧
  expected_output align_examples.parse align_examples.do_alignment
    [align_examples.s4_line] align_examples.blank_record 0
    = ["aligned\n"] ∧
  ∃ st,
    run align_examples.parse align_examples.do_alignment
      align_examples.losing_schedule
      (launch 1 [align_examples.s4_line] align_examples.blank_record)
      = Some st ∧
    joined st = true ∧ outstrm st = [].
Proof.
  assert (H1 : align_examples.s4_line ≠ "") by (vm_compute; discriminate).
  assert (H2 : align_examples.parse align_examples.s4_line
                 align_examples.blank_record
               = Parsed align_examples.s4_record)
    by (vm_compute; reflexivity).
  assert (H3 : align_examples.do_alignment align_examples.s4_record 0%nat
               = Some "aligned\n") by (vm_compute; reflexivity).
  assert (H4 : "aligned\n" ≠ "") by (vm_compute; discriminate).
  split; [exact H1|]. split; [exact H2|]. split; [exact H3|].
  destruct (pipeline_drops_record align_examples.parse
              align_examples.do_alignment align_examples.s4_line
              align_examples.blank_record align_examples.s4_record
              "aligned\n" H1 H2 H3 H4)
    as (Hexp & st & Hrun & Hjoin & Hout & _).
  split; [exact Hexp|]. exists st. repeat split; assumption.
Defined.

End pipeline_witness.

(** * Further properties *)

(** ** Index construction: what the maps record *)

Section build_counts.
Import skch.

Lemma occurrences_snoc h l mi :
  occurrences h (l ++ [mi])
  = (occurrences h l + (if decide (hash mi = h) then 1 else 0))%nat.
Proof.
  unfold occurrences. rewrite filter_app, length_app, filter_cons, filter_nil.
  by destruct (decide (hash mi = h)).
Qed.

Lemma occurrences_app h l1 l2 :
  occurrences h (l1 ++ l2) = (occurrences h l1 + occurrences h l2)%nat.
Proof. unfold occurrences. by rewrite filter_app, length_app. Qed.

Lemma occurrences_pos h l :
  (0 < occurrences h l)%nat ↔ ∃ mi, mi ∈ l ∧ hash mi = h.
Proof.
  unfold occurrences. split.
  - intros Hpos. destruct (filter _ l) as [|mi l'] eqn:E; [simpl in Hpos; lia|].
    assert (Hin : mi ∈ filter (λ mi, hash mi = h) l) by (rewrite E; by left).
    apply list_elem_of_filter in Hin as [? ?]. by exists mi.
  - intros (mi & Hin & Hh).
    assert (Hf : mi ∈ filter (λ mi, hash mi = h) l)
      by (by apply list_elem_of_filter).
    destruct (filter _ l); [by apply elem_of_nil in Hf|simpl; lia].
Qed.

Lemma to_u64_succ n : to_u64 (to_u64 n + 1) = to_u64 (n + 1).
Proof. unfold to_u64. by rewrite Zplus_mod_idemp_l. Qed.

Lemma counts_inv_new p md sbf : counts_inv (Sketch_new p md sbf) [].
Proof.
  split; simpl.
  - intros h. by rewrite lookup_empty.
  - intros h. rewrite lookup_empty. unfold occurrences. simpl.
    split; [by intros [? ?]|lia].
  - intros h. rewrite lookup_empty. unfold occurrences. simpl.
    split; [by intros [? ?]|lia].
  - intros h pts. by rewrite lookup_empty.
Qed.

Lemma handleMinmer_counts s l mi :
  counts_inv s l → counts_inv (handleMinmer s mi) (l ++ [mi]).
Proof.
  intros [Hf Hfk Hk Hp]. split.
  - intros h. rewrite occurrences_snoc. unfold handleMinmer. simpl.
    destruct (decide (hash mi = h)) as [<- | Hne].
    + rewrite lookup_insert_eq. simpl. rewrite Hf, to_u64_succ.
      f_equal. lia.
    + rewrite lookup_insert_ne by done. rewrite Hf. f_equal. lia.
  - intros h. rewrite occurrences_snoc. unfold handleMinmer. simpl.
    destruct (decide (hash mi = h)) as [<- | Hne].
    + rewrite lookup_insert_eq. split; [lia|eauto].
    + rewrite lookup_insert_ne by done. rewrite Hfk. lia.
  - intros h. rewrite occurrences_snoc. unfold handleMinmer. simpl.
    destruct (decide (hash mi = h)) as [<- | Hne].
    + rewrite lookup_insert_eq. split; [lia|eauto].
    + rewrite lookup_insert_ne by done. rewrite Hk. lia.
  - intros h pts. rewrite occurrences_snoc. unfold handleMinmer. simpl.
    destruct (decide (hash mi = h)) as [<- | Hne].
    2: { rewrite lookup_insert_ne by done. intros Hl.
         specialize (Hp _ _ Hl). lia. }
    rewrite lookup_insert_eq. intros [= <-]. unfold positions_of.
    destruct (minmerPosLookupIndex s !! hash mi) as [L|] eqn:EL; simpl.
    + specialize (Hp _ _ EL).
      destruct (back L) as [b|] eqn:Eb.
      * destruct (_ || _).
        -- rewrite length_app. simpl. lia.
        -- unfold update_back. rewrite length_alter. lia.
      * rewrite length_app. simpl. lia.
    + simpl. lia.
Qed.

Lemma foldl_handleMinmer_counts out : ∀ s l,
  counts_inv s l → counts_inv (foldl handleMinmer s out) (l ++ out).
Proof.
  induction out as [|mi out IH]; intros s l Hinv; simpl.
  - by rewrite app_nil_r.
  - replace (l ++ mi :: out) with ((l ++ [mi]) ++ out)
      by (by rewrite <- app_assoc).
    apply IH. by apply handleMinmer_counts.
Qed.

Lemma foldl_handleMinmer_minmerIndex out : ∀ s,
  minmerIndex (foldl handleMinmer s out) = minmerIndex s.
Proof. induction out as [|mi out IH]; intros s; simpl; [done|]. by rewrite IH. Qed.

Lemma buildHandleThreadOutput_counts s out :
  counts_inv s (minmerIndex s) →
  counts_inv (buildHandleThreadOutput s out)
    (minmerIndex (buildHandleThreadOutput s out)).
Proof.
  intros Hinv. unfold buildHandleThreadOutput. cbv zeta.
  pose proof (foldl_handleMinmer_counts out s _ Hinv) as [Hf Hfk Hk Hp].
  cbn [minmerIndex set_minmerIndex].
  rewrite foldl_handleMinmer_minmerIndex. by split.
Qed.

Lemma buildHandleThreadOutput_minmerIndex s out :
  minmerIndex (buildHandleThreadOutput s out) = minmerIndex s ++ out.
Proof.
  unfold buildHandleThreadOutput. cbn [minmerIndex set_minmerIndex].
  by rewrite foldl_handleMinmer_minmerIndex.
Qed.

Lemma accumulate_minmerIndex outputs : ∀ s,
  minmerIndex (accumulate s outputs) = minmerIndex s ++ concat outputs.
Proof.
  unfold accumulate.
  induction outputs as [|out outputs IH]; intros s; simpl.
  - by rewrite app_nil_r.
  - by rewrite IH, buildHandleThreadOutput_minmerIndex, <- app_assoc.
Qed.

Lemma accumulate_counts outputs : ∀ s,
  counts_inv s (minmerIndex s) →
  counts_inv (accumulate s outputs) (minmerIndex (accumulate s outputs)).
Proof.
  unfold accumulate.
  induction outputs as [|out outputs IH]; intros s Hinv; simpl; [done|].
  apply IH. by apply buildHandleThreadOutput_counts.
Qed.

Lemma built_minmerIndex p md sbf outputs :
  minmerIndex (accumulate (Sketch_new p md sbf) outputs) = concat outputs.
Proof. by rewrite accumulate_minmerIndex. Qed.

Lemma built_counts p md sbf outputs :
  counts_inv (accumulate (Sketch_new p md sbf) outputs) (concat outputs).
Proof.
  pose proof (accumulate_counts outputs (Sketch_new p md sbf)
                (counts_inv_new p md sbf)) as H.
  by rewrite built_minmerIndex in H.
Qed.

(** The minmer table is the concatenation of the thread outputs, in the
    order in which they were handled, and [hashFreq] holds for each hash
    the number of minmers with that hash (as a [uint64_t]); a hash without
    minmer has no entry. *)
Theorem built_minmers_and_frequencies p md sbf
    (outputs : list (list MinmerInfo)) :
  let s := accumulate (Sketch_new p md sbf) outputs in
  minmerIndex s = concat outputs ∧
  ∀ h,
    (hashFreq s !! h = None ↔ occurrences h (minmerIndex s) = 0%nat) ∧
    default 0 (hashFreq s !! h)
    = to_u64 (Z.of_nat (occurrences h (minmerIndex s))).
Proof.
  intros s. subst s. split; [apply built_minmerIndex|].
  intros h. rewrite built_minmerIndex.
  destruct (built_counts p md sbf outputs) as [Hf Hfk _ _].
  split; [|apply Hf]. specialize (Hfk h).
  rewrite <- not_eq_None_Some in Hfk. split.
  - intros Hn. destruct (occurrences h (concat outputs)); [done|].
    exfalso. apply Hfk; [lia|done].
  - intros H0. apply dec_stable. intros Hne. apply Hfk in Hne. lia.
Qed.

(** Before pruning, the keys of the positions map, the keys of [hashFreq]
    and the hashes of the minmer table are the same, and a hash with [n]
    minmers has between one pair and [n] pairs of interval points. *)
Theorem built_keys_are_hashes p md sbf (outputs : list (list MinmerInfo))
    (h : Z) :
  let s := accumulate (Sketch_new p md sbf) outputs in
  (is_Some (minmerPosLookupIndex s !! h) ↔
   ∃ mi, mi ∈ minmerIndex s ∧ hash mi = h) ∧
  (is_Some (hashFreq s !! h) ↔ is_Some (minmerPosLookupIndex s !! h)) ∧
  ∀ pts, minmerPosLookupIndex s !! h = Some pts →
         (2 ≤ length pts ≤ 2 * occurrences h (minmerIndex s))%nat.
Proof.
  intros s. subst s. rewrite built_minmerIndex.
  destruct (built_counts p md sbf outputs) as [_ Hfk Hk Hp].
  split; [|split].
  - by rewrite Hk, occurrences_pos.
  - by rewrite Hk, Hfk.
  - apply Hp.
Qed.

End build_counts.

(** ** Index construction: the intervals cover the windows *)

Section build_cover.
Import skch.

(** The list that [handleMinmer] stores for the hash of its minmer: the
    old list with a new pair, or the old list with its last point moved. *)
Lemma handleMinmer_positions s mi :
  let L := positions_of (minmerPosLookupIndex s) (hash mi) in
  ∃ L', minmerPosLookupIndex (handleMinmer s mi) !! hash mi = Some L' ∧
    (L' = L ++ [mkIntervalPoint (wpos mi) (hash mi) (seqId mi) OPEN;
                mkIntervalPoint (wpos_end mi) (hash mi) (seqId mi) CLOSE] ∨
     ∃ l0 b, L = l0 ++ [b] ∧ ip_hash b = hash mi ∧ pos b = wpos mi ∧
             L' = l0 ++ [set_pos (wpos_end mi) b]).
Proof.
  intros L. unfold handleMinmer. simpl. rewrite lookup_insert_eq.
  eexists. split; [reflexivity|]. fold L.
  destruct (back L) as [b|] eqn:Eb; [|by left].
  destruct (bool_decide (ip_hash b ≠ hash mi)) eqn:E1; [by left|].
  destruct (bool_decide (pos b ≠ wpos mi)) eqn:E2; [by left|].
  right. simpl. apply back_Some_snoc in Eb as [l0 Hl0].
  apply bool_decide_eq_false in E1, E2.
  exists l0, b. rewrite Hl0, update_back_snoc.
  repeat split; by apply dec_stable.
Qed.

Lemma covered_by_app mi l l' i :
  covered_by mi l i → covered_by mi (l ++ l') i.
Proof.
  intros (o & c & Ho & Hc & Hle). exists o, c.
  split; [by apply lookup_app_l_Some|]. split; [by apply lookup_app_l_Some|done].
Qed.

Lemma pairs_ordered_append l o c :
  Nat.Even (length l) → pairs_ordered l → pos o ≤ pos c →
  pairs_ordered (l ++ [o; c]).
Proof.
  intros [k Hk] Hl Hoc i o' c' Ho' Hc'.
  destruct (decide (2 * i + 1 < length l)%nat) as [Hlt | Hge].
  - rewrite lookup_app_l in Ho', Hc' by lia. by apply (Hl i).
  - rewrite lookup_app_r in Ho', Hc' by lia.
    assert (2 * i - length l = 0)%nat as E0.
    { apply lookup_lt_Some in Hc'. simpl in Hc'. lia. }
    assert (2 * i + 1 - length l = 1)%nat as E1 by lia.
    rewrite E0 in Ho'. rewrite E1 in Hc'. simpl in Ho', Hc'.
    by injection Ho' as <-; injection Hc' as <-.
Qed.

Lemma pairs_ordered_extend l0 b e :
  Nat.Even (length (l0 ++ [b])) → pairs_ordered (l0 ++ [b]) → pos b ≤ e →
  pairs_ordered (l0 ++ [set_pos e b]).
Proof.
  intros [k Hk] Hl Hbe i o c Ho Hc. rewrite length_app in Hk. simpl in Hk.
  destruct (decide (2 * i + 1 < length l0)%nat) as [Hlt | Hge].
  - rewrite lookup_app_l in Ho, Hc by lia.
    apply (Hl i); by apply lookup_app_l_Some.
  - assert (2 * i + 1 = length l0)%nat as E1.
    { apply lookup_lt_Some in Hc. rewrite length_app in Hc. simpl in Hc. lia. }
    rewrite lookup_app_l in Ho by lia.
    rewrite lookup_app_r in Hc by lia.
    replace (2 * i + 1 - length l0)%nat with 0%nat in Hc by lia.
    simpl in Hc. injection Hc as <-. simpl.
    assert (pos o ≤ pos b); [|lia].
    apply (Hl i); [by apply lookup_app_l_Some|].
    rewrite lookup_app_r by lia.
    by replace (2 * i + 1 - length l0)%nat with 0%nat by lia.
Qed.

Lemma covered_by_extend mi l0 b e i :
  pos b ≤ e → covered_by mi (l0 ++ [b]) i →
  covered_by mi (l0 ++ [set_pos e b]) i.
Proof.
  intros Hbe (o & c & Ho & Hc & Hle1 & Hle2).
  assert (Hlen : (2 * i + 1 < length (l0 ++ [b]))%nat)
    by (by apply lookup_lt_Some in Hc).
  rewrite length_app in Hlen. simpl in Hlen.
  destruct (decide (2 * i + 1 < length l0)%nat) as [Hlt | Hge].
  - rewrite lookup_app_l in Ho, Hc by lia. exists o, c.
    split; [by apply lookup_app_l_Some|].
    split; [by apply lookup_app_l_Some|done].
  - rewrite lookup_app_l in Ho by lia. rewrite lookup_app_r in Hc by lia.
    replace (2 * i + 1 - length l0)%nat with 0%nat in Hc by lia.
    simpl in Hc. injection Hc as <-.
    exists o, (set_pos e b). split; [by apply lookup_app_l_Some|].
    split.
    + rewrite lookup_app_r by lia.
      by replace (2 * i + 1 - length l0)%nat with 0%nat by lia.
    + simpl. lia.
Qed.

Lemma handleMinmer_cover s l mi :
  index_inv (minmerPosLookupIndex s) →
  cover_inv (minmerPosLookupIndex s) l →
  wpos mi ≤ wpos_end mi →
  cover_inv (minmerPosLookupIndex (handleMinmer s mi)) (l ++ [mi]).
Proof.
  intros Hinv [Hord Hcov] Hw.
  destruct (handleMinmer_positions s mi) as (L' & HL' & Hcase).
  set (L := positions_of (minmerPosLookupIndex s) (hash mi)) in *.
  assert (HLinv : points_inv (hash mi) L).
  { subst L. unfold positions_of.
    destruct (minmerPosLookupIndex s !! hash mi) as [l0|] eqn:E; simpl.
    - by apply Hinv.
    - apply points_inv_nil. }
  assert (HLord : pairs_ordered L).
  { subst L. unfold positions_of.
    destruct (minmerPosLookupIndex s !! hash mi) as [l0|] eqn:E; simpl.
    - by apply (Hord (hash mi)).
    - intros i o c Ho. by rewrite lookup_nil in Ho. }
  destruct HLinv as [Heven _ _ _].
  assert (Hfacts : pairs_ordered L' ∧
                   (∀ mi' i, covered_by mi' L i → covered_by mi' L' i) ∧
                   ∃ i, covered_by mi L' i).
  { destruct Hcase as [-> | (l0 & b & HL & Hb & Hp & ->)].
    - split; [by apply pairs_ordered_append|].
      split; [intros mi' i; apply covered_by_app|].
      destruct Heven as [k Hk]. exists k. eexists _, _.
      split; [|split].
      + rewrite lookup_app_r by lia.
        by replace (2 * k - length L)%nat with 0%nat by lia.
      + rewrite lookup_app_r by lia.
        by replace (2 * k + 1 - length L)%nat with 1%nat by lia.
      + simpl. lia.
    - rewrite HL in Heven, HLord.
      split; [apply pairs_ordered_extend; [done|done|lia]|].
      split.
      { intros mi' i. rewrite HL. apply covered_by_extend. lia. }
      destruct Heven as [k Hk]. rewrite length_app in Hk. simpl in Hk.
      assert (Hlen0 : (length l0 = 2 * (k - 1) + 1)%nat) by lia.
      destruct (lookup_lt_is_Some_2 l0 (2 * (k - 1))%nat) as [o Ho]; [lia|].
      exists (k - 1)%nat, o, (set_pos (wpos_end mi) b).
      split; [by apply lookup_app_l_Some|]. split.
      + rewrite lookup_app_r by lia.
        by replace (2 * (k - 1) + 1 - length l0)%nat with 0%nat by lia.
      + simpl. split; [|lia].
        assert (pos o ≤ pos b); [|lia].
        apply (HLord (k - 1)%nat); [by apply lookup_app_l_Some|].
        rewrite lookup_app_r by lia.
        by replace (2 * (k - 1) + 1 - length l0)%nat with 0%nat by lia. }
  destruct Hfacts as (Hord' & Hmono & Hnew). split.
  - intros h pts Hpts. destruct (decide (h = hash mi)) as [-> | Hne].
    + rewrite HL' in Hpts. by injection Hpts as <-.
    + rewrite handleMinmer_lookup_ne in Hpts by done. by apply (Hord h).
  - intros mi' Hin. apply elem_of_app in Hin as [Hin | Hin].
    + destruct (Hcov mi' Hin) as (pts & i & Hpts & Hc).
      destruct (decide (hash mi' = hash mi)) as [He | Hne].
      * exists L', i. rewrite He. split; [done|]. apply Hmono.
        subst L. unfold positions_of. rewrite <- He, Hpts. done.
      * exists pts, i. by rewrite handleMinmer_lookup_ne.
    + apply list_elem_of_singleton in Hin as ->.
      destruct Hnew as [i Hi]. by exists L', i.
Qed.

Lemma foldl_handleMinmer_inv out : ∀ s,
  index_inv (minmerPosLookupIndex s) →
  index_inv (minmerPosLookupIndex (foldl handleMinmer s out)).
Proof.
  induction out as [|mi out IH]; intros s Hs; simpl; [done|].
  apply IH. by apply handleMinmer_inv.
Qed.

Lemma foldl_handleMinmer_cover out : ∀ s l,
  index_inv (minmerPosLookupIndex s) →
  cover_inv (minmerPosLookupIndex s) l →
  Forall (λ mi, wpos mi ≤ wpos_end mi) out →
  cover_inv (minmerPosLookupIndex (foldl handleMinmer s out)) (l ++ out).
Proof.
  induction out as [|mi out IH]; intros s l Hinv Hcov Hw; simpl.
  - by rewrite app_nil_r.
  - apply Forall_cons in Hw as [Hmi Hw].
    replace (l ++ mi :: out) with ((l ++ [mi]) ++ out)
      by (by rewrite <- app_assoc).
    apply IH; [by apply handleMinmer_inv|by apply handleMinmer_cover|done].
Qed.

Lemma accumulate_cover outputs : ∀ s l,
  index_inv (minmerPosLookupIndex s) →
  cover_inv (minmerPosLookupIndex s) l →
  Forall (Forall (λ mi, wpos mi ≤ wpos_end mi)) outputs →
  cover_inv (minmerPosLookupIndex (accumulate s outputs))
    (l ++ concat outputs).
Proof.
  unfold accumulate.
  induction outputs as [|out outputs IH]; intros s l Hinv Hcov Hw; simpl.
  - by rewrite app_nil_r.
  - apply Forall_cons in Hw as [Hout Hw]. rewrite app_assoc.
    apply IH; [by apply buildHandleThreadOutput_inv| |done].
    unfold buildHandleThreadOutput. simpl.
    by apply foldl_handleMinmer_cover.
Qed.

(** When every window is an interval ([wpos <= wpos_end]), every minmer of
    the table built from the thread outputs lies within one of the pairs
    of interval points stored for its hash: merging runs of windows loses
    no window. *)
Theorem built_intervals_cover_windows p md sbf
    (outputs : list (list MinmerInfo)) (mi : MinmerInfo) :
  let s := accumulate (Sketch_new p md sbf) outputs in
  Forall (Forall (λ mi, wpos mi ≤ wpos_end mi)) outputs →
  mi ∈ minmerIndex s →
  ∃ pts i o c,
    minmerPosLookupIndex s !! hash mi = Some pts ∧
    pts !! (2 * i)%nat = Some o ∧ pts !! (2 * i + 1)%nat = Some c ∧
    ip_side o = OPEN ∧ ip_side c = CLOSE ∧
    pos o ≤ wpos mi ∧ wpos_end mi ≤ pos c.
Proof.
  intros s Hw Hin. subst s. rewrite built_minmerIndex in Hin.
  destruct (accumulate_cover outputs (Sketch_new p md sbf) [])
    as [_ Hcov]; [apply Sketch_new_inv| |done|].
  { split.
    - intros h pts Hpts. simpl in Hpts. by rewrite lookup_empty in Hpts.
    - intros mi' Hmi'. by apply elem_of_nil in Hmi'. }
  destruct (Hcov mi Hin) as (pts & i & Hpts & o & c & Ho & Hc & Hle1 & Hle2).
  destruct (built_index_inv p md sbf outputs _ _ Hpts) as [_ Hside _ _].
  exists pts, i, o, c. repeat split; try done.
  - rewrite (Hside _ _ Ho). apply side_at_even.
  - rewrite (Hside _ _ Hc). apply side_at_odd.
Qed.

(** The merge of [buildHandleThreadOutput] does not compare sequence ids:
    a window of one sequence that starts where the last interval of its
    hash ends on another sequence is absorbed into that interval, which
    keeps the sequence id of the earlier window, and no point with the id
    of the new window is stored; so in a built index no CLOSE is followed
    by an OPEN at the same position, whatever their sequence ids. *)
Theorem merge_ignores_sequence :
  (∀ (s : Sketch) (mi : MinmerInfo) (l0 : list IntervalPoint)
     (b : IntervalPoint),
     minmerPosLookupIndex s !! hash mi = Some (l0 ++ [b]) →
     ip_hash b = hash mi → pos b = wpos mi → ip_seqId b ≠ seqId mi →
     ∃ b',
       minmerPosLookupIndex (handleMinmer s mi) !! hash mi
         = Some (l0 ++ [b']) ∧
       pos b' = wpos_end mi ∧ ip_seqId b' = ip_seqId b ∧
       ip_seqId b' ≠ seqId mi) ∧
  (∀ p md sbf (outputs : list (list MinmerInfo)) (H : Z)
     (l : list IntervalPoint) (i : nat) (c o : IntervalPoint),
     minmerPosLookupIndex (accumulate (Sketch_new p md sbf) outputs) !! H
       = Some l →
     l !! (2 * i + 1)%nat = Some c → l !! (2 * i + 2)%nat = Some o →
     pos c ≠ pos o).
Proof.
  split.
  - intros s mi l0 b Hl Hh Hp Hid. exists (set_pos (wpos_end mi) b).
    split; [|done]. unfold handleMinmer, positions_of. simpl.
    rewrite lookup_insert_eq, Hl. simpl. rewrite back_snoc.
    rewrite (bool_decide_eq_false_2 (ip_hash b ≠ hash mi)) by tauto.
    rewrite (bool_decide_eq_false_2 (pos b ≠ wpos mi)) by tauto.
    simpl. by rewrite update_back_snoc.
  - intros p md sbf outputs H l i c o Hl Hc Ho.
    destruct (built_index_inv p md sbf outputs H l Hl) as [_ _ _ Hg].
    by apply (Hg i).
Qed.

End build_cover.

Section build_witnesses.
Import skch.

Lemma built_intervals_cover_windows_witness :
  Forall (Forall (λ mi, wpos mi ≤ wpos_end mi))
    [[examples.minmer 11 0 5 0; examples.minmer 11 5 6 0;
      examples.minmer 11 7 9 0]] ∧
  examples.minmer 11 5 6 0 ∈ minmerIndex examples.touching_windows ∧
  ∃ pts i o c,
    minmerPosLookupIndex examples.touching_windows !! 11 = Some pts ∧
    pts !! (2 * i)%nat = Some o ∧ pts !! (2 * i + 1)%nat = Some c ∧
    ip_side o = OPEN ∧ ip_side c = CLOSE ∧
    pos o ≤ 5 ∧ 6 ≤ pos c.
Proof.
  assert (H1 : Forall (Forall (λ mi, wpos mi ≤ wpos_end mi))
                 [[examples.minmer 11 0 5 0; examples.minmer 11 5 6 0;
                   examples.minmer 11 7 9 0]])
    by (apply (bool_decide_unpack _); vm_compute; exact I).
  assert (H2 : examples.minmer 11 5 6 0
               ∈ minmerIndex examples.touching_windows)
    by (apply (bool_decide_unpack _); vm_compute; exact I).
  split; [exact H1|]. split; [exact H2|].
  exact (built_intervals_cover_windows (examples.params (50 # 1)) [] []
           [[examples.minmer 11 0 5 0; examples.minmer 11 5 6 0;
             examples.minmer 11 7 9 0]] (examples.minmer 11 5 6 0) H1 H2).
Defined.

(** The window [5,8) of sequence 1 arrives after the window [0,5) of
    sequence 0, with the same hash. *)
Lemma merge_ignores_sequence_witness :
  minmerPosLookupIndex examples.one_window !! 11
    = Some ([mkIntervalPoint 0 11 0 OPEN] ++ [mkIntervalPoint 5 11 0 CLOSE]) ∧
  ∃ b',
    minmerPosLookupIndex
      (handleMinmer examples.one_window (mkMinmerInfo 11 5 8 1 0)) !! 11
      = Some ([mkIntervalPoint 0 11 0 OPEN] ++ [b']) ∧
    pos b' = 8 ∧ ip_seqId b' = 0 ∧ ip_seqId b' ≠ 1.
Proof.
  assert (H1 : minmerPosLookupIndex examples.one_window
                 !! hash (mkMinmerInfo 11 5 8 1 0)
               = Some ([mkIntervalPoint 0 11 0 OPEN]
                       ++ [mkIntervalPoint 5 11 0 CLOSE]))
    by (vm_compute; reflexivity).
  split; [exact H1|].
  apply (proj1 merge_ignores_sequence examples.one_window
           (mkMinmerInfo 11 5 8 1 0) [mkIntervalPoint 0 11 0 OPEN]
           (mkIntervalPoint 5 11 0 CLOSE) H1);
    [reflexivity|reflexivity|vm_compute; discriminate].
Defined.

End build_witnesses.

(** ** Pruning at the extremes *)

Section prune_extremes.
Import skch.


Lemma count_ge_elem c ks : c ∈ ks → 1 ≤ count_ge c ks.
Proof.
  intros Hin. unfold count_ge.
  assert (Hf : c ∈ filter (λ n, c ≤ n) ks)
    by (apply list_elem_of_filter; split; [lia|done]).
  destruct (filter _ ks); [by apply elem_of_nil in Hf|simpl; lia].
Qed.

Lemma filter_none {A} (P : A → Prop) `{∀ x, Decision (P x)} (l : list A) :
  (∀ x, x ∈ l → ¬ P x) → filter P l = [].
Proof.
  induction l as [|x l IH]; intros Hall; [done|].
  rewrite filter_cons_False by (apply Hall; by left).
  apply IH. intros y Hy. apply Hall. by right.
Qed.

Lemma filter_all {A} (P : A → Prop) `{∀ x, Decision (P x)} (l : list A) :
  (∀ x, x ∈ l → P x) → filter P l = l.
Proof.
  induction l as [|x l IH]; intros Hall; [done|].
  rewrite filter_cons_True by (apply Hall; by left).
  f_equal. apply IH. intros y Hy. apply Hall. by right.
Qed.

(** The state in which [computeFreqHist] finds a sketch that was built
    from thread outputs. *)
Lemma built_ready p md sbf outputs :
  let s0 := accumulate (Sketch_new p md sbf) outputs in
  minmerFreqHistogram s0 = [] ∧ freqThreshold s0 = uint64_max ∧
  frequentSeeds s0 = ∅.
Proof.
  destruct (accumulate_frame (Sketch_new p md sbf) outputs)
    as (_ & Ht & Hfs & Hh).
  by repeat split.
Qed.

(** The frequent seeds of a built sketch after [computeFreqHist] with
    target [T] and [computeFreqSeedSet]. *)
Lemma built_seeds p md sbf outputs T H :
  let s0 := accumulate (Sketch_new p md sbf) outputs in
  let s1 := computeFreqHist_with T s0 in
  H ∈ frequentSeeds (computeFreqSeedSet s1) ↔
  ∃ l, minmerPosLookupIndex s0 !! H = Some l ∧
       freqThreshold s1 ≤ Z.of_nat (length l).
Proof.
  intros s0 s1. rewrite computeFreqSeedSet_spec.
  destruct (computeFreqHist_with_frame T s0) as (Hidx & Hfs & _).
  destruct (built_ready p md sbf outputs) as (_ & _ & Hfs0).
  subst s1. rewrite Hfs, Hidx. fold s0 in Hfs0. rewrite Hfs0.
  split; [intros [?%not_elem_of_empty|?]; done|by right].
Qed.

(** A target of zero (or less) hashes to ignore prunes nothing: the
    threshold stays at the sentinel, no hash is frequent and
    [dropFreqSeedSet] keeps the whole minmer table.  This is the case of a
    percentage of 0, and of every percentage for which
    [total * pct / 100] is truncated to 0. *)
Theorem zero_target_prunes_nothing p md sbf
    (outputs : list (list MinmerInfo)) (T : Z) :
  let s0 := accumulate (Sketch_new p md sbf) outputs in
  let idx := minmerPosLookupIndex s0 in
  let s := dropFreqSeedSet (computeFreqSeedSet (computeFreqHist_with T s0)) in
  Z.of_nat (size idx) < two63 →
  Forall (λ n, n < uint64_max) (point_counts idx) →
  T ≤ 0 →
  freqThreshold s = uint64_max ∧ frequentSeeds s = ∅ ∧
  minmerIndex s = concat outputs ∧
  ∀ n, minmerToIgnore_of n 0 = 0.
Proof.
  intros s0 idx s Hsz Hb HT.
  destruct (built_ready p md sbf outputs) as (Hh & Ht & Hfs0).
  fold s0 in Hh, Ht, Hfs0.
  pose proof (computeFreqHist_with_spec T s0 Hh Ht Hsz) as Hspec.
  cbv zeta in Hspec. fold idx in Hspec.
  assert (Hthr : freqThreshold (computeFreqHist_with T s0) = uint64_max).
  { destruct Hspec as [[Hr _] | (Hin & Hle & _)]; [done|].
    pose proof (count_ge_elem _ _ Hin) as H1.
    unfold hashes_with_at_least in Hle. lia. }
  assert (Hseeds : frequentSeeds (computeFreqSeedSet (computeFreqHist_with T s0))
                   = ∅).
  { apply set_eq. intros H.
    pose proof (built_seeds p md sbf outputs T H) as Hbs.
    cbv zeta in Hbs. fold s0 in Hbs. rewrite Hbs, Hthr. split; [|by intros ?%not_elem_of_empty].
    intros (l & Hl & Hle). exfalso. rewrite Forall_forall in Hb.
    assert (Hc : Z.of_nat (length l) ∈ point_counts idx)
      by (apply elem_of_point_counts; by exists H, l).
    specialize (Hb _ Hc). lia. }
  split; [exact Hthr|]. split; [exact Hseeds|]. split.
  - subst s. unfold dropFreqSeedSet. cbn [minmerIndex set_minmerIndex].
    rewrite Hseeds.
    destruct (computeFreqSeedSet_frame (computeFreqHist_with T s0))
      as (_ & _ & ->).
    destruct (computeFreqHist_with_frame T s0) as (_ & _ & ->).
    subst s0. rewrite built_minmerIndex. apply filter_all.
    intros mi _. apply not_elem_of_empty.
  - intros n. unfold minmerToIgnore_of. simpl.
    rewrite Z.mul_0_r. reflexivity.
Qed.


(** ** [getFreqThreshold] *)

Lemma to_i32_id z : 0 ≤ z < 2 ^ 31 → to_i32 z = z.
Proof. intros Hz. unfold to_i32. rewrite Z.mod_small; lia. Qed.

(** [getFreqThreshold] returns the threshold through an [int]: on a built
    sketch whose hashes have fewer than 2^31 interval points each, it is -1
    exactly when the threshold is still the sentinel, that is, when no hash
    is frequent, and the threshold itself otherwise. *)
Theorem getFreqThreshold_narrowed p md sbf
    (outputs : list (list MinmerInfo)) (T : Z) :
  let s0 := accumulate (Sketch_new p md sbf) outputs in
  let idx := minmerPosLookupIndex s0 in
  let s := computeFreqSeedSet (computeFreqHist_with T s0) in
  Z.of_nat (size idx) < two63 →
  Forall (λ n, n < 2 ^ 31) (point_counts idx) →
  (getFreqThreshold s = -1 ↔ frequentSeeds s = ∅) ∧
  (getFreqThreshold s = -1 ↔ freqThreshold s = uint64_max) ∧
  (getFreqThreshold s ≠ -1 → getFreqThreshold s = freqThreshold s).
Proof.
  intros s0 idx s Hsz Hb.
  destruct (built_ready p md sbf outputs) as (Hh & Ht & Hfs0).
  fold s0 in Hh, Ht, Hfs0.
  pose proof (computeFreqHist_with_spec T s0 Hh Ht Hsz) as Hspec.
  cbv zeta in Hspec. fold idx in Hspec.
  assert (Hseeds : ∀ H, H ∈ frequentSeeds s ↔
            ∃ l, idx !! H = Some l ∧
                 freqThreshold (computeFreqHist_with T s0)
                 ≤ Z.of_nat (length l)).
  { intros H. pose proof (built_seeds p md sbf outputs T H) as Hbs.
    cbv zeta in Hbs. fold s0 in Hbs. fold idx in Hbs. exact Hbs. }
  unfold getFreqThreshold.
  destruct (computeFreqSeedSet_frame (computeFreqHist_with T s0))
    as (_ & Hthr & _).
  fold s in Hthr. rewrite Hthr. rewrite Forall_forall in Hb.
  destruct Hspec as [[Hr _] | (Hin & _ & _)].
  - rewrite Hr. split; [|split]; [|done|done].
    split; [|done]. intros _. apply set_eq. intros H. rewrite Hseeds, Hr.
    split; [|by intros ?%not_elem_of_empty].
    intros (l & Hl & Hle). exfalso.
    assert (Hc : Z.of_nat (length l) ∈ point_counts idx)
      by (apply elem_of_point_counts; by exists H, l).
    specialize (Hb _ Hc). unfold uint64_max, two64 in Hle. lia.
  - pose proof (Hb _ Hin) as Hlt.
    apply elem_of_point_counts in Hin as (H & l & Hl & Heq).
    rewrite to_i32_id by lia.
    split; [|split]; [| |done].
    + split; [lia|]. intros Hempty. exfalso.
      apply (not_elem_of_empty (C := gset Z) H). rewrite <- Hempty.
      apply Hseeds. exists l. split; [done|lia].
    + split; [lia|]. intros Hmax. unfold uint64_max, two64 in Hmax. lia.
Qed.

End prune_extremes.

Section prune_witnesses.
Import skch.

Lemma zero_target_prunes_nothing_witness :
  Z.of_nat (size (minmerPosLookupIndex examples.four_hashes)) < two63 ∧
  Forall (λ n, n < uint64_max)
    (point_counts (minmerPosLookupIndex examples.four_hashes)) ∧
  minmerIndex
    (dropFreqSeedSet
       (computeFreqSeedSet (computeFreqHist_with 0 examples.four_hashes)))
  = concat [[examples.minmer 11 0 5 0; examples.minmer 12 1 6 0;
             examples.minmer 13 2 7 0; examples.minmer 14 3 8 0;
             examples.minmer 11 10 15 0]].
Proof.
  assert (H1 : Z.of_nat (size (minmerPosLookupIndex examples.four_hashes))
               < two63) by (vm_compute; reflexivity).
  assert (H2 : Forall (λ n, n < uint64_max)
                 (point_counts (minmerPosLookupIndex examples.four_hashes)))
    by (apply (bool_decide_unpack _); vm_compute; exact I).
  assert (H3 : 0 ≤ 0) by lia.
  split; [exact H1|]. split; [exact H2|].
  exact (proj1 (proj2 (proj2
           (zero_target_prunes_nothing (examples.params (50 # 1)) [] []
              [[examples.minmer 11 0 5 0; examples.minmer 12 1 6 0;
                examples.minmer 13 2 7 0; examples.minmer 14 3 8 0;
                examples.minmer 11 10 15 0]] 0 H1 H2 H3)))).
Defined.


Lemma getFreqThreshold_narrowed_witness :
  Z.of_nat (size (minmerPosLookupIndex examples.four_hashes)) < two63 ∧
  Forall (λ n, n < 2 ^ 31)
    (point_counts (minmerPosLookupIndex examples.four_hashes)) ∧
  getFreqThreshold
    (computeFreqSeedSet (computeFreqHist_with 0 examples.four_hashes)) = -1 ∧
  frequentSeeds
    (computeFreqSeedSet (computeFreqHist_with 0 examples.four_hashes)) = ∅.
Proof.
  assert (H1 : Z.of_nat (size (minmerPosLookupIndex examples.four_hashes))
               < two63) by (vm_compute; reflexivity).
  assert (H2 : Forall (λ n, n < 2 ^ 31)
                 (point_counts (minmerPosLookupIndex examples.four_hashes)))
    by (apply (bool_decide_unpack _); vm_compute; exact I).
  assert (H3 : getFreqThreshold
                 (computeFreqSeedSet
                    (computeFreqHist_with 0 examples.four_hashes)) = -1)
    by (vm_compute; reflexivity).
  split; [exact H1|]. split; [exact H2|]. split; [exact H3|].
  exact (proj1 (proj1
           (getFreqThreshold_narrowed (examples.params (50 # 1)) [] []
              [[examples.minmer 11 0 5 0; examples.minmer 12 1 6 0;
                examples.minmer 13 2 7 0; examples.minmer 14 3 8 0;
                examples.minmer 11 10 15 0]] 0 H1 H2)) H3).
Defined.

End prune_witnesses.

(** ** The index file: loading into a sketch that is not empty, its size *)

Section index_file_more.
Import skch.
Context (size_raw key_raw segLength_raw sketchSize_raw kmerSize_raw : Raw Z).
Context (MinmerInfo_raw : Raw MinmerInfo).
Context (IntervalPoint_raw : Raw IntervalPoint).

Abbreviation index_bytes'' :=
  (index_bytes size_raw key_raw segLength_raw sketchSize_raw kmerSize_raw
     MinmerInfo_raw IntervalPoint_raw).
Abbreviation readIndex'' :=
  (readIndex size_raw key_raw segLength_raw sketchSize_raw kmerSize_raw
     MinmerInfo_raw IntervalPoint_raw).
Abbreviation writeIndex'' :=
  (writeIndex size_raw key_raw segLength_raw sketchSize_raw kmerSize_raw
     MinmerInfo_raw IntervalPoint_raw).
Abbreviation index_ok'' :=
  (index_ok size_raw key_raw segLength_raw sketchSize_raw kmerSize_raw
     MinmerInfo_raw IntervalPoint_raw).

Lemma foldl_insert_union {V} (m m0 : gmap Z V) :
  foldl (λ m e, <[e.1 := e.2]> m) m0 (map_to_list m) = m ∪ m0.
Proof.
  apply map_eq. intros k.
  rewrite foldl_insert_lookup by apply NoDup_fst_map_to_list.
  rewrite list_to_map_to_list, lookup_union.
  by destruct (m !! k), (m0 !! k).
Qed.

Lemma foldl_union_set (X X0 : gset Z) :
  foldl (λ (X : gset Z) k, {[ k ]} ∪ X) X0 (elements X) = X ∪ X0.
Proof.
  apply set_eq. intros k.
  by rewrite foldl_union_elem, elem_of_elements, elem_of_union.
Qed.

Lemma readIndex_of_written (I s0 : Sketch) (w : World) :
  index_ok'' I →
  files w !! indexFilename (param s0) = Some (index_bytes'' I) →
  same_parameters (param s0) (param I) →
  readIndex'' s0 w
  = Ret (loaded I s0)
      (mkWorld (files w) (cerr w) (idManager w)
         (calls w ++ ["readIndex"; "readParameters"])).
Proof.
  intros [(Hseg & Hsk & Hk) Hmc Hmi [Hkc Hkmax] Hes [Hsc Hsmax] Hss]
    Hfile (Es & Ek & Ekm).
  unfold readIndex. unfold mbind at 1 2. unfold M_bind at 1 2.
  unfold enter, open_read. cbn [files cerr idManager calls].
  rewrite Hfile, index_bytes_eq.
  unfold mbind at 1. unfold M_bind at 1.
  rewrite readParameters_eval by done.
  rewrite !bool_decide_eq_false_2 by (intros H; by apply H). cbn [orb].
  unfold mbind at 1. unfold M_bind at 1.
  rewrite readSketchBinary_written by done.
  unfold mbind at 1. unfold M_bind at 1.
  unfold readPosListBinary.
  unfold mbind at 1. unfold M_bind at 1.
  rewrite read_obj_to_raw by done.
  rewrite for_int_below_small by done.
  rewrite <- (length_map_to_list (minmerPosLookupIndex I)).
  rewrite read_entries by done.
  rewrite foldl_insert_union.
  unfold mbind at 1. unfold M_bind at 1.
  unfold readFreqKmersBinary.
  unfold mbind at 1. unfold M_bind at 1.
  rewrite <- (app_nil_r (concat _)).
  rewrite read_obj_to_raw by done.
  rewrite for_int_below_small by done.
  change (size (frequentSeeds I)) with (length (elements (frequentSeeds I))).
  rewrite read_seeds by done.
  rewrite foldl_union_set. cbn [calls]. rewrite <- app_assoc.
  reflexivity.
Qed.

(** [readIndex] does not clear: read into a sketch that already holds an
    index, the file replaces the minmer table, overrides the position
    lists of its own hashes and keeps those of the other hashes, and adds
    its frequent seeds to the ones present; the threshold, the metadata and
    [hashFreq] are not in the file and stay as they were. *)
Theorem readIndex_merges (I s0 : Sketch) (w : World) :
  index_ok'' I →
  indexFilename (param s0) = indexFilename (param I) →
  same_parameters (param s0) (param I) →
  ∃ w1 s w2,
    writeIndex'' I w = Ret () w1 ∧
    readIndex'' s0 w1 = Ret s w2 ∧
    minmerIndex s = minmerIndex I ∧
    (∀ h, minmerPosLookupIndex s !! h
          = match minmerPosLookupIndex I !! h with
            | Some pts => Some pts
            | None => minmerPosLookupIndex s0 !! h
            end) ∧
    frequentSeeds s = frequentSeeds I ∪ frequentSeeds s0 ∧
    freqThreshold s = freqThreshold s0 ∧
    metadata s = metadata s0 ∧
    hashFreq s = hashFreq s0.
Proof.
  intros Hok Hname Hsame.
  eexists _, _, _. split; [reflexivity|]. split.
  - apply readIndex_of_written; [done| |done].
    cbn [files]. by rewrite Hname, lookup_insert_eq.
  - repeat split. intros h. cbn. rewrite lookup_union.
    by destruct (minmerPosLookupIndex I !! h), (minmerPosLookupIndex s0 !! h).
Qed.

(** After [clear] the sketch can load an index again: writing the index,
    clearing the sketch and reading the file back restores the minmer
    table, the positions map and the frequent seeds, while the metadata
    stays empty and the threshold at the sentinel (so [getFreqThreshold]
    gives -1), since the file holds neither. *)
Theorem clear_then_reload (I : Sketch) (w : World) :
  index_ok'' I →
  ∃ w1 s w2,
    writeIndex'' I w = Ret () w1 ∧
    readIndex'' (clear I) w1 = Ret s w2 ∧
    minmerIndex s = minmerIndex I ∧
    minmerPosLookupIndex s = minmerPosLookupIndex I ∧
    frequentSeeds s = frequentSeeds I ∧
    metadata s = [] ∧ sequencesByFileInfo s = [] ∧
    freqThreshold s = uint64_max ∧ getFreqThreshold s = -1.
Proof.
  intros Hok.
  eexists _, _, _. split; [reflexivity|]. split.
  - apply readIndex_of_written; [done| |done].
    cbn [files clear param]. by rewrite lookup_insert_eq.
  - unfold loaded, getFreqThreshold. cbn.
    rewrite (right_id_L ∅ (∪) (minmerPosLookupIndex I)).
    rewrite (right_id_L ∅ (∪) (frequentSeeds I)).
    repeat split.
Qed.

Lemma entries_length (es : list (Z * list IntervalPoint)) :
  length (concat (writePosListEntry size_raw key_raw IntervalPoint_raw <$> es))
  = (length es * (raw_size (Raw := key_raw) + raw_size (Raw := size_raw))
     + sum_list ((λ e : Z * list IntervalPoint, length e.2) <$> es)
       * raw_size (Raw := IntervalPoint_raw))%nat.
Proof.
  induction es as [|[h l] es IH]; [done|].
  cbn [fmap list_fmap concat length sum_list sum_list_with].
  rewrite length_app, IH. unfold writePosListEntry. cbn [fst snd].
  rewrite !length_app, !to_raw_length, to_raw_array_length.
  unfold id. lia.
Qed.

(** The size of the index file: the three parameters, three counts, the
    minmer records, a key and a count for each hash of the positions map,
    the interval points, and a key for each frequent seed. *)
Theorem index_file_size (s : Sketch) :
  length (index_bytes'' s)
  = (raw_size (Raw := segLength_raw) + raw_size (Raw := sketchSize_raw)
     + raw_size (Raw := kmerSize_raw)
     + 3 * raw_size (Raw := size_raw)
     + length (minmerIndex s) * raw_size (Raw := MinmerInfo_raw)
     + size (minmerPosLookupIndex s)
       * (raw_size (Raw := key_raw) + raw_size (Raw := size_raw))
     + total_points (minmerPosLookupIndex s)
       * raw_size (Raw := IntervalPoint_raw)
     + size (frequentSeeds s) * raw_size (Raw := key_raw))%nat.
Proof.
  rewrite index_bytes_eq. unfold param_block, total_points.
  rewrite !length_app, !to_raw_length, to_raw_array_length, entries_length.
  rewrite length_map_to_list.
  change (concat (to_raw (Raw := key_raw) <$> elements (frequentSeeds s)))
    with (to_raw_array key_raw (elements (frequentSeeds s))).
  rewrite to_raw_array_length.
  change (length (elements (frequentSeeds s))) with (size (frequentSeeds s)).
  lia.
Qed.

End index_file_more.

(** ** [build] and the constructor, run forward *)

Section build_forward.
Import skch.
Context (size_raw key_raw segLength_raw sketchSize_raw kmerSize_raw : Raw Z).
Context (MinmerInfo_raw : Raw MinmerInfo).
Context (IntervalPoint_raw : Raw IntervalPoint).
Context (for_each_seq_in_file : string → list string → list (string * string)).
Context (addMinmers : string → Z → Z → Z → Z → Z → Z → list MinmerInfo).
Context (delivery : list (list MinmerInfo) → list (list MinmerInfo)).

Lemma set_metadata_same s : set_metadata (metadata s) s = s.
Proof. by destruct s. Qed.

Lemma sketched_app p l1 l2 : sketched p (l1 ++ l2) = sketched p l1 ++ sketched p l2.
Proof. unfold sketched. by rewrite filter_app. Qed.

Lemma collected_metadata_app p l1 l2 :
  collected_metadata p (l1 ++ l2)
  = collected_metadata p l1 ++ collected_metadata p l2.
Proof. unfold collected_metadata. by rewrite sketched_app, fmap_app. Qed.

(** What holds between the accumulator and the world before and after a
    part [l] of the sequences has been handled. *)
Definition handled (l : list (string * string)) (a : build_acc) (w : World)
    (a' : build_acc) (w' : World) : Prop :=
  acc_sketch a'
  = set_metadata
      (metadata (acc_sketch a) ++ collected_metadata (param (acc_sketch a)) l)
      (acc_sketch a) ∧
  length (acc_outputs a')
  = (length (acc_outputs a) + length (sketched (param (acc_sketch a)) l))%nat ∧
  files w' = files w ∧ calls w' = calls w ∧
  (sketched (param (acc_sketch a)) l = [] → idManager w' = idManager w).

Lemma handled_nil a w : handled [] a w a w.
Proof.
  unfold handled, collected_metadata, sketched. simpl.
  rewrite app_nil_r, set_metadata_same. repeat split; lia.
Qed.

Lemma handled_app l1 l2 a w a1 w1 a2 w2 :
  handled l1 a w a1 w1 → handled l2 a1 w1 a2 w2 →
  handled (l1 ++ l2) a w a2 w2.
Proof.
  intros (Hs1 & Ho1 & Hf1 & Hc1 & Hi1) (Hs2 & Ho2 & Hf2 & Hc2 & Hi2).
  assert (Hp : param (acc_sketch a1) = param (acc_sketch a))
    by (by rewrite Hs1).
  rewrite Hp in *. unfold handled.
  rewrite collected_metadata_app, sketched_app, length_app.
  split; [|split; [|split; [|split]]].
  - rewrite Hs2, Hs1. simpl. by rewrite <- app_assoc.
  - lia.
  - congruence.
  - congruence.
  - intros [H1 H2]%app_eq_nil. rewrite Hi2, Hi1; done.
Qed.

Lemma build_seq_eval a e w :
  ∃ a' w', build_seq addMinmers a e w = Ret a' w' ∧ handled [e] a w a' w'.
Proof.
  destruct e as [seq_name seq]. unfold build_seq, handled.
  unfold collected_metadata, sketched.
  rewrite filter_cons, filter_nil. cbn [snd fst].
  case_bool_decide as Hlen.
  - rewrite decide_True by done.
    unfold mbind, M_bind, addSequence, print, mret, M_ret.
    destruct (index_of seq_name (idManager w)); eexists _, _;
      (split; [reflexivity|]); cbn; rewrite length_app; simpl;
      repeat split; done.
  - rewrite decide_False by done.
    unfold mbind, M_bind, print, mret, M_ret.
    eexists _, _. split; [reflexivity|]. cbn.
    rewrite app_nil_r, set_metadata_same. repeat split; lia.
Qed.

Lemma foldM_build_seq_eval l : ∀ a w,
  ∃ a' w', foldM (build_seq addMinmers) a l w = Ret a' w' ∧
           handled l a w a' w'.
Proof.
  induction l as [|e l IH]; intros a w.
  - exists a, w. split; [done|apply handled_nil].
  - destruct (build_seq_eval a e w) as (a1 & w1 & H1 & Hh1).
    destruct (IH a1 w1) as (a2 & w2 & H2 & Hh2).
    exists a2, w2. split.
    + cbn [foldM]. by rewrite (bind_Ret _ _ _ _ _ H1).
    + by apply (handled_app [e] l a w a1 w1).
Qed.

Lemma foldM_build_file_eval targets fs : ∀ a w,
  ∃ a' w',
    foldM (build_file for_each_seq_in_file addMinmers targets) a fs w
    = Ret a' w' ∧
    handled (concat ((λ f, for_each_seq_in_file f targets) <$> fs)) a w a' w'.
Proof.
  induction fs as [|f fs IH]; intros a w.
  - exists a, w. split; [done|apply handled_nil].
  - destruct (foldM_build_seq_eval (for_each_seq_in_file f targets) a
                (mkWorld (files w)
                   (cerr w ++ [Str "[mashmap::skch::Sketch::build] Processing file: ";
                               Str f; Endl])
                   (idManager w) (calls w)))
      as (a1 & w1 & H1 & Hh1).
    destruct (IH a1 w1) as (a2 & w2 & H2 & Hh2).
    assert (Hbf : build_file for_each_seq_in_file addMinmers targets a f w
                  = Ret a1 w1) by exact H1.
    exists a2, w2. split.
    + cbn [foldM]. by rewrite (bind_Ret _ _ _ _ _ Hbf).
    + cbn [fmap list_fmap concat].
      by apply (handled_app _ _ a w a1 w1).
Qed.

(** [build(true)] on a sketch [s]: the sketch [built] that it leaves when
    it returns, for the outputs that the pool delivered and the size [n]
    of the id manager. *)
Definition built_from (s : Sketch) (targets : list string)
    (outputs : list (list MinmerInfo)) (n : Z) : Sketch :=
  accumulate
    (set_sequencesByFileInfo (sequencesByFileInfo s ++ [n])
       (set_metadata
          (metadata s
           ++ collected_metadata (param s)
                (all_sequences for_each_seq_in_file (param s) targets))
          s))
    outputs.

Lemma build_true_eval targets s w :
  ∃ outputs n,
    length outputs
    = length (sketched (param s)
                (all_sequences for_each_seq_in_file (param s) targets)) ∧
    (sketched (param s)
       (all_sequences for_each_seq_in_file (param s) targets) = [] →
     n = Z.of_nat (length (idManager w))) ∧
    let s' := built_from s targets (delivery outputs) n in
    (minmerIndex s' = [] →
     ∃ w', build for_each_seq_in_file addMinmers delivery true targets s w
           = Exit 1 w' ∧
           files w' = files w ∧
           (sketched (param s)
              (all_sequences for_each_seq_in_file (param s) targets) = [] →
            idManager w' = idManager w)) ∧
    (minmerIndex s' ≠ [] →
     ∃ w', build for_each_seq_in_file addMinmers delivery true targets s w
           = Ret s' w' ∧
           files w' = files w ∧ Z.of_nat (length (idManager w')) = n).
Proof.
  destruct (foldM_build_file_eval targets (refSequences (param s))
              (mkBuildAcc s [] 0 0 uint64_max)
              (mkWorld (files w) (cerr w) (idManager w) (calls w ++ ["build"])))
    as (a & w1 & Hfold & Hs & Ho & Hf & Hc & Hi).
  cbn [acc_sketch acc_outputs length] in Hs, Ho, Hi.
  fold (all_sequences for_each_seq_in_file (param s) targets) in Hs, Ho, Hi.
  cbn [files calls idManager] in Hf, Hc, Hi.
  exists (acc_outputs a), (Z.of_nat (length (idManager w1))).
  split; [exact Ho|]. split; [intros He; by rewrite Hi|].
  assert (Hbuild :
    build for_each_seq_in_file addMinmers delivery true targets s w
    = (s1 ← (n ← idManager_size;
             let s := acc_sketch a in
             let s := set_sequencesByFileInfo (sequencesByFileInfo s ++ [n]) s in
             print [Str "[mashmap::skch::Sketch::build] Shortest sequence length: ";
                    Num (shortestSeqLength a); Endl];;
             let s := accumulate s (delivery (acc_outputs a)) in
             print [Str "[mashmap::skch::Sketch::build] Total sequences processed: ";
                    Num (totalSeqProcessed a); Endl];;
             print [Str "[mashmap::skch::Sketch::build] Total sequences skipped: ";
                    Num (totalSeqSkipped a); Endl];;
             print [Str "[mashmap::skch::Sketch::build] Unique minmer hashes before pruning = ";
                    Num (Z.of_nat (size (minmerPosLookupIndex s))); Endl];;
             print [Str "[mashmap::skch::Sketch::build] Total minmer windows before pruning = ";
                    Num (Z.of_nat (length (minmerIndex s))); Endl];;
             mret s);
       print [Str "[mashmap::skch::Sketch::build] time spent computing the reference index: ";
              Seconds; Str " sec"; Endl];;
       if bool_decide (length (minmerIndex s1) = 0%nat) then
         print [Str "[mashmap::skch::Sketch::build] ERROR, reference sketch is empty. Reference sequences shorter than the kmer size are not indexed"; Endl];;
         exit 1
       else mret s1) w1).
  { unfold build. unfold mbind at 1. unfold M_bind at 1. unfold enter at 1.
    cbn iota. unfold mbind at 1. unfold M_bind at 1.
    unfold mbind at 1. unfold M_bind at 1. rewrite Hfold. reflexivity. }
  rewrite Hbuild. clear Hbuild Hfold.
  assert (Hs' :
    built_from s targets (delivery (acc_outputs a))
      (Z.of_nat (length (idManager w1)))
    = accumulate
        (set_sequencesByFileInfo
           (sequencesByFileInfo (acc_sketch a)
            ++ [Z.of_nat (length (idManager w1))])
           (acc_sketch a))
        (delivery (acc_outputs a))).
  { unfold built_from. by rewrite Hs. }
  cbv zeta. rewrite Hs'. clear Hs' Hs.
  unfold mbind, M_bind, idManager_size, print, mret, M_ret, exit.
  cbn [files cerr idManager calls].
  set (s' := accumulate _ _). split.
  - intros He. rewrite bool_decide_eq_true_2 by (by rewrite He).
    eexists. split; [reflexivity|]. by split.
  - intros Hne. rewrite bool_decide_eq_false_2
      by (by intros ?%length_zero_iff_nil).
    eexists. split; [reflexivity|]. by split.
Qed.

End build_forward.

Section constructor.
Import skch.
Context (size_raw key_raw segLength_raw sketchSize_raw kmerSize_raw : Raw Z).
Context (MinmerInfo_raw : Raw MinmerInfo).
Context (IntervalPoint_raw : Raw IntervalPoint).
Context (for_each_seq_in_file : string → list string → list (string * string)).
Context (addMinmers : string → Z → Z → Z → Z → Z → Z → list MinmerInfo).
Context (delivery : list (list MinmerInfo) → list (list MinmerInfo)).

Abbreviation build' :=
  (build for_each_seq_in_file addMinmers delivery).
Abbreviation Sketch_ctor' :=
  (Sketch_ctor size_raw key_raw segLength_raw sketchSize_raw kmerSize_raw
     MinmerInfo_raw IntervalPoint_raw for_each_seq_in_file addMinmers
     delivery).
Abbreviation initialize' :=
  (initialize size_raw key_raw segLength_raw sketchSize_raw kmerSize_raw
     MinmerInfo_raw IntervalPoint_raw for_each_seq_in_file addMinmers
     delivery).
Abbreviation index_bytes3 :=
  (index_bytes size_raw key_raw segLength_raw sketchSize_raw kmerSize_raw
     MinmerInfo_raw IntervalPoint_raw).
Abbreviation writeIndex3 :=
  (writeIndex size_raw key_raw segLength_raw sketchSize_raw kmerSize_raw
     MinmerInfo_raw IntervalPoint_raw).

Lemma Ret_world {A} (a b : A) (u v : World) : Ret a u = Ret b v → u = v.
Proof. congruence. Qed.

Lemma handleMinmer_metadata s mi :
  metadata (handleMinmer s mi) = metadata s ∧
  sequencesByFileInfo (handleMinmer s mi) = sequencesByFileInfo s.
Proof. done. Qed.

Lemma buildHandleThreadOutput_metadata s out :
  metadata (buildHandleThreadOutput s out) = metadata s ∧
  sequencesByFileInfo (buildHandleThreadOutput s out) = sequencesByFileInfo s.
Proof.
  unfold buildHandleThreadOutput. simpl. revert s.
  induction out as [|mi out IH]; intros s; simpl; [done|].
  destruct (IH (handleMinmer s mi)) as (-> & ->). done.
Qed.

Lemma accumulate_metadata outputs : ∀ s,
  metadata (accumulate s outputs) = metadata s ∧
  sequencesByFileInfo (accumulate s outputs) = sequencesByFileInfo s.
Proof.
  unfold accumulate.
  induction outputs as [|out outputs IH]; intros s; simpl; [done|].
  destruct (IH (buildHandleThreadOutput s out)) as (-> & ->).
  apply buildHandleThreadOutput_metadata.
Qed.

Lemma prune_frame s :
  param (prune s) = param s ∧ metadata (prune s) = metadata s ∧
  sequencesByFileInfo (prune s) = sequencesByFileInfo s ∧
  minmerPosLookupIndex (prune s) = minmerPosLookupIndex s.
Proof.
  unfold prune, computeFreqHist_state, computeFreqHist_with.
  by case_bool_decide.
Qed.

Lemma built_from_frame s targets outputs n :
  param (built_from for_each_seq_in_file s targets outputs n) = param s ∧
  metadata (built_from for_each_seq_in_file s targets outputs n)
  = metadata s
    ++ collected_metadata (param s)
         (all_sequences for_each_seq_in_file (param s) targets) ∧
  sequencesByFileInfo (built_from for_each_seq_in_file s targets outputs n)
  = sequencesByFileInfo s ++ [n].
Proof.
  unfold built_from.
  set (s' := set_sequencesByFileInfo _ _).
  destruct (accumulate_metadata outputs s') as (-> & ->).
  destruct (accumulate_frame s' outputs) as (-> & _).
  done.
Qed.

Lemma build_true_ret p md sbf targets w s w' :
  build' true targets (Sketch_new p md sbf) w = Ret s w' →
  param s = p ∧ files w' = files w.
Proof.
  intros Hret.
  destruct (build_true_eval for_each_seq_in_file addMinmers delivery targets
              (Sketch_new p md sbf) w)
    as (outputs & n & _ & _ & Hexit & Hok).
  cbv zeta in Hexit, Hok.
  destruct (decide (minmerIndex
                      (built_from for_each_seq_in_file (Sketch_new p md sbf)
                         targets (delivery outputs) n) = [])) as [He | Hne].
  - destruct (Hexit He) as (w1 & Hw1 & _). congruence.
  - destruct (Hok Hne) as (w1 & Hw1 & Hf & Hn).
    rewrite Hw1 in Hret. injection Hret as <- <-.
    split; [|exact Hf].
    by destruct (built_from_frame (Sketch_new p md sbf) targets
                   (delivery outputs) n) as (-> & _).
Qed.

(** When [build(true)] returns, it has appended to the metadata one record
    (name and length) for each sequence of the reference files that is at
    least [segLength] long, in file order, and to [sequencesByFileInfo] a
    single entry, the size of the id manager, however many reference files
    there are; the parameters and the files are unchanged. *)
Theorem build_collects_metadata p md sbf targets w s w' :
  build' true targets (Sketch_new p md sbf) w = Ret s w' →
  param s = p ∧
  metadata s
  = md ++ collected_metadata p (all_sequences for_each_seq_in_file p targets) ∧
  sequencesByFileInfo s = sbf ++ [Z.of_nat (length (idManager w'))] ∧
  files w' = files w.
Proof.
  intros Hret.
  destruct (build_true_eval for_each_seq_in_file addMinmers delivery targets
              (Sketch_new p md sbf) w)
    as (outputs & n & _ & _ & Hexit & Hok).
  cbv zeta in Hexit, Hok.
  destruct (decide (minmerIndex
                      (built_from for_each_seq_in_file (Sketch_new p md sbf)
                         targets (delivery outputs) n) = [])) as [He | Hne].
  - destruct (Hexit He) as (w1 & Hw1 & _). congruence.
  - destruct (Hok Hne) as (w1 & Hw1 & Hf & Hn).
    rewrite Hw1 in Hret. injection Hret as <- <-.
    destruct (built_from_frame (Sketch_new p md sbf) targets
                (delivery outputs) n) as (Hp & Hm & Hs).
    split; [exact Hp|]. split; [exact Hm|]. split; [|exact Hf].
    rewrite Hs, Hn. reflexivity.
Qed.

(** The branch condition of [initialize], as a proposition. *)
Lemma build_branch_true p w :
  indexFilename p = "" ∨ files w !! indexFilename p = None
  ∨ overwrite_index p = true →
  bool_decide (indexFilename p = "")
  || negb (bool_decide (is_Some (files w !! indexFilename p)))
  || overwrite_index p = true.
Proof.
  intros [H | [H | H]].
  - by rewrite (bool_decide_eq_true_2 _ H).
  - rewrite (bool_decide_eq_false_2 (is_Some _)); [|rewrite H; by intros [? ?]].
    simpl. by rewrite orb_true_r.
  - rewrite H. by rewrite orb_true_r.
Qed.

Lemma build_branch_false p w :
  ¬ (indexFilename p = "" ∨ files w !! indexFilename p = None
     ∨ overwrite_index p = true) →
  indexFilename p ≠ "" ∧ is_Some (files w !! indexFilename p) ∧
  overwrite_index p = false.
Proof.
  intros Hn. split; [|split].
  - intros H. apply Hn. by left.
  - destruct (files w !! indexFilename p) eqn:E; [done|].
    exfalso. apply Hn. right. by left.
  - destruct (overwrite_index p) eqn:E; [|done].
    exfalso. apply Hn. right. by right.
Qed.

Lemma report_and_return_eval s w :
  report_and_return s w
  = Ret (set_isInitialized true s)
      (mkWorld (files w) (cerr w ++ final_report s) (idManager w) (calls w)).
Proof.
  unfold report_and_return, mbind, M_bind, print, mret, M_ret.
  cbn [files cerr idManager calls]. unfold final_report.
  by rewrite <- !app_assoc.
Qed.

(** [initialize] on the branch that builds, up to the call of [build]. *)
Lemma initialize_enters_build targets s w :
  indexFilename (param s) = "" ∨ files w !! indexFilename (param s) = None
  ∨ overwrite_index (param s) = true →
  (∀ code w1, build' true targets s (initializing w) = Exit code w1 →
              initialize' targets s w = Exit code w1) ∧
  (∀ r w1, build' true targets s (initializing w) = Stuck r w1 →
           initialize' targets s w = Stuck r w1) ∧
  (∀ s1 w1, build' true targets s (initializing w) = Ret s1 w1 →
     ∃ w2,
       files w2 = files w1 ∧ idManager w2 = idManager w1 ∧
       initialize' targets s w
       = (let s2 := set_hashFreq ∅ (prune s1) in
          (if bool_decide (indexFilename (param s2) ≠ "")
           then writeIndex3 s2 else mret ());;
          (if create_index_only (param s2) then
             print [Str "[mashmap::skch::Sketch] Index created successfully. Exiting."; Endl];;
             exit 0
           else mret ());;
          report_and_return s2) w2).
Proof.
  intros Hcond. apply build_branch_true in Hcond.
  assert (Hinit :
    initialize' targets s w
    = (s ← (s ← build' true targets s;
            s ← computeFreqHist s;
            let s := computeFreqSeedSet s in
            let s := dropFreqSeedSet s in
            let s := set_hashFreq ∅ s in
            (if bool_decide (indexFilename (param s) ≠ "")
             then writeIndex3 s else mret ());;
            (if create_index_only (param s) then
               print [Str "[mashmap::skch::Sketch] Index created successfully. Exiting."; Endl];;
               exit 0
             else mret ());;
            mret s);
       print [Str "[mashmap::skch::Sketch] Unique minmer hashes after pruning = ";
              Num (to_u64 (Z.of_nat (size (minmerPosLookupIndex s))
                           - Z.of_nat (size (frequentSeeds s)))); Endl];;
       print [Str "[mashmap::skch::Sketch] Total minmer windows after pruning = ";
              Num (Z.of_nat (length (minmerIndex s))); Endl];;
       print [Str "[mashmap::skch::Sketch] Metadata size = ";
              Num (Z.of_nat (length (metadata s))); Endl];;
       print [Str "[mashmap::skch::Sketch] Sketch initialization complete."; Endl];;
       mret (set_isInitialized true s)) (initializing w)).
  { unfold initialize.
    unfold mbind at 1. unfold M_bind at 1. unfold enter at 1.
    unfold mbind at 1. unfold M_bind at 1. unfold print at 1.
    cbn [files cerr idManager calls].
    unfold mbind at 1. unfold M_bind at 1. unfold file_exists at 1.
    cbn [files]. rewrite Hcond. reflexivity. }
  rewrite Hinit. clear Hinit. split; [|split].
  - intros code w1 Hb.
    unfold mbind at 1. unfold M_bind at 1.
    unfold mbind at 1. unfold M_bind at 1. by rewrite Hb.
  - intros r w1 Hb.
    unfold mbind at 1. unfold M_bind at 1.
    unfold mbind at 1. unfold M_bind at 1. by rewrite Hb.
  - intros s1 w1 Hb.
    destruct (computeFreqHist_returns s1 w1) as (w2 & Hh & Hf).
    assert (Hid : idManager w2 = idManager w1).
    { revert Hh. unfold computeFreqHist, mbind, M_bind, enter, print, mret,
        M_ret. repeat case_bool_decide; intros Hw%Ret_world; by rewrite <- Hw. }
    exists w2. split; [done|]. split; [done|].
    unfold mbind at 1. unfold M_bind at 1.
    unfold mbind at 1. unfold M_bind at 1. rewrite Hb.
    unfold mbind at 1. unfold M_bind at 1. rewrite Hh.
    cbv zeta. fold (prune s1).
    set (s2 := set_hashFreq ∅ (prune s1)).
    destruct (bool_decide (indexFilename (param s2) ≠ ""));
      destruct (create_index_only (param s2)); reflexivity.
Qed.

Lemma prune_seeds_in_index p md sbf outputs H :
  H ∈ frequentSeeds (prune (accumulate (Sketch_new p md sbf) outputs)) →
  is_Some (minmerPosLookupIndex
             (prune (accumulate (Sketch_new p md sbf) outputs)) !! H).
Proof.
  destruct (prune_frame (accumulate (Sketch_new p md sbf) outputs))
    as (_ & _ & _ & ->).
  unfold prune, computeFreqHist_state. cbn [frequentSeeds dropFreqSeedSet
    set_minmerIndex].
  intros Hin.
  apply (built_seeds p md sbf outputs) in Hin as (l & Hl & _). by exists l.
Qed.

(** If no sequence of the reference files reaches the segment length, the
    constructor ends the process with exit code 1, whatever the index
    options are; no file is written and no sequence id is assigned. *)
Theorem constructor_exits_without_long_sequence p md sbf targets w :
  Forall (λ e, Z.of_nat (String.length e.2) < to_u64 (segLength p))
    (all_sequences for_each_seq_in_file p targets) →
  delivery [] = [] →
  ∃ w', Sketch_ctor' p md sbf targets w = Exit 1 w' ∧
        files w' = files w ∧ idManager w' = idManager w.
Proof.
  intros Hshort Hdel. unfold Sketch_ctor.
  destruct (decide (indexFilename p = "" ∨ files w !! indexFilename p = None
                    ∨ overwrite_index p = true)) as [Hcond | Hcond].
  - destruct (initialize_enters_build targets (Sketch_new p md sbf) w Hcond)
      as [Hexit _].
    destruct (build_true_eval for_each_seq_in_file addMinmers delivery targets
                (Sketch_new p md sbf) (initializing w))
      as (outputs & n & Hlen & _ & Hbuild & _).
    cbv zeta in Hbuild. cbn [param Sketch_new] in Hlen, Hbuild.
    assert (Hnone : sketched p (all_sequences for_each_seq_in_file p targets)
                    = []).
    { unfold sketched. apply filter_none. intros e He.
      rewrite Forall_forall in Hshort. specialize (Hshort e He). lia. }
    rewrite Hnone in Hlen. apply length_zero_iff_nil in Hlen. subst outputs.
    rewrite Hdel in Hbuild.
    destruct Hbuild as (w' & Hw' & Hf & Hi); [reflexivity|].
    exists w'. split; [by apply Hexit|]. split; [exact Hf|]. by apply Hi.
  - apply build_branch_false in Hcond as (Hname & [bytes Hbytes] & Hover).
    eexists. split.
    + by apply initialize_load_branch with bytes.
    + done.
Qed.

(** With [create_index_only], when [build] has returned, the constructor
    prunes, writes the index of the pruned sketch to the index file (if a
    file name is given; nothing otherwise) and ends the process with exit
    code 0. *)
Theorem create_index_only_exits p md sbf targets w s1 w1 :
  indexFilename p = "" ∨ files w !! indexFilename p = None
  ∨ overwrite_index p = true →
  create_index_only p = true →
  build' true targets (Sketch_new p md sbf) (initializing w) = Ret s1 w1 →
  ∃ w', Sketch_ctor' p md sbf targets w = Exit 0 w' ∧
        files w'
        = (if bool_decide (indexFilename p ≠ "")
           then <[indexFilename p := index_bytes3 (prune s1)]> (files w)
           else files w).
Proof.
  intros Hcond Hcreate Hb. unfold Sketch_ctor.
  destruct (initialize_enters_build targets (Sketch_new p md sbf) w Hcond)
    as (_ & _ & Hret).
  destruct (Hret s1 w1 Hb) as (w2 & Hf2 & _ & ->). clear Hret.
  apply build_true_ret in Hb as (Hp & Hf1).
  cbn [files initializing] in Hf1.
  destruct (prune_frame s1) as (Hpp & _).
  cbv zeta. cbn [param set_hashFreq]. rewrite Hpp, Hp, Hcreate.
  assert (Hbytes : index_bytes3 (set_hashFreq ∅ (prune s1))
                   = index_bytes3 (prune s1)) by reflexivity.
  case_bool_decide as Hname.
  - unfold writeIndex, mbind, M_bind, enter, store_file, print, exit.
    cbn [files cerr idManager calls param set_hashFreq].
    eexists. split; [reflexivity|].
    cbn [files]. by rewrite Hpp, Hp, Hf2, Hf1, Hbytes.
  - unfold mbind, M_bind, mret, M_ret, print, exit.
    cbn [files cerr idManager calls].
    eexists. split; [reflexivity|]. cbn [files]. by rewrite Hf2, Hf1.
Qed.

(** Whenever the constructor returns a sketch, that sketch is initialized,
    its [hashFreq] is empty, [create_index_only] was off, the index file
    (if a file name is given) holds the index of the returned sketch, and
    the diagnostic stream ends with the four lines of the report. *)
Theorem constructed_sketch_is_persisted p md sbf targets w s w' :
  Sketch_ctor' p md sbf targets w = Ret s w' →
  isInitialized s = true ∧ hashFreq s = ∅ ∧ param s = p ∧
  create_index_only p = false ∧
  (indexFilename p ≠ "" →
   files w' = <[indexFilename p := index_bytes3 s]> (files w)) ∧
  (indexFilename p = "" → files w' = files w) ∧
  ∃ before, cerr w' = before ++ final_report s.
Proof.
  unfold Sketch_ctor. intros Hctor.
  destruct (decide (indexFilename p = "" ∨ files w !! indexFilename p = None
                    ∨ overwrite_index p = true)) as [Hcond | Hcond].
  2: { apply build_branch_false in Hcond as (Hname & [bytes Hbytes] & Hover).
       rewrite (initialize_load_branch size_raw key_raw segLength_raw
                  sketchSize_raw kmerSize_raw MinmerInfo_raw IntervalPoint_raw
                  for_each_seq_in_file addMinmers delivery targets
                  (Sketch_new p md sbf) w bytes) in Hctor; done. }
  destruct (initialize_enters_build targets (Sketch_new p md sbf) w Hcond)
    as (Hexit & Hstuck & Hret).
  destruct (build' true targets (Sketch_new p md sbf) (initializing w))
    as [s1 w1|code w1|r w1] eqn:Hb.
  2: { rewrite (Hexit code w1 eq_refl) in Hctor. discriminate. }
  2: { rewrite (Hstuck r w1 eq_refl) in Hctor. discriminate. }
  destruct (Hret s1 w1 eq_refl) as (w2 & Hf2 & _ & Hinit).
  rewrite Hinit in Hctor. clear Hinit Hexit Hstuck Hret.
  apply build_true_ret in Hb as (Hp & Hf1).
  cbn [files initializing] in Hf1.
  destruct (prune_frame s1) as (Hpp & _).
  revert Hctor. cbv zeta. cbn [param set_hashFreq]. rewrite Hpp, Hp.
  destruct (create_index_only p) eqn:Hcreate.
  { case_bool_decide; intros Hctor; discriminate Hctor. }
  assert (Hq : param (set_hashFreq ∅ (prune s1)) = p)
    by (change (param (prune s1) = p); by rewrite Hpp).
  case_bool_decide as Hname.
  - unfold mbind at 1. unfold M_bind at 1.
    unfold writeIndex at 1. unfold mbind at 1. unfold M_bind at 1.
    unfold enter at 1, store_file at 1.
    unfold mbind at 1. unfold M_bind at 1. unfold mret at 1, M_ret at 1.
    rewrite report_and_return_eval. intros [= <- <-].
    split; [reflexivity|]. split; [reflexivity|]. split; [exact Hq|].
    split; [reflexivity|]. split; [|split; [done|by eexists]].
    intros _. cbn [files].
    replace (param (computeFreqHist_state s1)) with p
      by (symmetry; exact Hq).
    rewrite Hf2, Hf1. reflexivity.
  - unfold mbind at 1. unfold M_bind at 1. unfold mret at 1, M_ret at 1.
    unfold mbind at 1. unfold M_bind at 1. unfold mret at 1, M_ret at 1.
    rewrite report_and_return_eval. intros [= <- <-].
    split; [reflexivity|]. split; [reflexivity|]. split; [exact Hq|].
    split; [reflexivity|]. split; [done|]. split; [|by eexists].
    intros _. cbn [files]. by rewrite Hf2, Hf1.
Qed.

(** The first number of the report, [minmerPosLookupIndex.size() -
    frequentSeeds.size()], is the number of hashes of the positions map
    that are not frequent: after construction every frequent seed is a
    hash of the positions map, so the unsigned subtraction does not wrap. *)
Theorem reported_hash_count p md sbf targets w s w' :
  Sketch_ctor' p md sbf targets w = Ret s w' →
  Z.of_nat (size (minmerPosLookupIndex s)) < two64 →
  frequentSeeds s ⊆ dom (minmerPosLookupIndex s) ∧
  to_u64 (Z.of_nat (size (minmerPosLookupIndex s))
          - Z.of_nat (size (frequentSeeds s)))
  = Z.of_nat (size (dom (minmerPosLookupIndex s) ∖ frequentSeeds s)).
Proof.
  intros Hctor Hsz.
  apply (constructed_state size_raw key_raw segLength_raw sketchSize_raw
           kmerSize_raw MinmerInfo_raw IntervalPoint_raw) in Hctor
    as (md' & sbf' & outputs & ->).
  cbn [frequentSeeds minmerPosLookupIndex set_isInitialized set_hashFreq]
    in *.
  assert (Hsub : frequentSeeds (prune (accumulate (Sketch_new p md' sbf') outputs))
                 ⊆ dom (minmerPosLookupIndex
                          (prune (accumulate (Sketch_new p md' sbf') outputs)))).
  { intros H HH. apply elem_of_dom. by apply prune_seeds_in_index. }
  split; [exact Hsub|].
  rewrite size_difference by exact Hsub. rewrite size_dom.
  apply subseteq_size in Hsub. rewrite size_dom in Hsub.
  rewrite to_u64_id by lia. lia.
Qed.

End constructor.

(** ** Examples of runs of the constructor *)

Module build_examples.
Import skch.

(** A reference file with the sequence [chr1] of ten bases, and one with a
    sequence of three bases. *)
Definition one_contig (fileName : string) (targets : list string)
    : list (string * string) := [("chr1", "ACGTACGTAC")].

Definition short_contig (fileName : string) (targets : list string)
    : list (string * string) := [("tiny", "ACG")].

(** Two minmers for every sequence. *)
Definition two_minmers (seq : string) (len k w a s id : Z)
    : list MinmerInfo :=
  [mkMinmerInfo 11 0 5 id 0; mkMinmerInfo 12 1 6 id 0].

(** Parameters with segment length 5 and the index file [name]. *)
Definition params (name : string) (create_only : bool) : Parameters :=
  mkParameters name false create_only ["ref.fa"] 5 1 3 4 1 (50 # 1).

(** A sketch that holds the hash 21, under the parameters of
    [io_examples.pruned]. *)
Definition other_hash : Sketch :=
  accumulate (Sketch_new (io_examples.indexed_params 19) [] [])
    [[examples.minmer 21 0 5 0]].

End build_examples.

Section constructor_witnesses.
Import skch.

Lemma build_collects_metadata_witness :
  ∃ s w',
    build build_examples.one_contig build_examples.two_minmers
      io_examples.in_order true []
      (Sketch_new (build_examples.params "ref.idx" false) [] [])
      io_examples.empty_world = Ret s w' ∧
    metadata s = [mkContigInfo "chr1" 10] ∧
    sequencesByFileInfo s = [Z.of_nat (length (idManager w'))].
Proof.
  destruct (build build_examples.one_contig build_examples.two_minmers
              io_examples.in_order true []
              (Sketch_new (build_examples.params "ref.idx" false) [] [])
              io_examples.empty_world) as [s w'|code w'|r w'] eqn:Hb;
    [|vm_compute in Hb; discriminate..].
  exists s, w'. split; [reflexivity|].
  destruct (build_collects_metadata build_examples.one_contig
              build_examples.two_minmers io_examples.in_order
              (build_examples.params "ref.idx" false) [] [] []
              io_examples.empty_world s w' Hb) as (_ & Hm & Hs & _).
  split; [rewrite Hm; vm_compute; reflexivity|exact Hs].
Defined.

Lemma constructor_exits_without_long_sequence_witness :
  Forall (λ e : string * string,
            Z.of_nat (String.length e.2)
            < to_u64 (segLength (build_examples.params "ref.idx" false)))
    (all_sequences build_examples.short_contig
       (build_examples.params "ref.idx" false) []) ∧
  ∃ w',
    Sketch_ctor u64_raw u64_raw u64_raw u64_raw u64_raw MinmerInfo_le
      IntervalPoint_le build_examples.short_contig build_examples.two_minmers
      io_examples.in_order (build_examples.params "ref.idx" false) [] [] []
      io_examples.empty_world = Exit 1 w' ∧
    files w' = files io_examples.empty_world ∧
    idManager w' = idManager io_examples.empty_world.
Proof.
  assert (H1 : Forall (λ e : string * string,
                         Z.of_nat (String.length e.2)
                         < to_u64 (segLength
                                     (build_examples.params "ref.idx" false)))
                 (all_sequences build_examples.short_contig
                    (build_examples.params "ref.idx" false) []))
    by (apply (bool_decide_unpack _); vm_compute; exact I).
  split; [exact H1|].
  exact (constructor_exits_without_long_sequence u64_raw u64_raw u64_raw
           u64_raw u64_raw MinmerInfo_le IntervalPoint_le
           build_examples.short_contig build_examples.two_minmers
           io_examples.in_order (build_examples.params "ref.idx" false)
           [] [] [] io_examples.empty_world H1 eq_refl).
Defined.

Lemma create_index_only_exits_witness :
  ∃ w',
    Sketch_ctor u64_raw u64_raw u64_raw u64_raw u64_raw MinmerInfo_le
      IntervalPoint_le build_examples.one_contig build_examples.two_minmers
      io_examples.in_order (build_examples.params "ref.idx" true) [] [] []
      io_examples.empty_world = Exit 0 w' ∧
    is_Some (files w' !! "ref.idx").
Proof.
  assert (H1 : indexFilename (build_examples.params "ref.idx" true) = ""
               ∨ files io_examples.empty_world
                   !! indexFilename (build_examples.params "ref.idx" true)
                 = None
               ∨ overwrite_index (build_examples.params "ref.idx" true) = true)
    by (right; left; vm_compute; reflexivity).
  destruct (build build_examples.one_contig build_examples.two_minmers
              io_examples.in_order true []
              (Sketch_new (build_examples.params "ref.idx" true) [] [])
              (initializing io_examples.empty_world))
    as [s1 w1|code w1|r w1] eqn:Hb;
    [|vm_compute in Hb; discriminate..].
  destruct (create_index_only_exits u64_raw u64_raw u64_raw u64_raw u64_raw
              MinmerInfo_le IntervalPoint_le build_examples.one_contig
              build_examples.two_minmers io_examples.in_order
              (build_examples.params "ref.idx" true) [] [] []
              io_examples.empty_world s1 w1 H1 eq_refl Hb) as (w' & Hw' & Hf).
  exists w'. split; [exact Hw'|]. rewrite Hf.
  rewrite bool_decide_eq_true_2 by (vm_compute; discriminate).
  rewrite lookup_insert_eq. eauto.
Defined.

Lemma constructed_sketch_is_persisted_witness :
  ∃ s w',
    Sketch_ctor u64_raw u64_raw u64_raw u64_raw u64_raw MinmerInfo_le
      IntervalPoint_le build_examples.one_contig build_examples.two_minmers
      io_examples.in_order (build_examples.params "ref.idx" false) [] [] []
      io_examples.empty_world = Ret s w' ∧
    isInitialized s = true ∧
    files w'
    = <["ref.idx" := index_bytes u64_raw u64_raw u64_raw u64_raw u64_raw
                       MinmerInfo_le IntervalPoint_le s]>
        (files io_examples.empty_world).
Proof.
  destruct (Sketch_ctor u64_raw u64_raw u64_raw u64_raw u64_raw MinmerInfo_le
              IntervalPoint_le build_examples.one_contig
              build_examples.two_minmers io_examples.in_order
              (build_examples.params "ref.idx" false) [] [] []
              io_examples.empty_world) as [s w'|code w'|r w'] eqn:Hc;
    [|vm_compute in Hc; discriminate..].
  exists s, w'. split; [reflexivity|].
  destruct (constructed_sketch_is_persisted u64_raw u64_raw u64_raw u64_raw
              u64_raw MinmerInfo_le IntervalPoint_le build_examples.one_contig
              build_examples.two_minmers io_examples.in_order
              (build_examples.params "ref.idx" false) [] [] []
              io_examples.empty_world s w' Hc)
    as (Hinit & _ & _ & _ & Hfile & _).
  split; [exact Hinit|]. apply Hfile. vm_compute. discriminate.
Defined.

Lemma reported_hash_count_witness :
  ∃ s w',
    Sketch_ctor u64_raw u64_raw u64_raw u64_raw u64_raw MinmerInfo_le
      IntervalPoint_le build_examples.one_contig build_examples.two_minmers
      io_examples.in_order (build_examples.params "ref.idx" false) [] [] []
      io_examples.empty_world = Ret s w' ∧
    Z.of_nat (size (minmerPosLookupIndex s)) < two64 ∧
    to_u64 (Z.of_nat (size (minmerPosLookupIndex s))
            - Z.of_nat (size (frequentSeeds s)))
    = Z.of_nat (size (dom (minmerPosLookupIndex s) ∖ frequentSeeds s)).
Proof.
  destruct (Sketch_ctor u64_raw u64_raw u64_raw u64_raw u64_raw MinmerInfo_le
              IntervalPoint_le build_examples.one_contig
              build_examples.two_minmers io_examples.in_order
              (build_examples.params "ref.idx" false) [] [] []
              io_examples.empty_world) as [s w'|code w'|r w'] eqn:Hc;
    [|vm_compute in Hc; discriminate..].
  assert (Hsz : Z.of_nat (size (minmerPosLookupIndex s)) < two64).
  { pose proof Hc as Hv. vm_compute in Hv. injection Hv as <- _.
    vm_compute. reflexivity. }
  exists s, w'. split; [reflexivity|]. split; [exact Hsz|].
  exact (proj2 (reported_hash_count u64_raw u64_raw u64_raw u64_raw u64_raw
                  MinmerInfo_le IntervalPoint_le build_examples.one_contig
                  build_examples.two_minmers io_examples.in_order
                  (build_examples.params "ref.idx" false) [] [] []
                  io_examples.empty_world s w' Hc Hsz)).
Defined.

Lemma readIndex_merges_witness :
  index_ok u64_raw u64_raw u64_raw u64_raw u64_raw MinmerInfo_le
    IntervalPoint_le io_examples.pruned ∧
  ∃ w1 s w2,
    writeIndex u64_raw u64_raw u64_raw u64_raw u64_raw MinmerInfo_le
      IntervalPoint_le io_examples.pruned io_examples.empty_world
    = Ret () w1 ∧
    readIndex u64_raw u64_raw u64_raw u64_raw u64_raw MinmerInfo_le
      IntervalPoint_le build_examples.other_hash w1 = Ret s w2 ∧
    minmerIndex s = minmerIndex io_examples.pruned ∧
    minmerPosLookupIndex s !! 21
    = Some [mkIntervalPoint 0 21 0 OPEN; mkIntervalPoint 5 21 0 CLOSE] ∧
    minmerPosLookupIndex s !! 12
    = minmerPosLookupIndex io_examples.pruned !! 12.
Proof.
  assert (Hok : index_ok u64_raw u64_raw u64_raw u64_raw u64_raw MinmerInfo_le
                  IntervalPoint_le io_examples.pruned).
  { split; unfold params_ok;
      apply (bool_decide_unpack _); vm_compute; exact I. }
  assert (Hsame : same_parameters (param build_examples.other_hash)
                    (param io_examples.pruned))
    by (repeat split; reflexivity).
  split; [exact Hok|].
  destruct (readIndex_merges u64_raw u64_raw u64_raw u64_raw u64_raw
              MinmerInfo_le IntervalPoint_le io_examples.pruned
              build_examples.other_hash io_examples.empty_world Hok eq_refl
              Hsame)
    as (w1 & s & w2 & Hw & Hr & Hm & Hidx & _).
  exists w1, s, w2. split; [exact Hw|]. split; [exact Hr|].
  split; [exact Hm|]. split.
  - rewrite Hidx. vm_compute. reflexivity.
  - rewrite Hidx. vm_compute. reflexivity.
Defined.

Lemma clear_then_reload_witness :
  index_ok u64_raw u64_raw u64_raw u64_raw u64_raw MinmerInfo_le
    IntervalPoint_le io_examples.pruned ∧
  ∃ w1 s w2,
    writeIndex u64_raw u64_raw u64_raw u64_raw u64_raw MinmerInfo_le
      IntervalPoint_le io_examples.pruned io_examples.empty_world
    = Ret () w1 ∧
    readIndex u64_raw u64_raw u64_raw u64_raw u64_raw MinmerInfo_le
      IntervalPoint_le (clear io_examples.pruned) w1 = Ret s w2 ∧
    minmerPosLookupIndex s = minmerPosLookupIndex io_examples.pruned ∧
    getFreqThreshold s = -1 ∧
    getFreqThreshold io_examples.pruned = 4.
Proof.
  assert (Hok : index_ok u64_raw u64_raw u64_raw u64_raw u64_raw MinmerInfo_le
                  IntervalPoint_le io_examples.pruned).
  { split; unfold params_ok;
      apply (bool_decide_unpack _); vm_compute; exact I. }
  split; [exact Hok|].
  destruct (clear_then_reload u64_raw u64_raw u64_raw u64_raw u64_raw
              MinmerInfo_le IntervalPoint_le io_examples.pruned
              io_examples.empty_world Hok)
    as (w1 & s & w2 & Hw & Hr & _ & Hidx & _ & _ & _ & _ & Hg).
  exists w1, s, w2. split; [exact Hw|]. split; [exact Hr|].
  split; [exact Hidx|]. split; [exact Hg|]. vm_compute. reflexivity.
Defined.

End constructor_witnesses.

(** ** The mapping-row parser: what a parsed record is *)

Section parse_more.
Import align.
Context {float : Type}.
Context (split : string → ascii → list string).
Context (is_a_number : string → bool).
Context (stof : string → option float).
Context (percentage_identity : float).

Lemma stoi_range s v : stoi s = Parsed v → - 2 ^ 31 ≤ v ≤ 2 ^ 31 - 1.
Proof.
  unfold stoi. destruct (match skip_spaces s with
                         | String "-"%char s' => (true, s')
                         | String "+"%char s' => (false, s')
                         | _ => (false, skip_spaces s)
                         end) as [negative s'].
  destruct (digits s' 0 false) as [v0 seen].
  destruct (negb seen); [done|].
  case_bool_decide as Hr; [|done]. by intros [= <-].
Qed.

Lemma at_index_Parsed {A} (v : list A) i x :
  at_index v i = Parsed x → v !! i = Some x.
Proof. unfold at_index. by destruct (v !! i); intros [= <-]. Qed.

Lemma parsed_bind_inv {A B} (m : parsed A) (f : A → parsed B) b :
  m ≫= f = Parsed b → ∃ a, m = Parsed a ∧ f a = Parsed b.
Proof. destruct m as [a| | |]; [|done..]. intros H. by exists a. Qed.

Lemma at_index_lt {A} (v : list A) i :
  (i < length v)%nat → ∃ x, v !! i = Some x ∧ at_index v i = Parsed x.
Proof.
  intros [x Hx]%lookup_lt_is_Some. exists x. split; [done|].
  unfold at_index. by rewrite Hx.
Qed.

(** [std::stoi] returns or throws. *)
Lemma stoi_fails s :
  match stoi s with Parsed _ | Throws _ => True | _ => False end.
Proof.
  unfold stoi. destruct (match skip_spaces s with
                         | String "-"%char s' => (true, s')
                         | String "+"%char s' => (false, s')
                         | _ => (false, skip_spaces s)
                         end) as [negative s'].
  destruct (digits s' 0 false) as [v0 seen].
  destruct (negb seen); [done|]. by case_bool_decide.
Qed.

Lemma parsed_fields line (record r : MappingBoundaryRow float) :
  parseMashmapRow split is_a_number stof percentage_identity line record
    = Parsed r →
  tokenize line !! 0%nat = Some (qId r) ∧
  tokenize line !! 5%nat = Some (refId r) ∧
  (strand r = FWD ↔ tokenize line !! 4%nat = Some "+") ∧
  rankMapping r = rankMapping record ∧
  (∃ t2 t3 t7 t8,
     tokenize line !! 2%nat = Some t2 ∧ stoi t2 = Parsed (qStartPos r) ∧
     tokenize line !! 3%nat = Some t3 ∧ stoi t3 = Parsed (qEndPos r) ∧
     tokenize line !! 7%nat = Some t7 ∧ stoi t7 = Parsed (rStartPos r) ∧
     tokenize line !! 8%nat = Some t8 ∧ stoi t8 = Parsed (rEndPos r)) ∧
  Forall (λ z, - 2 ^ 31 ≤ z ≤ 2 ^ 31 - 1)
    [qStartPos r; qEndPos r; rStartPos r; rEndPos r] ∧
  (∃ t12 id_field,
     tokenize line !! 12%nat = Some t12 ∧
     last (split t12 ":"%char) = Some id_field ∧
     (is_a_number id_field = true →
      stof id_field = Some (mashmap_estimated_identity r)) ∧
     (is_a_number id_field = false →
      mashmap_estimated_identity r = percentage_identity)).
Proof.
  unfold parseMashmapRow. cbv zeta.
  destruct (negb (9 <=? length (tokenize line))%nat); [done|].
  intros (token12 & H12%at_index_Parsed & H)%parsed_bind_inv.
  apply parsed_bind_inv in H as (id_field & Hid & H).
  apply parsed_bind_inv in H as (mm_id & Hmm & H).
  apply parsed_bind_inv in H as (token0 & H0%at_index_Parsed & H).
  apply parsed_bind_inv in H as (token2 & H2%at_index_Parsed & H).
  apply parsed_bind_inv in H as (qStart & Hqs & H).
  apply parsed_bind_inv in H as (token3 & H3%at_index_Parsed & H).
  apply parsed_bind_inv in H as (qEnd & Hqe & H).
  apply parsed_bind_inv in H as (token4 & H4%at_index_Parsed & H).
  apply parsed_bind_inv in H as (token5 & H5%at_index_Parsed & H).
  apply parsed_bind_inv in H as (token7 & H7%at_index_Parsed & H).
  apply parsed_bind_inv in H as (rStart & Hrs & H).
  apply parsed_bind_inv in H as (token8 & H8%at_index_Parsed & H).
  apply parsed_bind_inv in H as (rEnd & Hre & H).
  injection H as <-. cbn.
  split; [done|]. split; [done|]. split.
  { rewrite H4. case_bool_decide as Hplus.
    - by rewrite Hplus.
    - split; [done|]. intros [= ->]. done. }
  split; [done|]. split.
  { exists token2, token3, token7, token8. by repeat split. }
  split.
  { repeat constructor; by eapply stoi_range. }
  exists token12, id_field. split; [done|].
  destruct (last (split token12 ":"%char)) as [x|] eqn:Hlast; [|done].
  injection Hid as ->. split; [done|].
  destruct (is_a_number id_field).
  - split; [|done]. intros _.
    destruct (stof id_field) as [x|]; [|done]. by injection Hmm as ->.
  - split; [done|]. intros _. by injection Hmm as ->.
Qed.

(** On a line of at least thirteen white-space separated tokens, the
    lines on which the read of [tokens[12]] is within the vector,
    [parseMashmapRow] passes its assertion and reads no token out of
    bounds: it returns a record or ends by an exception of [std::stoi] or
    [std::stof] (or by [back()] on an empty vector, should the split of
    token 12 give no field).  A record that it returns has the tokens 0
    and 5 as its names; its strand is forward exactly when token 4 is [+];
    its four coordinates are what [std::stoi] reads in the tokens 2, 3, 7
    and 8 and so lie in the range of [int], whatever the width of the
    fields; its identity is read from the last [:]-separated field of
    token 12 when that is a number and is [percentage_identity] otherwise;
    and [rankMapping] is the one the record had before. *)
Theorem parsed_record line (record : MappingBoundaryRow float) :
  (13 ≤ length (tokenize line))%nat →
  let res :=
    parseMashmapRow split is_a_number stof percentage_identity line record in
  res ≠ AssertionFailed ∧
  (∀ i n, res = OutOfRange i n →
     ∃ t12, tokenize line !! 12%nat = Some t12 ∧ split t12 ":"%char = []) ∧
  (∀ r, res = Parsed r →
     tokenize line !! 0%nat = Some (qId r) ∧
     tokenize line !! 5%nat = Some (refId r) ∧
     (strand r = FWD ↔ tokenize line !! 4%nat = Some "+") ∧
     rankMapping r = rankMapping record ∧
     (∃ t2 t3 t7 t8,
        tokenize line !! 2%nat = Some t2 ∧ stoi t2 = Parsed (qStartPos r) ∧
        tokenize line !! 3%nat = Some t3 ∧ stoi t3 = Parsed (qEndPos r) ∧
        tokenize line !! 7%nat = Some t7 ∧ stoi t7 = Parsed (rStartPos r) ∧
        tokenize line !! 8%nat = Some t8 ∧ stoi t8 = Parsed (rEndPos r)) ∧
     Forall (λ z, - 2 ^ 31 ≤ z ≤ 2 ^ 31 - 1)
       [qStartPos r; qEndPos r; rStartPos r; rEndPos r] ∧
     (∃ t12 id_field,
        tokenize line !! 12%nat = Some t12 ∧
        last (split t12 ":"%char) = Some id_field ∧
        (is_a_number id_field = true →
         stof id_field = Some (mashmap_estimated_identity r)) ∧
        (is_a_number id_field = false →
         mashmap_estimated_identity r = percentage_identity))).
Proof.
  intros Hlen res.
  assert (Hfields : ∀ r, res = Parsed r → _) by
    (intros r Hr; exact (parsed_fields line record r Hr)).
  assert (Hres : res ≠ AssertionFailed ∧
            ∀ i n, res = OutOfRange i n →
              ∃ t12, tokenize line !! 12%nat = Some t12
                     ∧ split t12 ":"%char = []); [|by destruct Hres].
  clear Hfields. subst res. unfold parseMashmapRow. cbv zeta.
  replace (9 <=? length (tokenize line))%nat with true
    by (symmetry; apply Nat.leb_le; lia).
  cbn [negb].
  destruct (at_index_lt (tokenize line) 12) as (t12 & H12 & ->); [lia|].
  destruct (at_index_lt (tokenize line) 0) as (t0 & _ & ->); [lia|].
  destruct (at_index_lt (tokenize line) 2) as (t2 & _ & ->); [lia|].
  destruct (at_index_lt (tokenize line) 3) as (t3 & _ & ->); [lia|].
  destruct (at_index_lt (tokenize line) 4) as (t4 & _ & ->); [lia|].
  destruct (at_index_lt (tokenize line) 5) as (t5 & _ & ->); [lia|].
  destruct (at_index_lt (tokenize line) 7) as (t7 & _ & ->); [lia|].
  destruct (at_index_lt (tokenize line) 8) as (t8 & _ & ->); [lia|].
  cbn [mbind parsed_bind].
  destruct (last (split t12 ":"%char)) as [id_field|] eqn:Hlast.
  2: { split; [done|]. intros i n _. exists t12. split; [done|].
       by apply last_None. }
  cbn [mbind parsed_bind].
  pose proof (stoi_fails t2) as F2. pose proof (stoi_fails t3) as F3.
  pose proof (stoi_fails t7) as F7. pose proof (stoi_fails t8) as F8.
  destruct (is_a_number id_field); [destruct (stof id_field) as [mm_id|]|];
    cbn [mbind parsed_bind]; try (by split);
    (destruct (stoi t2) as [qStart| | |]; cbn [mbind parsed_bind];
     [|exfalso; exact F2|exfalso; exact F2|by split]);
    (destruct (stoi t3) as [qEnd| | |]; cbn [mbind parsed_bind];
     [|exfalso; exact F3|exfalso; exact F3|by split]);
    (destruct (stoi t7) as [rStart| | |]; cbn [mbind parsed_bind];
     [|exfalso; exact F7|exfalso; exact F7|by split]);
    (destruct (stoi t8) as [rEnd| | |]; cbn [mbind parsed_bind];
     [|exfalso; exact F8|exfalso; exact F8|by split]);
    by split.
Qed.

End parse_more.

(** ** Tokens *)

Section tokens.
Import align.

Lemma append_cons c (a b : string) : String c a +:+ b = String c (a +:+ b).
Proof. reflexivity. Qed.

Lemma append_nil_l (b : string) : "" +:+ b = b.
Proof. reflexivity. Qed.

Lemma append_assoc (a b c : string) : (a +:+ b) +:+ c = a +:+ (b +:+ c).
Proof.
  induction a as [|x a IH]; [done|]. by rewrite !append_cons, IH.
Qed.

Lemma append_nil_r (a : string) : a +:+ "" = a.
Proof. induction a as [|x a IH]; [done|]. by rewrite append_cons, IH. Qed.

(** Reading the characters of a token extends the word being read. *)
Lemma tokens_of_word (t : string) : ∀ s word,
  no_space t → tokens_of (t +:+ s) word = tokens_of s (word +:+ t).
Proof.
  induction t as [|c t IH]; intros s word Ht.
  - by rewrite append_nil_l, append_nil_r.
  - destruct Ht as [Hc Ht]. rewrite append_cons. cbn [tokens_of].
    rewrite Hc, IH by done.
    by rewrite append_assoc, append_cons, append_nil_l.
Qed.

(** White space after an empty word is skipped. *)
Lemma tokens_of_space (ws : string) : ∀ s,
  all_space ws → tokens_of (ws +:+ s) "" = tokens_of s "".
Proof.
  induction ws as [|c ws IH]; intros s Hws; [done|].
  destruct Hws as [Hc Hws]. rewrite append_cons. cbn [tokens_of].
  rewrite Hc, bool_decide_eq_true_2 by done. by apply IH.
Qed.

(** White space after a word ends the word. *)
Lemma tokens_of_separator (sep : string) s word :
  all_space sep → sep ≠ "" → word ≠ "" →
  tokens_of (sep +:+ s) word = word :: tokens_of s "".
Proof.
  intros Hsep Hne Hword. destruct sep as [|c ws]; [done|].
  destruct Hsep as [Hc Hws]. rewrite append_cons. cbn [tokens_of].
  rewrite Hc, bool_decide_eq_false_2 by done. f_equal.
  by apply tokens_of_space.
Qed.

(** No token is empty or holds white space. *)
Lemma tokens_of_clean (s : string) : ∀ word t,
  no_space word → t ∈ tokens_of s word → t ≠ "" ∧ no_space t.
Proof.
  induction s as [|c s IH]; intros word t Hw Hin; simpl in Hin.
  - case_bool_decide as He; [by apply elem_of_nil in Hin|].
    apply list_elem_of_singleton in Hin as ->. done.
  - destruct (isspace c) eqn:Hc.
    + case_bool_decide as He.
      * apply (IH "" t); [done|done].
      * apply elem_of_cons in Hin as [-> | Hin]; [done|].
        apply (IH "" t); [done|done].
    + apply (IH (word +:+ String c "") t); [|done].
      clear -Hw Hc.
      induction word as [|x word IHw]; [done|].
      destruct Hw as [Hx Hw]. rewrite append_cons.
      split; [done|by apply IHw].
Qed.

Lemma tokens_of_join (sep : string) (toks : list string) :
  all_space sep → sep ≠ "" →
  Forall (λ t, t ≠ "" ∧ no_space t) toks →
  tokens_of (join sep toks) "" = toks.
Proof.
  intros Hsep Hne Htoks.
  induction Htoks as [|t toks [Ht Hns] Htoks IH]; [done|].
  destruct toks as [|t' toks'].
  - cbn [join]. rewrite <- (append_nil_r t) at 1.
    rewrite tokens_of_word, append_nil_l by done. cbn [tokens_of].
    by rewrite bool_decide_eq_false_2.
  - change (join sep (t :: t' :: toks'))
      with (t +:+ sep +:+ join sep (t' :: toks')).
    rewrite tokens_of_word, append_nil_l by done.
    rewrite tokens_of_separator by done. by rewrite IH.
Qed.

(** The stream extraction of [parseMashmapRow] splits a line at white
    space of any kind and length: no token is empty or holds white space,
    and for fields that are not empty and hold no white space, joined by
    any separator made of white space (a tab, a space, several of them),
    the tokens are the fields. *)
Theorem tokenize_fields :
  (∀ line t, t ∈ tokenize line → t ≠ "" ∧ no_space t) ∧
  (∀ (sep : string) (toks : list string),
     all_space sep → sep ≠ "" →
     Forall (λ t, t ≠ "" ∧ no_space t) toks →
     tokenize (join sep toks) = toks).
Proof.
  split.
  - intros line t Hin. by apply (tokens_of_clean line "" t).
  - intros sep toks Hsep Hne Htoks. unfold tokenize.
    by apply tokens_of_join.
Qed.

End tokens.

(** ** The paddings of records that do not fit their reference *)

Section padding_more.
Import align.
Context {float : Type}.

(** The paddings never exceed [wflign_max_len_minor], and they are not
    clamped for a record that does not fit its reference: with a negative
    start the head padding, and with an end beyond the reference (or a
    reference that is not found, of length -1) the tail padding, is the
    whole [wflign_max_len_minor], because the signed quantity is compared
    as a [uint64_t]; the fetch then extends before position 0 or beyond
    the end of the reference. *)
Theorem padding_of_misplaced_record (param : Parameters) (ref_size : Z)
    (record : MappingBoundaryRow float) :
  0 ≤ wflign_max_len_minor param ≤ two63 →
  let pl := plan param ref_size record in
  (head_padding pl ≤ wflign_max_len_minor param ∧
   tail_padding pl ≤ wflign_max_len_minor param) ∧
  (- two63 ≤ rStartPos record < 0 →
   head_padding pl = wflign_max_len_minor param ∧
   ref_beg pl = to_i64 (rStartPos record - wflign_max_len_minor param)) ∧
  (- two63 ≤ ref_size - rEndPos record < 0 →
   0 ≤ rEndPos record < two63 →
   tail_padding pl = wflign_max_len_minor param ∧
   ref_end pl = to_i64 (rEndPos record + wflign_max_len_minor param)).
Proof.
  intros Hmax pl. subst pl. unfold plan. cbn [head_padding tail_padding
    ref_beg ref_end].
  assert (H63 : two64 = 2 * two63) by done.
  assert (Hpos : 0 < two63) by done.
  split; [split; case_bool_decide; lia|]. split.
  - intros Hs.
    assert (Hu : to_u64 (rStartPos record) = rStartPos record + two64).
    { unfold to_u64. symmetry. apply Z.mod_unique with (-1); lia. }
    rewrite Hu. rewrite bool_decide_eq_true_2 by lia. split; [done|].
    unfold to_i64, to_u64.
    rewrite Zplus_mod_idemp_l. f_equal.
    replace (rStartPos record + two64 - wflign_max_len_minor param + two63)
      with (rStartPos record - wflign_max_len_minor param + two63
            + 1 * two64) by lia.
    by rewrite Z.mod_add by lia.
  - intros Hr He.
    rewrite (to_i64_id (ref_size - rEndPos record)) by lia.
    assert (Hu : to_u64 (ref_size - rEndPos record)
                 = ref_size - rEndPos record + two64).
    { unfold to_u64. symmetry. apply Z.mod_unique with (-1); lia. }
    rewrite Hu. rewrite bool_decide_eq_true_2 by lia. split; [done|].
    rewrite (to_u64_id (rEndPos record)) by lia.
    unfold to_i64, to_u64. by rewrite Zplus_mod_idemp_l.
Qed.

End padding_more.

Section align_more_witnesses.
Import align.

Lemma parsed_record_witness :
  (13 ≤ length (tokenize align_examples.s4_line))%nat ∧
  align_examples.parse align_examples.s4_line align_examples.blank_record
    = Parsed align_examples.s4_record ∧
  tokenize align_examples.s4_line !! 5%nat
    = Some (refId align_examples.s4_record) ∧
  Forall (λ z, - 2 ^ 31 ≤ z ≤ 2 ^ 31 - 1)
    [qStartPos align_examples.s4_record; qEndPos align_examples.s4_record;
     rStartPos align_examples.s4_record; rEndPos align_examples.s4_record].
Proof.
  assert (H0 : (13 ≤ length (tokenize align_examples.s4_line))%nat)
    by (vm_compute; lia).
  assert (H1 : parseMashmapRow align_examples.split
                 align_examples.is_a_number align_examples.stof
                 align_examples.percentage_identity align_examples.s4_line
                 align_examples.blank_record
               = Parsed align_examples.s4_record)
    by (vm_compute; reflexivity).
  split; [exact H0|]. split; [exact H1|].
  destruct (parsed_record align_examples.split align_examples.is_a_number
              align_examples.stof align_examples.percentage_identity
              align_examples.s4_line align_examples.blank_record H0)
    as (_ & _ & Hfields).
  destruct (Hfields align_examples.s4_record H1)
    as (_ & Href & _ & _ & _ & Hr & _).
  split; [exact Href|exact Hr].
Defined.

(** The fields of scenario S4, separated by a tab and a space. *)
Lemma tokenize_fields_witness :
  all_space (String (ascii_of_nat 9) " ") ∧
  String (ascii_of_nat 9) " " ≠ "" ∧
  Forall (λ t, t ≠ "" ∧ no_space t) ["q0"; "10000"; "0"; "100"; "+"] ∧
  tokenize (join (String (ascii_of_nat 9) " ")
              ["q0"; "10000"; "0"; "100"; "+"])
  = ["q0"; "10000"; "0"; "100"; "+"].
Proof.
  assert (H1 : all_space (String (ascii_of_nat 9) " "))
    by (vm_compute; repeat split).
  assert (H2 : String (ascii_of_nat 9) " " ≠ "") by discriminate.
  assert (H3 : Forall (λ t, t ≠ "" ∧ no_space t)
                 ["q0"; "10000"; "0"; "100"; "+"])
    by (repeat constructor; try discriminate; vm_compute; repeat split).
  split; [exact H1|]. split; [exact H2|]. split; [exact H3|].
  exact (proj2 tokenize_fields (String (ascii_of_nat 9) " ")
           ["q0"; "10000"; "0"; "100"; "+"] H1 H2 H3).
Defined.

(** A record that ends at 2500 on the reference [r0] of 2000 bases. *)
Lemma padding_of_misplaced_record_witness :
  0 ≤ wflign_max_len_minor align_examples.params ≤ two63 ∧
  - two63 ≤ 2000 - 2500 < 0 ∧
  tail_padding
    (plan align_examples.params 2000
       (mkMappingBoundaryRow Q "q0" "r0" 0 100 1900 2500 FWD (95 # 1) 0))
  = 512 ∧
  ref_end
    (plan align_examples.params 2000
       (mkMappingBoundaryRow Q "q0" "r0" 0 100 1900 2500 FWD (95 # 1) 0))
  = 3012.
Proof.
  assert (H1 : 0 ≤ wflign_max_len_minor align_examples.params ≤ two63)
    by (vm_compute; split; discriminate).
  assert (H2 : - two63
               ≤ 2000 - rEndPos (mkMappingBoundaryRow Q "q0" "r0" 0 100 1900
                                   2500 FWD (95 # 1) 0) < 0)
    by (vm_compute; split; [discriminate|reflexivity]).
  assert (H3 : 0 ≤ rEndPos (mkMappingBoundaryRow Q "q0" "r0" 0 100 1900
                              2500 FWD (95 # 1) 0) < two63)
    by (vm_compute; split; [discriminate|reflexivity]).
  split; [exact H1|]. split; [exact H2|].
  destruct (padding_of_misplaced_record align_examples.params 2000
              (mkMappingBoundaryRow Q "q0" "r0" 0 100 1900 2500 FWD
                 (95 # 1) 0) H1) as (_ & _ & Htail).
  destruct (Htail H2 H3) as [Ht He]. split; [exact Ht|].
  rewrite He. vm_compute. reflexivity.
Defined.

End align_more_witnesses.

(** ** The pipeline: invariants of every schedule *)

Section pipeline_invariants.
Import align.
Context {float : Type}.
Context (parse : string → MappingBoundaryRow float
                 → parsed (MappingBoundaryRow float)).
Context (align : MappingBoundaryRow float → nat → option string).

(** A property that the launch state has and that every step keeps holds
    after every schedule. *)
Lemma run_invariant (P : pipeline float → Prop) schedule : ∀ st0 st,
  P st0 →
  (∀ t st st', P st → step parse align t st = Some st' → P st') →
  run parse align schedule st0 = Some st → P st.
Proof.
  induction schedule as [|t schedule IH]; intros st0 st H0 Hstep Hrun.
  - simpl in Hrun. by injection Hrun as <-.
  - simpl in Hrun.
    destruct (step parse align t st0) as [st1|] eqn:H1; [|done].
    simpl in Hrun. apply (IH st1); [|done|done]. by apply (Hstep t st0).
Qed.

(** The cases of a step. *)
Ltac step_cases H :=
  unfold step in H;
  match type of H with
  | (if terminated ?st then _ else _) = _ =>
      destruct (terminated st) eqn:Hterm; [discriminate H|]
  end;
  match type of H with
  | match ?t with _ => _ end = _ => destruct t as [| |tid]
  end;
  [ unfold reader_step in H;
    destruct (reader_at _) as [|q|] eqn:Hpc;
    [ destruct (mappingListStream _) as [|line rest] eqn:Hstream;
      [|case_bool_decide as Hline;
        [|destruct (parse _ _) as [r| | |] eqn:Hparse]]
    | case_bool_decide as Hroom; [|discriminate H]
    | discriminate H ]
  | unfold writer_step in H;
    destruct (writer_at _) eqn:Hpc;
    [ destruct (paf_queue _) as [|paf_lines pq] eqn:Hpaf
    |
    | discriminate H ]
  | unfold worker_step in H;
    destruct (workers_at _ !! _) as [[| | |paf_rec| |]|] eqn:Hpc;
    cbn [mbind option_bind] in H;
    [
    | destruct (seq_queue _) as [|rec sq] eqn:Hseq;
      [|destruct (align _ _) as [out|] eqn:Halign]
    |
    | case_bool_decide as Hroom; [|discriminate H]
    |
    | discriminate H
    | discriminate H ] ];
  injection H as <-.

Lemma still_working_false (l : list bool) :
  still_working l = false → Forall (λ b, b = false) l.
Proof.
  unfold still_working.
  assert (Hgen : ∀ acc, foldl orb acc l = false →
                        acc = false ∧ Forall (λ b, b = false) l).
  { induction l as [|b l IH]; intros acc H; simpl in H; [done|].
    apply IH in H as [Hacc Hl]. apply orb_false_iff in Hacc as [-> ->].
    by repeat constructor. }
  intros H. by apply Hgen in H as [_ ?].
Qed.

Lemma order_inv_launch n lines (record : MappingBoundaryRow float) :
  order_inv (launch n lines record).
Proof.
  unfold launch. split; cbn.
  - by rewrite !length_replicate.
  - intros tid Hl. apply lookup_replicate in Hl as [? _]. done.
  - intros tid pc Hl Hpc. apply lookup_replicate in Hl as [-> _].
    by destruct Hpc.
  - done.
  - done.
  - done.
Qed.

(** What a step of worker [tid] from [pc] to [pc'] keeps, when it leaves
    the flags alone and [pc'] is inside the loop. *)
Lemma order_inv_worker (st : pipeline float) tid pc pc' sq pq :
  order_inv st → workers_at st !! tid = Some pc →
  pc ≠ W_finished →
  (pc' = W_store_false → reader_done st = true) → pc' ≠ W_finished →
  order_inv (set_worker tid sq pq (working st) pc' st).
Proof.
  intros [Hlen Hflag Hwork Hdone Hread Hwri] Hpc Hne Hsf Hnf.
  unfold set_worker. split; cbn.
  - by rewrite length_insert.
  - intros tid' Hf. specialize (Hflag tid' Hf).
    destruct (decide (tid = tid')) as [<- | Hd]; [congruence|].
    by rewrite list_lookup_insert_ne.
  - intros tid' pc0 Hl Hcase.
    destruct (decide (tid = tid')) as [<- | Hd].
    + rewrite list_lookup_insert_eq in Hl by (by eapply lookup_lt_Some).
      injection Hl as <-. destruct Hcase as [-> | ->]; [by apply Hsf|done].
    + rewrite list_lookup_insert_ne in Hl by done. by eapply Hwork.
  - done.
  - done.
  - intros Hw. specialize (Hwri Hw). rewrite Forall_lookup in Hwri.
    specialize (Hwri _ _ Hpc). done.
Qed.

Lemma order_inv_step t (st st' : pipeline float) :
  order_inv st → step parse align t st = Some st' → order_inv st'.
Proof.
  intros Hinv H.
  step_cases H; destruct Hinv as [Hlen Hflag Hwork Hdone Hread Hwri].
  - (* the reader finds the end of the file *)
    unfold set_reader. split; cbn; try done.
  - (* an empty line *)
    unfold set_reader. split; cbn; try done;
      intros Hd; specialize (Hdone Hd); congruence.
  - (* a line is parsed *)
    unfold set_reader. split; cbn; try done;
      intros Hd; specialize (Hdone Hd); congruence.
  - unfold terminate. split; cbn; done.
  - unfold terminate. split; cbn; done.
  - unfold terminate. split; cbn; done.
  - (* the reader pushes *)
    unfold set_reader. split; cbn; try done;
      intros Hd; specialize (Hdone Hd); congruence.
  - (* the writer finds the queue empty *)
    unfold set_writer. split; cbn; done.
  - (* the writer writes *)
    unfold set_writer. split; cbn; done.
  - (* the writer looks at the flags *)
    unfold set_writer. split; cbn; try done.
    destruct (still_working (working st)) eqn:Hsw; [done|]. intros _.
    apply still_working_false in Hsw. rewrite Forall_lookup in Hsw.
    apply Forall_lookup. intros tid' pc Hl.
    destruct (lookup_lt_is_Some_2 (working st) tid') as [b Hb].
    { rewrite Hlen. by eapply lookup_lt_Some. }
    specialize (Hsw _ _ Hb). subst b. specialize (Hflag _ Hb). congruence.
  - (* a worker raises its flag *)
    unfold set_worker. split; cbn.
    + by rewrite !length_insert.
    + intros tid' Hf. destruct (decide (tid = tid')) as [<- | Hd].
      * rewrite list_lookup_insert_eq in Hf; [done|].
        rewrite Hlen. by eapply lookup_lt_Some.
      * rewrite list_lookup_insert_ne in Hf by done.
        rewrite list_lookup_insert_ne by done. by apply Hflag.
    + intros tid' pc0 Hl Hcase. destruct (decide (tid = tid')) as [<- | Hd].
      * rewrite list_lookup_insert_eq in Hl by (by eapply lookup_lt_Some).
        injection Hl as <-. by destruct Hcase.
      * rewrite list_lookup_insert_ne in Hl by done. by eapply Hwork.
    + done.
    + done.
    + intros Hw. specialize (Hwri Hw). rewrite Forall_lookup in Hwri.
      specialize (Hwri _ _ Hpc). done.
  - by apply order_inv_worker with W_try_pop.
  - apply order_inv_worker with W_try_pop; try done.
    + by case_bool_decide.
    + by case_bool_decide.
  - unfold terminate. split; cbn; done.
  - apply order_inv_worker with W_load_done; try done.
    + by destruct (reader_done st).
    + by destruct (reader_done st).
  - by apply order_inv_worker with (W_push paf_rec).
  - (* a worker lowers its flag and ends *)
    assert (Hrd : reader_done st = true) by (eapply Hwork; eauto).
    unfold set_worker. split; cbn.
    + by rewrite !length_insert.
    + intros tid' Hf. destruct (decide (tid = tid')) as [<- | Hd].
      * rewrite list_lookup_insert_eq; [done|]. by eapply lookup_lt_Some.
      * rewrite list_lookup_insert_ne in Hf by done.
        rewrite list_lookup_insert_ne by done. by apply Hflag.
    + done.
    + done.
    + done.
    + intros Hw. specialize (Hwri Hw). by apply Forall_insert.
Qed.

Lemma order_inv_run n lines record schedule st :
  run parse align schedule (launch n lines record) = Some st → order_inv st.
Proof.
  apply run_invariant; [apply order_inv_launch|apply order_inv_step].
Qed.

(** The threads end in the order in which [computeAlignments] joins them,
    under every schedule: a worker leaves its loop only after the reader
    has read the whole mapping file and stored [reader_done], and the
    writer ends only after every worker has ended; so with at least one
    worker, the writer having ended means that all threads have. *)
Theorem threads_end_in_order (n : nat) (lines : list string)
    (record : MappingBoundaryRow float) (schedule : list thread)
    (st : pipeline float) :
  run parse align schedule (launch n lines record) = Some st →
  length (workers_at st) = n ∧
  (∀ tid, workers_at st !! tid = Some W_finished →
          reader_at st = R_finished ∧ mappingListStream st = []) ∧
  (writer_at st = Wr_finished →
   ∀ tid, (tid < n)%nat → workers_at st !! tid = Some W_finished) ∧
  ((0 < n)%nat → writer_at st = Wr_finished → terminated st = false →
   joined st = true).
Proof.
  intros Hrun.
  assert (Hn : length (workers_at st) = n).
  { revert Hrun. apply (run_invariant (λ st, length (workers_at st) = n)).
    - unfold launch. cbn. by rewrite length_replicate.
    - intros t s s' Hs H. step_cases H;
        unfold set_reader, set_writer, set_worker, terminate; cbn;
        rewrite ?length_insert; done. }
  pose proof (order_inv_run _ _ _ _ _ Hrun)
    as [Hlen Hflag Hwork Hdone Hread Hwri].
  assert (Hfin : ∀ tid, workers_at st !! tid = Some W_finished →
                        reader_at st = R_finished ∧ mappingListStream st = []).
  { intros tid Hl.
    assert (Hd : reader_done st = true) by (eapply Hwork; eauto).
    specialize (Hdone Hd). split; [done|]. by apply Hread. }
  assert (Hall : writer_at st = Wr_finished →
                 ∀ tid, (tid < n)%nat → workers_at st !! tid = Some W_finished).
  { intros Hw tid Hlt. specialize (Hwri Hw). rewrite Forall_lookup in Hwri.
    destruct (lookup_lt_is_Some_2 (workers_at st) tid) as [pc Hpc]; [lia|].
    by rewrite (Hwri _ _ Hpc) in Hpc. }
  split; [exact Hn|]. split; [exact Hfin|]. split; [exact Hall|].
  intros Hpos Hw Hterm. unfold joined.
  destruct (Hfin 0%nat (Hall Hw 0%nat Hpos)) as [-> _].
  rewrite Hw, Hterm. cbn. rewrite andb_true_r.
  specialize (Hwri Hw). revert Hwri. clear. generalize (workers_at st).
  intros l. induction 1 as [|pc l -> _ IH]; [done|]. cbn. exact IH.
Qed.

(** *** Where the results are *)

Abbreviation occ x l := (count_occ String.eq_dec l x).

Lemma occ_in_flight_insert (l : list worker_pc) : ∀ i pc pc' x,
  l !! i = Some pc →
  (occ x (concat (in_flight <$> <[i := pc']> l)) + occ x (in_flight pc)
   = occ x (concat (in_flight <$> l)) + occ x (in_flight pc'))%nat.
Proof.
  induction l as [|p l IH]; intros i pc pc' x Hl; [done|].
  destruct i as [|i].
  - injection Hl as ->. cbn [insert list_insert fmap list_fmap concat].
    rewrite !count_occ_app. clear IH. lia.
  - cbn [insert list_insert fmap list_fmap concat].
    rewrite !count_occ_app. cbn in Hl.
    specialize (IH i pc pc' x Hl).
    rewrite <- !Nat.add_assoc. f_equal. exact IH.
Qed.

Lemma accounted_step t (st st' : pipeline float) x :
  (∀ r tid, align r tid = align r 0%nat) →
  step parse align t st = Some st' →
  occ x (accounted parse align st') = occ x (accounted parse align st).
Proof.
  intros Htid H. step_cases H;
    unfold accounted, set_reader, set_writer, set_worker, terminate, queued;
    cbn [mappingListStream reader_record seq_queue paf_queue reader_done
         working outstrm reader_at workers_at writer_at terminated];
    rewrite ?Hpc, ?Hstream, ?Hpaf, ?Hseq;
    try reflexivity.
  - (* an empty line *)
    cbn [expected_output held]. by rewrite (bool_decide_eq_true_2 _ Hline).
  - (* a line is parsed *)
    cbn [expected_output held currentRecord].
    rewrite (bool_decide_eq_false_2 _ Hline), Hparse. unfold result_of.
    destruct (align r 0%nat) as [out|]; [case_bool_decide|]; reflexivity.
  - (* the reader pushes *)
    cbn [held]. rewrite fmap_app, concat_app. cbn [fmap list_fmap concat].
    rewrite !count_occ_app. cbn [count_occ]. cbv beta. unfold result_of. lia.
  - (* the writer writes *)
    rewrite !count_occ_app. cbn [count_occ].
    destruct (String.eq_dec paf_lines x); lia.
  - (* a worker raises its flag *)
    pose proof (occ_in_flight_insert _ _ _ W_try_pop x Hpc) as Hi.
    cbn [in_flight count_occ] in Hi. rewrite !count_occ_app. lia.
  - pose proof (occ_in_flight_insert _ _ _ W_load_done x Hpc) as Hi.
    cbn [in_flight count_occ] in Hi. rewrite !count_occ_app. lia.
  - (* a worker takes a record and aligns it *)
    pose proof (occ_in_flight_insert _ _ _
                  (if bool_decide (out = "") then W_try_pop else W_push out)
                  x Hpc) as Hi.
    cbn [fmap list_fmap concat]. unfold result_of at 2.
    rewrite <- (Htid (currentRecord rec) tid), Halign.
    rewrite !count_occ_app.
    case_bool_decide; cbn [in_flight count_occ] in Hi |- *; lia.
  - pose proof (occ_in_flight_insert _ _ _
                  (if reader_done st then W_store_false else W_try_pop)
                  x Hpc) as Hi.
    rewrite !count_occ_app.
    destruct (reader_done st); cbn [in_flight count_occ] in Hi; lia.
  - (* a worker pushes its result *)
    pose proof (occ_in_flight_insert _ _ _ W_try_pop x Hpc) as Hi.
    rewrite !count_occ_app. cbn [in_flight count_occ] in Hi |- *.
    destruct (String.eq_dec paf_rec x); lia.
  - pose proof (occ_in_flight_insert _ _ _ W_finished x Hpc) as Hi.
    cbn [in_flight count_occ] in Hi. rewrite !count_occ_app. lia.
Qed.

Lemma in_flight_finished (l : list worker_pc) :
  Forall (λ pc, pc = W_finished) l → concat (in_flight <$> l) = [].
Proof. induction 1 as [|pc l -> _ IH]; [done|]. exact IH. Qed.

Lemma in_flight_start n : concat (in_flight <$> replicate n W_start) = [].
Proof. induction n as [|n IH]; [done|]. exact IH. Qed.

Lemma joined_inv (st : pipeline float) :
  joined st = true →
  reader_at st = R_finished ∧ writer_at st = Wr_finished ∧
  Forall (λ pc, pc = W_finished) (workers_at st) ∧ terminated st = false.
Proof.
  unfold joined. intros H.
  apply andb_true_iff in H as [H Ht]. apply andb_true_iff in H as [H Hw].
  apply andb_true_iff in H as [Hr Hwr].
  split; [by destruct (reader_at st)|]. split; [by destruct (writer_at st)|].
  split; [|by destruct (terminated st)].
  clear -Hw. induction (workers_at st) as [|pc l IH]; [done|].
  cbn in Hw. apply andb_true_iff in Hw as [Hpc Hl].
  constructor; [by destruct pc|by apply IH].
Qed.

(** Under every schedule and for every number of workers, the results
    that the mapping file calls for are, up to order, exactly those that
    have been written together with those still held somewhere in the
    pipeline (given that the result of an alignment does not depend on
    the thread that computes it): nothing is written twice and nothing is
    written that is not the result of a line.  When all threads have been
    joined, a result is missing from the output exactly when it is still
    in [paf_queue] or its record still in [seq_queue]. *)
Theorem results_are_accounted (n : nat) (lines : list string)
    (record : MappingBoundaryRow float) (schedule : list thread)
    (st : pipeline float) :
  (∀ r tid, align r tid = align r 0%nat) →
  run parse align schedule (launch n lines record) = Some st →
  accounted parse align st ≡ₚ expected_output parse align lines record 0 ∧
  outstrm st ⊆+ expected_output parse align lines record 0 ∧
  (joined st = true →
   outstrm st ++ paf_queue st ++ queued align (seq_queue st)
   ≡ₚ expected_output parse align lines record 0).
Proof.
  intros Htid Hrun.
  assert (Hacc : accounted parse align st
                 ≡ₚ expected_output parse align lines record 0).
  { apply (Permutation_count_occ String.eq_dec). intros x. revert Hrun.
    apply (run_invariant
             (λ st, occ x (accounted parse align st)
                    = occ x (expected_output parse align lines record 0))).
    - unfold accounted, launch, queued.
      cbn [mappingListStream reader_record seq_queue paf_queue outstrm
           reader_at workers_at held fmap list_fmap concat app].
      by rewrite in_flight_start.
    - intros t s s' Hs Hstep. by rewrite (accounted_step t s s' x Htid Hstep). }
  split; [exact Hacc|]. split.
  - rewrite <- Hacc. unfold accounted. apply submseteq_inserts_r. done.
  - intros Hj. rewrite <- Hacc. unfold accounted.
    apply joined_inv in Hj as (Hr & _ & Hw & _).
    destruct (order_inv_run _ _ _ _ _ Hrun) as [_ _ _ _ Hread _].
    destruct (Hread Hr) as [-> _]. rewrite Hr, (in_flight_finished _ Hw).
    cbn [held expected_output app]. by rewrite !app_nil_r.
Qed.

(** *** The first loop and the counter *)

Lemma to_u64_range z : 0 ≤ to_u64 z < two64.
Proof. unfold to_u64. apply Z.mod_pos_bound. done. Qed.

Lemma to_u64_shift a b c :
  to_u64 (a + (to_u64 b - to_u64 c)) = to_u64 (a + (b - c)).
Proof.
  unfold to_u64.
  rewrite (Z.mod_eq b two64), (Z.mod_eq c two64) by done.
  replace (a + (b - two64 * (b / two64) - (c - two64 * (c / two64))))
    with (a + (b - c) + (c / two64 - b / two64) * two64) by lia.
  apply Z_mod_plus_full.
Qed.

(** The first loop with another initial value of the counter. *)
Lemma count_pass_shift lines : ∀ (record : MappingBoundaryRow float) c1 c2 T,
  count_pass parse lines record c1 = Parsed T →
  0 ≤ c1 < two64 → 0 ≤ c2 < two64 →
  0 ≤ T < two64 ∧
  count_pass parse lines record c2 = Parsed (to_u64 (T + (c2 - c1))).
Proof.
  induction lines as [|line rest IH]; intros record c1 c2 T H H1 H2.
  - cbn in H. injection H as <-. split; [done|]. cbn.
    f_equal. rewrite to_u64_id; lia.
  - cbn [count_pass] in H |- *. case_bool_decide as Hline.
    + by apply (IH record c1 c2 T).
    + destruct (parse line record) as [r| | |] eqn:Hparse; [|done..].
      cbn [mbind parsed_bind] in H |- *.
      destruct (IH r (add_length c1 r) (add_length c2 r) T H)
        as [HT Hc]; [apply to_u64_range..|].
      split; [done|]. rewrite Hc. f_equal. unfold add_length.
      rewrite to_u64_shift. f_equal. lia.
Qed.

Lemma step_total_inv t (st st' : pipeline float) c c' :
  step_total parse align t (st, c) = Some (st', c') →
  step parse align t st = Some st' ∧
  c' = match t with Reader => reader_counts parse st c | _ => c end.
Proof.
  unfold step_total. cbn [fst snd].
  destruct (step parse align t st) as [s|]; [|done].
  cbn. by intros [= <- <-].
Qed.

Lemma run_total_run schedule : ∀ (st st' : pipeline float) c c',
  run_total parse align schedule (st, c) = Some (st', c') →
  run parse align schedule st = Some st'.
Proof.
  induction schedule as [|t schedule IH]; intros st st' c c' H.
  - cbn in H. by injection H as <- _.
  - cbn [run_total] in H.
    destruct (step_total parse align t (st, c)) as [[s1 c1]|] eqn:H1;
      [|done].
    apply step_total_inv in H1 as [H1 _]. cbn in H |- *. rewrite H1. cbn.
    by apply (IH s1 st' c1 c').
Qed.

Lemma counter_inv_step F t (c c' : pipeline float * Z) :
  counter_inv parse F c → step_total parse align t c = Some c' → counter_inv parse F c'.
Proof.
  destruct c as [st n], c' as [st' n'].
  intros [Hn Hc] [H ->]%step_total_inv. cbn [fst snd] in *.
  step_cases H; unfold counter_inv, reader_counts, set_reader, set_writer,
    set_worker, terminate;
    cbn [fst snd mappingListStream reader_record];
    rewrite ?Hpc, ?Hstream in *; try done.
  - (* an empty line *)
    cbn [count_pass] in Hc.
    by rewrite (bool_decide_eq_true_2 _ Hline) in Hc |- *.
  - (* a line is parsed *)
    cbn [count_pass] in Hc.
    rewrite (bool_decide_eq_false_2 _ Hline), Hparse in Hc |- *.
    split; [apply to_u64_range|exact Hc].
  - cbn [count_pass] in Hc.
    by rewrite (bool_decide_eq_false_2 _ Hline), Hparse in Hc.
  - cbn [count_pass] in Hc.
    by rewrite (bool_decide_eq_false_2 _ Hline), Hparse in Hc.
  - cbn [count_pass] in Hc.
    by rewrite (bool_decide_eq_false_2 _ Hline), Hparse in Hc.
Qed.

Lemma counter_inv_run F schedule : ∀ (c c' : pipeline float * Z),
  counter_inv parse F c → run_total parse align schedule c = Some c' →
  counter_inv parse F c'.
Proof.
  induction schedule as [|t schedule IH]; intros c c' Hc H.
  - cbn in H. by injection H as <-.
  - cbn [run_total] in H.
    destruct (step_total parse align t c) as [c1|] eqn:H1; [|done].
    cbn in H. apply (IH c1 c'); [|done]. by apply (counter_inv_step F t c).
Qed.

(** The message that ends [computeAlignments] reports no mapped read,
    whatever the mapping file holds, and twice the number of query bases
    of the mappings (as a [uint64_t]): [total_seqs] is never changed, and
    the lengths that the first loop has summed are added a second time by
    the reader thread, which shares the counter. *)
Theorem final_message_counts (n : nat) (lines : list string)
    (record : MappingBoundaryRow float) (schedule : list thread)
    (s : summary) :
  computeAlignments parse align n lines record schedule = Parsed (Some s) →
  total_seqs s = 0 ∧
  ∃ T, count_pass parse lines record 0 = Parsed T ∧
       total_aligned_bp s = to_u64 (2 * T).
Proof.
  unfold computeAlignments.
  destruct (count_pass parse lines record 0) as [T| | |] eqn:Hcount;
    [|done..].
  cbn [mbind parsed_bind].
  destruct (run_total parse align schedule (launch n lines record, T))
    as [[st total]|] eqn:Hrun; [|done].
  destruct (joined st) eqn:Hj; [|done]. intros [= <-]. cbn.
  split; [done|]. exists T. split; [done|].
  destruct (count_pass_shift lines record 0 T T Hcount) as [HT Hc];
    [done|by apply (count_pass_shift lines record 0 0 T)|].
  assert (Hinv : counter_inv parse (to_u64 (T + (T - 0)))
                   (launch n lines record, T)).
  { split; [exact HT|exact Hc]. }
  pose proof (run_total_run _ _ _ _ _ Hrun) as Hrun0.
  apply joined_inv in Hj as (Hr & _).
  destruct (order_inv_run _ _ _ _ _ Hrun0) as [_ _ _ _ Hread _].
  destruct (Hread Hr) as [Hs _].
  pose proof (counter_inv_run _ _ _ _ Hinv Hrun) as [_ Hend].
  cbn [fst snd] in Hend. rewrite Hs in Hend. cbn in Hend.
  injection Hend as ->. f_equal. lia.
Qed.

(** A mapping file that the first loop has read to its end is read to its
    end by the reader thread too: when every alignment gives a result, no
    schedule ends the process abnormally. *)
Theorem reader_cannot_fail_after_first_loop (n : nat) (lines : list string)
    (record : MappingBoundaryRow float) (T : Z) (schedule : list thread)
    (st : pipeline float) :
  count_pass parse lines record 0 = Parsed T →
  (∀ r tid, is_Some (align r tid)) →
  run parse align schedule (launch n lines record) = Some st →
  terminated st = false.
Proof.
  intros Hcount Htotal Hrun.
  assert (Hinv : (∃ F, count_pass parse (mappingListStream st)
                         (reader_record st) 0 = Parsed F)
                 ∧ terminated st = false); [|by destruct Hinv].
  revert Hrun.
  apply (run_invariant
           (λ st, (∃ F, count_pass parse (mappingListStream st)
                          (reader_record st) 0 = Parsed F)
                  ∧ terminated st = false)).
  - split; [by exists T|done].
  - intros t s s' [[F HF] Ht] H.
    step_cases H; unfold set_reader, set_writer, set_worker, terminate;
      cbn [mappingListStream reader_record terminated];
      rewrite ?Hstream in *; try (split; [by exists F|done]).
    + (* an empty line *)
      cbn [count_pass] in HF. rewrite (bool_decide_eq_true_2 _ Hline) in HF.
      split; [by exists F|done].
    + (* a line is parsed *)
      cbn [count_pass] in HF.
      rewrite (bool_decide_eq_false_2 _ Hline), Hparse in HF.
      cbn [mbind parsed_bind] in HF.
      destruct (count_pass_shift rest r (add_length 0 r) 0 F HF)
        as [_ Hc]; [apply to_u64_range|done|].
      split; [by eexists|done].
    + cbn [count_pass] in HF.
      by rewrite (bool_decide_eq_false_2 _ Hline), Hparse in HF.
    + cbn [count_pass] in HF.
      by rewrite (bool_decide_eq_false_2 _ Hline), Hparse in HF.
    + cbn [count_pass] in HF.
      by rewrite (bool_decide_eq_false_2 _ Hline), Hparse in HF.
    + (* an alignment fails *)
      destruct (Htotal (currentRecord rec) tid) as [out Hout]. congruence.
Qed.

(** One step of a schedule, on a state whose fields are explicit. *)
Ltac run_step tac :=
  erewrite run_cons;
    [|cbn; tac; unfold set_worker, set_reader, set_writer; cbn; reflexivity].

(** The writer can miss a result as a worker can miss a record: with one
    worker and a mapping file of one line, on the schedule in which the
    writer finds [paf_queue] empty, the reader and the worker then do all
    their work and end, and the writer only then looks at the flags, every
    thread ends; the record has been aligned, its result stays in
    [paf_queue] and nothing is written. *)
Theorem writer_leaves_result line (record r : MappingBoundaryRow float)
    (out : string) :
  line ≠ "" →
  parse line record = Parsed r →
  align r 0%nat = Some out →
  out ≠ "" →
  expected_output parse align [line] record 0 = [out] ∧
  ∃ st,
    run parse align pipeline_examples.late_writer (launch 1 [line] record)
      = Some st ∧
    joined st = true ∧
    outstrm st = [] ∧
    paf_queue st = [out] ∧
    seq_queue st = [].
Proof.
  intros Hline Hparse Halign Hout. split.
  - simpl. rewrite (bool_decide_eq_false_2 _ Hline), Hparse, Halign.
    by rewrite (bool_decide_eq_false_2 _ Hout).
  - eexists. split.
    + unfold pipeline_examples.late_writer, launch.
      run_step idtac.                       (* writer: try_pop fails *)
      run_step ltac:(rewrite (bool_decide_eq_false_2 _ Hline), Hparse).
      run_step idtac.                       (* reader: push *)
      run_step idtac.                       (* reader: reader_done = true *)
      run_step idtac.                       (* worker: working[0] = true *)
      run_step ltac:(rewrite Halign, (bool_decide_eq_false_2 _ Hout)).
      run_step idtac.                       (* worker: push the result *)
      run_step idtac.                       (* worker: try_pop fails *)
      run_step idtac.                       (* worker: loads reader_done *)
      run_step idtac.                       (* worker: working[0] = false *)
      run_step idtac.                       (* writer: nobody is working *)
      reflexivity.
    + done.
Qed.

End pipeline_invariants.

Section pipeline_more_witnesses.
Import align.

Lemma threads_end_in_order_witness :
  ∃ st,
    run align_examples.parse align_examples.do_alignment
      align_examples.losing_schedule
      (launch 1 [align_examples.s4_line] align_examples.blank_record)
    = Some st ∧
    length (workers_at st) = 1%nat.
Proof.
  destruct (run align_examples.parse align_examples.do_alignment
              align_examples.losing_schedule
              (launch 1 [align_examples.s4_line] align_examples.blank_record))
    as [st|] eqn:Hrun; [|vm_compute in Hrun; discriminate].
  exists st. split; [reflexivity|].
  exact (proj1 (threads_end_in_order align_examples.parse
                  align_examples.do_alignment 1 [align_examples.s4_line]
                  align_examples.blank_record align_examples.losing_schedule
                  st Hrun)).
Defined.

Lemma results_are_accounted_witness :
  (∀ r tid, align_examples.do_alignment r tid
            = align_examples.do_alignment r 0%nat) ∧
  ∃ st,
    run align_examples.parse align_examples.do_alignment
      align_examples.losing_schedule
      (launch 1 [align_examples.s4_line] align_examples.blank_record)
    = Some st ∧
    outstrm st
    ⊆+ expected_output align_examples.parse align_examples.do_alignment
         [align_examples.s4_line] align_examples.blank_record 0.
Proof.
  assert (H1 : ∀ r tid, align_examples.do_alignment r tid
                        = align_examples.do_alignment r 0%nat)
    by (intros r tid; reflexivity).
  split; [exact H1|].
  destruct (run align_examples.parse align_examples.do_alignment
              align_examples.losing_schedule
              (launch 1 [align_examples.s4_line] align_examples.blank_record))
    as [st|] eqn:Hrun; [|vm_compute in Hrun; discriminate].
  exists st. split; [reflexivity|].
  exact (proj1 (proj2 (results_are_accounted align_examples.parse
                         align_examples.do_alignment 1
                         [align_examples.s4_line] align_examples.blank_record
                         align_examples.losing_schedule st H1 Hrun))).
Defined.

(** The line of scenario S4 maps 100 query bases. *)
Lemma final_message_counts_witness :
  ∃ s,
    computeAlignments align_examples.parse align_examples.do_alignment 1
      [align_examples.s4_line] align_examples.blank_record
      pipeline_examples.in_turn = Parsed (Some s) ∧
    written s = ["aligned\n"] ∧
    total_seqs s = 0 ∧ total_aligned_bp s = 200.
Proof.
  destruct (computeAlignments align_examples.parse align_examples.do_alignment
              1 [align_examples.s4_line] align_examples.blank_record
              pipeline_examples.in_turn)
    as [[s|]| | |] eqn:Hc; try (vm_compute in Hc; discriminate).
  exists s. split; [reflexivity|].
  destruct (final_message_counts align_examples.parse
              align_examples.do_alignment 1 [align_examples.s4_line]
              align_examples.blank_record pipeline_examples.in_turn s Hc)
    as (H0 & T & HT & Hbp).
  split; [|split; [exact H0|]].
  - vm_compute in Hc. by injection Hc as <-.
  - rewrite Hbp. vm_compute in HT. by injection HT as <-.
Defined.

Lemma reader_cannot_fail_after_first_loop_witness :
  count_pass align_examples.parse [align_examples.s4_line]
    align_examples.blank_record 0 = Parsed 100 ∧
  ∃ st,
    run align_examples.parse pipeline_examples.always_aligns
      align_examples.losing_schedule
      (launch 1 [align_examples.s4_line] align_examples.blank_record)
    = Some st ∧
    terminated st = false.
Proof.
  assert (H1 : count_pass align_examples.parse [align_examples.s4_line]
                 align_examples.blank_record 0 = Parsed 100)
    by (vm_compute; reflexivity).
  assert (H2 : ∀ r tid, is_Some (pipeline_examples.always_aligns r tid))
    by (intros r tid; eexists; reflexivity).
  split; [exact H1|].
  destruct (run align_examples.parse pipeline_examples.always_aligns
              align_examples.losing_schedule
              (launch 1 [align_examples.s4_line] align_examples.blank_record))
    as [st|] eqn:Hrun; [|vm_compute in Hrun; discriminate].
  exists st. split; [reflexivity|].
  exact (reader_cannot_fail_after_first_loop align_examples.parse
           pipeline_examples.always_aligns 1 [align_examples.s4_line]
           align_examples.blank_record 100 align_examples.losing_schedule st
           H1 H2 Hrun).
Defined.

Lemma writer_leaves_result_witness :
  align_examples.s4_line ≠ "" ∧
  align_examples.parse align_examples.s4_line align_examples.blank_record
    = Parsed align_examples.s4_record ∧
  align_examples.do_alignment align_examples.s4_record 0%nat
    = Some "aligned\n" ∧
  ∃ st,
    run align_examples.parse align_examples.do_alignment
      pipeline_examples.late_writer
      (launch 1 [align_examples.s4_line] align_examples.blank_record)
      = Some st ∧
    joined st = true ∧ outstrm st = [] ∧ paf_queue st = ["aligned\n"].
Proof.
  assert (H1 : align_examples.s4_line ≠ "") by (vm_compute; discriminate).
  assert (H2 : align_examples.parse align_examples.s4_line
                 align_examples.blank_record
               = Parsed align_examples.s4_record)
    by (vm_compute; reflexivity).
  assert (H3 : align_examples.do_alignment align_examples.s4_record 0%nat
               = Some "aligned\n") by (vm_compute; reflexivity).
  assert (H4 : "aligned\n" ≠ "") by (vm_compute; discriminate).
  split; [exact H1|]. split; [exact H2|]. split; [exact H3|].
  destruct (writer_leaves_result align_examples.parse
              align_examples.do_alignment align_examples.s4_line
              align_examples.blank_record align_examples.s4_record
              "aligned\n" H1 H2 H3 H4)
    as (_ & st & Hrun & Hjoin & Hout & Hpaf & _).
  exists st. repeat split; assumption.
Defined.

End pipeline_more_witnesses.
